(** * proglog: the segment / index / store triad of the commit log

    A shallow embedding of [internal/log/segment.go] and
    [internal/log/index.go], together with the properties the
    specification states about them.

    Conventions.
    - Go's [uint64], [uint32] and [int64] values are integers in [Z]; every
      arithmetic operation that can leave the type's range has its
      wrap-around written out ([uint64], [uint32], [int64] below).
    - A byte slice is a [list byte]; [encoding/binary.BigEndian] is
      written out with shifts and masks.
    - A Go method returning [(v, error)] returns an [outcome]; a run-time
      panic (slice bounds, division by zero) is the third constructor.
    - A method with a pointer receiver is a computation [io] over the
      receiver and whatever else it can change.
    - The operating system (the files as a finite map from paths to
      bytes, the set of open descriptors, and the I/O errors it is going
      to raise) is an explicit [World] threaded through every call.
    - The store, the configuration and the record type are declared in
      files of the package that are not among the sources; they follow
      the specification, and say so.

    The file has two parts: the definitions, then the properties. *)

From Stdlib Require Import ZArith Lia List.
From Stdlib.Strings Require Import Byte.
From Stdlib Require Import DecimalString.
From Stdlib Require DecimalPos DecimalZ.
From stdpp Require Import gmap strings list.

Open Scope Z_scope.

(** ** Machine integers *)

Definition uint64 (z : Z) : Z := z mod 2 ^ 64.
Definition uint32 (z : Z) : Z := z mod 2 ^ 32.

(** Conversion of a 64-bit pattern to the signed type [int64]. *)
Definition int64 (z : Z) : Z :=
  let m := z mod 2 ^ 64 in
  if m <? 2 ^ 63 then m else m - 2 ^ 64.

Definition is_uint64 (z : Z) : Prop := 0 <= z < 2 ^ 64.

(** ** Errors and outcomes *)

(** [EOF] is Go's [io.EOF]; [EINVAL], [ENOENT], [EBADF] and [EFBIG] are
    the errors the operating system reports on its own account; [EIO n]
    stands for any other failure of a system call, and [EPROTO n] for a
    failure of the record codec. *)
Inductive error : Type :=
| EOF
| EINVAL
| ENOENT
| EBADF
| EFBIG
| EIO (n : nat)
| EPROTO (n : nat).

Inductive outcome (A : Type) : Type :=
| Ok (a : A)
| Err (e : error)
| Panic.
Arguments Ok {A} a.
Arguments Err {A} e.
Arguments Panic {A}.

#[global] Instance outcome_ret : MRet outcome := fun _ a => Ok a.
#[global] Instance outcome_bind : MBind outcome := fun _ _ f m =>
  match m with
  | Ok a => f a
  | Err e => Err e
  | Panic => Panic
  end.

Definition is_Ok {A} (o : outcome A) : bool :=
  match o with Ok _ => true | _ => false end.

(** ** Bytes and big-endian encoding *)

(** Go's conversion [byte(v)]: the low eight bits. *)
Definition byte_of_Z (v : Z) : byte :=
  default x00 (Byte.of_N (Z.to_N (v mod 256))).

Definition Z_of_byte (b : byte) : Z := Z.of_N (Byte.to_N b).

(** The slice expression [b[lo:hi]]; it panics unless
    [0 <= lo <= hi <= len(b)]. *)
Definition slice (b : list byte) (lo hi : Z) : outcome (list byte) :=
  if (0 <=? lo) && (lo <=? hi) && (hi <=? Z.of_nat (length b))
  then Ok (take (Z.to_nat (hi - lo)) (drop (Z.to_nat lo) b))
  else Panic.

(** Assignment through a slice expression: the bytes [b[lo:lo+len(v)]]
    are overwritten with [v]. *)
Definition splice (b : list byte) (lo : Z) (v : list byte) : list byte :=
  take (Z.to_nat lo) b ++ v ++ drop (Z.to_nat lo + length v) b.

Module enc.
(** [binary.BigEndian]. *)

Definition PutUint32 (v : Z) : list byte :=
  [ byte_of_Z (v ≫ 24); byte_of_Z (v ≫ 16); byte_of_Z (v ≫ 8);
    byte_of_Z v ].

Definition PutUint64 (v : Z) : list byte :=
  [ byte_of_Z (v ≫ 56); byte_of_Z (v ≫ 48); byte_of_Z (v ≫ 40);
    byte_of_Z (v ≫ 32); byte_of_Z (v ≫ 24); byte_of_Z (v ≫ 16);
    byte_of_Z (v ≫ 8); byte_of_Z v ].

Definition Uint32 (b : list byte) : Z :=
  match b with
  | b0 :: b1 :: b2 :: b3 :: _ =>
      Z.lor (Z.lor (Z.lor (Z_of_byte b3) (Z_of_byte b2 ≪ 8))
                   (Z_of_byte b1 ≪ 16))
            (Z_of_byte b0 ≪ 24)
  | _ => 0
  end.

Definition Uint64 (b : list byte) : Z :=
  match b with
  | b0 :: b1 :: b2 :: b3 :: b4 :: b5 :: b6 :: b7 :: _ =>
      Z.lor (Z.lor (Z.lor (Z.lor (Z.lor (Z.lor (Z.lor
        (Z_of_byte b7) (Z_of_byte b6 ≪ 8)) (Z_of_byte b5 ≪ 16))
        (Z_of_byte b4 ≪ 24)) (Z_of_byte b3 ≪ 32)) (Z_of_byte b2 ≪ 40))
        (Z_of_byte b1 ≪ 48)) (Z_of_byte b0 ≪ 56)
  | _ => 0
  end.
End enc.

(** Go's [len]. *)
Definition len {A} (b : list A) : Z := Z.of_nat (length b).

(** ** State-passing computations

    [io S A] is a computation over a state [S] that returns an [A], fails
    with an error, or panics.  The state survives a failure: a file that
    was opened stays open when a later step fails. *)

Definition io (S A : Type) : Type := S → outcome A * S.

Definition ret {S A} (a : A) : io S A := fun s => (Ok a, s).

Definition bind {S A B} (m : io S A) (f : A → io S B) : io S B := fun s =>
  match m s with
  | (Ok a, s') => f a s'
  | (Err e, s') => (Err e, s')
  | (Panic, s') => (Panic, s')
  end.

Notation "x <- m ;; k" := (bind m (fun x => k))
  (at level 100, m at next level, right associativity).
Notation "m ;;; k" := (bind m (fun _ => k))
  (at level 100, right associativity).

Definition fail {S A} (e : error) : io S A := fun s => (Err e, s).

(** Run a computation on the second component of the state. *)
Definition on_world {T W A} (m : io W A) : io (T * W) A := fun s =>
  let '(r, w) := m (snd s) in (r, (fst s, w)).

(** Run a computation on the first component of the state. *)
Definition on_self {T W A} (m : io T A) : io (T * W) A := fun s =>
  let '(r, t) := m (fst s) in (r, (t, snd s)).

Definition get {S} : io S S := fun s => (Ok s, s).
Definition modify {S} (f : S → S) : io S unit := fun s => (Ok (), f s).

(** Lift a pure outcome. *)
Definition pure {S A} (o : outcome A) : io S A := fun s => (o, s).

(** ** The operating system

    The file system maps a path to the bytes of the file.  [handles] is
    the set of open descriptors.  [faults] is the schedule of I/O
    failures: every system call consumes the head of the schedule and
    fails with the error found there, if any; an empty schedule means
    that no further call fails on the system's account. *)

Record File : Type := mkFile { fd : nat; file_name : string }.

Record World : Type := mkWorld {
  files : gmap string (list byte);
  handles : gset nat;
  next_fd : nat;
  faults : list (option error)
}.

Definition set_files (fs : gmap string (list byte)) (w : World) : World :=
  mkWorld fs (handles w) (next_fd w) (faults w).

(** A file resized to [n] bytes: cut, or extended with zero bytes. *)
Definition resize (n : Z) (b : list byte) : list byte :=
  take (Z.to_nat n) b ++ replicate (Z.to_nat n - length b) x00.

Inductive flag : Type := O_RDWR | O_CREATE | O_APPEND.

Module os.

Definition syscall : io World unit := fun w =>
  match faults w with
  | Some e :: fs => (Err e, mkWorld (files w) (handles w) (next_fd w) fs)
  | None :: fs => (Ok (), mkWorld (files w) (handles w) (next_fd w) fs)
  | [] => (Ok (), w)
  end.

Definition has_flag (x : flag) (fl : list flag) : bool :=
  existsb (fun y => match x, y with
                    | O_RDWR, O_RDWR | O_CREATE, O_CREATE
                    | O_APPEND, O_APPEND => true
                    | _, _ => false
                    end) fl.

(** [os.OpenFile(name, flags, perm)]. *)
Definition OpenFile (name : string) (fl : list flag) (perm : Z)
  : io World File :=
  syscall ;;;
  fun w =>
    let f := mkFile (next_fd w) name in
    match files w !! name with
    | Some _ =>
        (Ok f, mkWorld (files w) ({[next_fd w]} ∪ handles w)
                       (S (next_fd w)) (faults w))
    | None =>
        if has_flag O_CREATE fl
        then (Ok f, mkWorld (<[name := []]> (files w))
                            ({[next_fd w]} ∪ handles w)
                            (S (next_fd w)) (faults w))
        else (Err ENOENT, w)
    end.

(** [os.Stat(name)], reduced to the size it reports. *)
Definition Stat (name : string) : io World Z :=
  syscall ;;;
  fun w =>
    match files w !! name with
    | Some b => (Ok (len b), w)
    | None => (Err ENOENT, w)
    end.

(** [os.Truncate(name, size)]. *)
Definition Truncate (name : string) (n : Z) : io World unit :=
  syscall ;;;
  fun w =>
    if n <? 0 then (Err EINVAL, w)
    else match files w !! name with
         | Some b => (Ok (), set_files (<[name := resize n b]> (files w)) w)
         | None => (Err ENOENT, w)
         end.

(** [os.Remove(name)]. *)
Definition Remove (name : string) : io World unit :=
  syscall ;;;
  fun w =>
    match files w !! name with
    | Some _ => (Ok (), set_files (delete name (files w)) w)
    | None => (Err ENOENT, w)
    end.

(** Every method of an [*os.File] fails on a closed descriptor. *)
Definition opened (f : File) : io World (list byte) := fun w =>
  if decide (fd f ∈ handles w)
  then match files w !! file_name f with
       | Some b => (Ok b, w)
       | None => (Err ENOENT, w)
       end
  else (Err EBADF, w).

Definition File_Name (f : File) : string := file_name f.

Definition File_Sync (f : File) : io World unit :=
  opened f ;;; syscall.

Definition File_Truncate (f : File) (n : Z) : io World unit :=
  b <- opened f ;;
  syscall ;;;
  fun w =>
    if n <? 0 then (Err EINVAL, w)
    else (Ok (), set_files (<[file_name f := resize n b]> (files w)) w).

(** The descriptor is released even when the call reports an error. *)
Definition File_Close (f : File) : io World unit :=
  opened f ;;;
  (fun w =>
     (Ok (), mkWorld (files w) (handles w ∖ {[fd f]}) (next_fd w)
               (faults w))) ;;;
  syscall.

(** [f.Write(p)] on a file opened with [O_APPEND].  A file offset is
    an [int64]: the system refuses to grow a file to [2^63] bytes. *)
Definition File_Write (f : File) (p : list byte) : io World unit :=
  b <- opened f ;;
  syscall ;;;
  if 2 ^ 63 <=? len b + len p then fail EFBIG
  else fun w =>
    (Ok (), set_files (<[file_name f := b ++ p]> (files w)) w).

(** [f.ReadAt(buf, off)] with [len(buf) = n]: a short read is [io.EOF]. *)
Definition File_ReadAt (f : File) (n off : Z) : io World (list byte) :=
  b <- opened f ;;
  syscall ;;;
  if (0 <=? off) && (0 <=? n) && (off + n <=? len b)
  then ret (take (Z.to_nat n) (drop (Z.to_nat off) b))
  else fail EOF.

End os.

Module gommap.

(** [gommap.Map(fd, PROT_READ|PROT_WRITE, MAP_SHARED)] maps the whole
    file; the system refuses a mapping of length zero. *)
Definition Map (f : File) : io World (list byte) :=
  b <- os.opened f ;;
  os.syscall ;;;
  if len b =? 0 then fail EINVAL else ret b.

(** [mmap.Sync(MS_SYNC)]: the mapped bytes reach the file. *)
Definition Sync (f : File) (m : list byte) : io World unit :=
  b <- os.opened f ;;
  os.syscall ;;;
  fun w =>
    (Ok (), set_files (<[file_name f := m ++ drop (length m) b]> (files w)) w).

End gommap.

(** ** Declarations of the repository that the two source files use *)

(** Modelled from the spec: the configuration type [Config], declared in
    a file of the package that is not among the sources.  The code reads
    [c.Segment.MaxStoreBytes] and [c.Segment.MaxIndexBytes]; the spec
    (section 6) gives both as [uint64]. *)
Record SegmentConfig : Type := mkSegmentConfig {
  MaxStoreBytes : Z;
  MaxIndexBytes : Z
}.
Record Config : Type := mkConfig { Segment : SegmentConfig }.

(** Modelled from the spec: the record type [api.Record], generated code
    that is not among the sources.  The spec (section 3) describes it as
    an opaque byte payload plus a logical offset field. *)
Record api_Record : Type := mkRecord {
  Value : list byte;
  Offset : Z
}.

Definition set_Offset (off : Z) (r : api_Record) : api_Record :=
  mkRecord (Value r) off.

(** The serialization library: [proto.Marshal] and [proto.Unmarshal] into
    a fresh record.  [Unmarshal] yields the record it filled together
    with its error, as the Go call leaves both behind. *)
Class Codec : Type := {
  Marshal : api_Record → outcome (list byte);
  Unmarshal : list byte → api_Record * option error
}.

(** [path.Join(dir, name)], without the normalisation of [path.Clean]. *)
Definition path_Join (dir name : string) : string :=
  (dir +:+ "/" +:+ name)%string.

(** [fmt.Sprintf("%d%s", n, suffix)]. *)
Definition Sprintf_d_s (n : Z) (suffix : string) : string :=
  (NilZero.string_of_int (Z.to_int n) +:+ suffix)%string.

(** ** The store *)

Module store.

(** Modelled from the spec: the store, whose source file is not among
    the sources.  Section 3: an open file handle, a buffered writer and
    a running byte-size counter that always equals the number of bytes
    committed to the file; every record is stored as an 8-byte
    big-endian length followed by the payload.  As the counter counts
    committed bytes, the bytes of an append are in the file when the
    append returns: the buffered writer holds nothing between two
    calls, and is not a field of its own. *)
Record t : Type := mk {
  file : File;
  size : Z
}.

Definition lenWidth : Z := 8.

(** Modelled from the spec: the store is opened over the file of its
    segment, and its size counter starts at the bytes the file holds. *)
Definition newStore (f : File) : io World t :=
  sz <- os.Stat (os.File_Name f) ;;
  ret (mk f (uint64 sz)).

(** Modelled from the spec (section 4.1): the position is the current
    end of the file; the length prefix and the payload are written;
    the counter advances by [8 + len(payload)]; the result is the bytes
    written and the position. *)
Definition Append (p : list byte) : io (t * World) (Z * Z) :=
  s <- on_self get ;;
  let pos := size s in
  on_world (os.File_Write (file s) (enc.PutUint64 (len p) ++ p)) ;;;
  on_self (modify (fun s =>
    mk (file s) (uint64 (size s + uint64 (len p + lenWidth))))) ;;;
  ret (uint64 (len p + lenWidth), pos).

(** Modelled from the spec (section 4.1): after the flush, which has
    nothing to write, read the 8-byte length at [pos], then exactly
    that many bytes; reading past the extent of the file fails. *)
Definition Read (pos : Z) : io (t * World) (list byte) :=
  s <- on_self get ;;
  hdr <- on_world (os.File_ReadAt (file s) lenWidth pos) ;;
  on_world
    (os.File_ReadAt (file s) (enc.Uint64 hdr) (uint64 (pos + lenWidth))).

(** Modelled from the spec (section 4.1): after the flush, close the
    file. *)
Definition Close : io (t * World) unit :=
  s <- on_self get ;;
  on_world (os.File_Close (file s)).

Definition Name (s : t) : string := os.File_Name (file s).

End store.

(** ** The index ([index.go]) *)

Module index.

Definition offWidth : Z := 4.
Definition posWidth : Z := 8.
Definition entWidth : Z := offWidth + posWidth.

(** [mmap] holds the bytes of the mapped region; they reach the file
    when the region is synchronised ([gommap.Sync]). *)
Record t : Type := mk {
  file : File;
  mmap : list byte;
  size : Z
}.

Definition newIndex (f : File) (c : Config) : io World t :=
  fi_Size <- os.Stat (os.File_Name f) ;;
  let size := uint64 fi_Size in
  os.Truncate (os.File_Name f) (int64 (MaxIndexBytes (Segment c))) ;;;
  mmap <- gommap.Map f ;;
  ret (mk f mmap size).

Definition Close (i : t) : io World unit :=
  gommap.Sync (file i) (mmap i) ;;;
  os.File_Sync (file i) ;;;
  os.File_Truncate (file i) (int64 (size i)) ;;;
  os.File_Close (file i).

(** [in_] is the [int64] argument [in]. *)
Definition Read (i : t) (in_ : Z) : outcome (Z * Z) :=
  if size i =? 0 then Err EOF
  else
    let out :=
      if in_ =? -1 then uint32 (uint64 (size i / entWidth - 1))
      else uint32 in_ in
    let bytePos := uint64 (out * entWidth) in
    if size i <? uint64 (bytePos + entWidth) then Err EOF
    else
      b ← slice (mmap i) bytePos (uint64 (bytePos + offWidth));
      let offset := enc.Uint32 b in
      b ← slice (mmap i) (uint64 (bytePos + offWidth))
                (uint64 (bytePos + entWidth));
      let position := enc.Uint64 b in
      Ok (offset, position).

Definition Write (off pos : Z) : io t unit :=
  i <- get ;;
  if len (mmap i) <? uint64 (size i + entWidth) then fail EOF
  else
    pure (slice (mmap i) (size i) (uint64 (size i + offWidth))) ;;;
    modify (fun i =>
      mk (file i) (splice (mmap i) (size i) (enc.PutUint32 off)) (size i)) ;;;
    i <- get ;;
    pure (slice (mmap i) (uint64 (size i + offWidth))
                (uint64 (size i + entWidth))) ;;;
    modify (fun i =>
      mk (file i)
         (splice (mmap i) (uint64 (size i + offWidth)) (enc.PutUint64 pos))
         (size i)) ;;;
    modify (fun i => mk (file i) (mmap i) (uint64 (size i + entWidth))).

Definition Name (i : t) : string := os.File_Name (file i).

End index.

(** ** The segment ([segment.go]) *)

Module segment.

Record t : Type := mk {
  store : store.t;
  index : index.t;
  baseOffset : Z;
  nextOffset : Z;
  config : Config
}.

Definition set_store (st : store.t) (s : t) : t :=
  mk st (index s) (baseOffset s) (nextOffset s) (config s).
Definition set_index (ix : index.t) (s : t) : t :=
  mk (store s) ix (baseOffset s) (nextOffset s) (config s).
Definition set_nextOffset (n : Z) (s : t) : t :=
  mk (store s) (index s) (baseOffset s) n (config s).

(** A method of [s.store] run on the segment. *)
Definition in_store {A} (m : io (store.t * World) A) : io (t * World) A :=
  fun sw =>
    let '(r, (st, w)) := m (store (fst sw), snd sw) in
    (r, (set_store st (fst sw), w)).

(** A method of [s.index] run on the segment. *)
Definition in_index {A} (m : io index.t A) : io (t * World) A :=
  fun sw =>
    let '(r, ix) := m (index (fst sw)) in
    (r, (set_index ix (fst sw), snd sw)).

Definition newSegment (dir : string) (baseOffset : Z) (c : Config)
  : io World t :=
  storeFile <- os.OpenFile
                 (path_Join dir (Sprintf_d_s baseOffset ".store"))
                 [O_RDWR; O_CREATE; O_APPEND] 420 ;;
  store <- store.newStore storeFile ;;
  indexFile <- os.OpenFile
                 (path_Join dir (Sprintf_d_s baseOffset ".index"))
                 [O_RDWR; O_CREATE] 420 ;;
  index <- index.newIndex indexFile c ;;
  match index.Read index (-1) with
  | Ok (off, _) =>
      ret (mk store index baseOffset (uint64 (uint64 (baseOffset + off) + 1)) c)
  | Err _ =>
      ret (mk store index baseOffset baseOffset c)
  | Panic => pure Panic
  end.

(** The state of [Append] holds the record behind the pointer the
    caller passed, the segment, and the world. *)
Definition Append `{Codec} : io (api_Record * (t * World)) Z :=
  s <- on_world (on_self get) ;;
  let cur := nextOffset s in
  on_self (modify (set_Offset cur)) ;;;
  record <- on_self get ;;
  p <- pure (Marshal record) ;;
  r <- on_world (in_store (store.Append p)) ;;
  let pos := snd r in
  s <- on_world (on_self get) ;;
  on_world (in_index
    (index.Write (uint32 (uint64 (nextOffset s - baseOffset s))) pos)) ;;;
  on_world (on_self (modify (fun s =>
    set_nextOffset (uint64 (nextOffset s + 1)) s))) ;;;
  ret cur.

(** The result is the pair [(record, err)] of the last statement; a
    failure before it returns [nil] and is an [Err]. *)
Definition Read `{Codec} (off : Z)
  : io (t * World) (api_Record * option error) :=
  s <- on_self get ;;
  r <- pure (index.Read (index s) (int64 (uint64 (off - baseOffset s)))) ;;
  let pos := snd r in
  p <- in_store (store.Read pos) ;;
  ret (Unmarshal p).

Definition IsMaxed (s : t) : bool :=
  (MaxStoreBytes (Segment (config s)) <=? store.size (store s))
  || (MaxIndexBytes (Segment (config s)) <=? index.size (index s)).

Definition Close : io (t * World) unit :=
  s <- on_self get ;;
  on_world (index.Close (index s)) ;;;
  in_store store.Close.

Definition Remove : io (t * World) unit :=
  Close ;;;
  s <- on_self get ;;
  on_world (os.Remove (index.Name (index s))) ;;;
  on_world (os.Remove (store.Name (store s))).

(** The quotient [a / b] of two [uint64] values; division by zero
    panics. *)
Definition div (a b : Z) : outcome Z :=
  if b =? 0 then Panic else Ok (a / b).

Definition nearestMultiple (j k : Z) : outcome Z :=
  if 0 <=? j then
    q ← div j k; Ok (uint64 (q * k))
  else
    q ← div (uint64 (uint64 (j - k) + 1)) k; Ok (uint64 (q * k)).

End segment.

(** ** Runs and a reference codec *)

(** A caller appending the records of [rs] one after the other, whatever
    each call returns; the result lists what the calls returned. *)
Fixpoint run_appends `{Codec} (rs : list api_Record)
    (sw : segment.t * World) : list (outcome Z) * (segment.t * World) :=
  match rs with
  | [] => ([], sw)
  | r :: rs' =>
      let '(o, (_, sw1)) := segment.Append (r, sw) in
      let '(os, sw2) := run_appends rs' sw1 in
      (o :: os, sw2)
  end.

(** The contract of the serialization library that the segment relies
    on: decoding what was encoded gives the record back. *)
Class CodecLaws (C : Codec) : Prop := {
  Unmarshal_Marshal :
    ∀ r p, Marshal r = Ok p → Unmarshal p = (r, None)
}.

(** A codec that meets the contract, to run the code on concrete
    records: the offset in eight bytes, then the payload.  Offsets that
    are not a [uint64] and payloads of [2^63] bytes are refused. *)
Definition fixed_Marshal (r : api_Record) : outcome (list byte) :=
  if (0 <=? Offset r) && (Offset r <? 2 ^ 64) && (len (Value r) + 8 <? 2 ^ 63)
  then Ok (enc.PutUint64 (Offset r) ++ Value r)
  else Err (EPROTO 0).

Definition fixed_Unmarshal (p : list byte) : api_Record * option error :=
  if 8 <=? len p
  then (mkRecord (drop 8 p) (enc.Uint64 (take 8 p)), None)
  else (mkRecord [] 0, Some (EPROTO 1)).

Definition fixed_codec : Codec :=
  {| Marshal := fixed_Marshal; Unmarshal := fixed_Unmarshal |}.

(** A machine with no file, no open descriptor and no failure ahead. *)
Definition empty_world : World := mkWorld ∅ ∅ 0 [].

(** A configuration whose index holds two entries, and a machine on
    which the system call number [n] (counted from zero) fails. *)
Definition demo_config : Config := mkConfig (mkSegmentConfig 1024 24).

Definition world_failing_at (n : nat) (e : error) : World :=
  mkWorld ∅ ∅ 0 (replicate n None ++ [Some e]).

(** Three records, and the segment constructed at [base] under ["/log"]
    on the empty machine with [demo_config]. *)
Definition demo_records : list api_Record :=
  [mkRecord [x68] 0; mkRecord [x69] 0; mkRecord [x6a] 0].

Definition demo_segment (base : Z) : segment.t * World :=
  match segment.newSegment "/log" base demo_config empty_world with
  | (Ok s, w) => (s, w)
  | (_, w) =>
      (segment.mk (store.mk (mkFile 0 "") 0) (index.mk (mkFile 0 "") [] 0)
         base base demo_config, w)
  end.

(** ** Predicates of the statements *)

(** A computation that closes no descriptor. *)
Definition keeps_handles {A} (m : io World A) : Prop :=
  ∀ w o w', m w = (o, w') → handles w ⊆ handles w'.

(** The entry number [k] of the mapped region, decoded. *)
Definition entry_at (m : list byte) (k : Z) : outcome (Z * Z) :=
  b ← slice m (12 * k) (12 * k + 4);
  b' ← slice m (12 * k + 4) (12 * k + 12);
  Ok (enc.Uint32 b, enc.Uint64 b').

(** The entry that [Read] decodes for its argument [in_]. *)
Definition entry_number (i : index.t) (in_ : Z) : Z :=
  if in_ =? -1 then uint32 (uint64 (index.size i / 12 - 1)) else uint32 in_.

(** The bytes of a file; none for a file that does not exist. *)
Definition content (w : World) (name : string) : list byte :=
  default [] (files w !! name).

(** What the store's [Read] finds at [pos] in a file holding [b]. *)
Definition read_frame (b : list byte) (pos : Z) : outcome (list byte) :=
  if (0 <=? pos) && (0 <=? 8) && (pos + 8 <=? len b) then
    let n := enc.Uint64 (take (Z.to_nat 8) (drop (Z.to_nat pos) b)) in
    let q := uint64 (pos + 8) in
    if (0 <=? q) && (0 <=? n) && (q + n <=? len b)
    then Ok (take (Z.to_nat n) (drop (Z.to_nat q) b))
    else Err EOF
  else Err EOF.

(** The offsets that the successful calls of a run returned. *)
Fixpoint oks (outs : list (outcome Z)) : list Z :=
  match outs with
  | [] => []
  | Ok off :: outs' => off :: oks outs'
  | _ :: outs' => oks outs'
  end.

(** What [Read] returns, from the index and the bytes of the store. *)
Definition read_result `{Codec} (ix : index.t) (base : Z) (b : list byte)
    (off : Z) : outcome (api_Record * option error) :=
  match index.Read ix (int64 (uint64 (off - base))) with
  | Ok (_, pos) =>
      match read_frame b pos with
      | Ok p => Ok (Unmarshal p)
      | Err e => Err e
      | Panic => Panic
      end
  | Err e => Err e
  | Panic => Panic
  end.

(** The mapped region after the entry [(rel, pos)] was written at
    [size]. *)
Definition written (ix : index.t) (rel pos : Z) : index.t :=
  index.mk (index.file ix)
    (splice (splice (index.mmap ix) (index.size ix) (enc.PutUint32 rel))
            (index.size ix + 4) (enc.PutUint64 pos))
    (index.size ix + 12).

(** The two files of the segment at [base] under [dir]. *)
Definition store_path (dir : string) (base : Z) : string :=
  path_Join dir (Sprintf_d_s base ".store").
Definition index_path (dir : string) (base : Z) : string :=
  path_Join dir (Sprintf_d_s base ".index").

(** Neither file of the segment exists yet. *)
Definition fresh (dir : string) (base : Z) (w : World) : Prop :=
  files w !! store_path dir base = None
  ∧ files w !! index_path dir base = None.

(** The life of one segment directory on a machine that raises no
    failure: a segment is constructed over a directory that holds neither
    file; it is appended to and read from; it is closed and a new segment
    is constructed over the same directory, base offset and
    configuration. *)
Inductive reachable `{Codec} (dir : string) (base : Z) (c : Config)
  : segment.t → World → Prop :=
| reach_new w s w' :
    faults w = [] → fresh dir base w →
    segment.newSegment dir base c w = (Ok s, w') →
    reachable dir base c s w'
| reach_Append s w r o r' s' w' :
    reachable dir base c s w →
    segment.Append (r, (s, w)) = (o, (r', (s', w'))) →
    reachable dir base c s' w'
| reach_Read s w off o s' w' :
    reachable dir base c s w →
    segment.Read off (s, w) = (o, (s', w')) →
    reachable dir base c s' w'
| reach_reopen s w s1 w1 s2 w2 :
    reachable dir base c s w →
    segment.Close (s, w) = (Ok (), (s1, w1)) →
    segment.newSegment dir base c w1 = (Ok s2, w2) →
    reachable dir base c s2 w2.

(** The segment and the machine agree: both files exist and are open, the
    store's counter is the length of its file, the mapped region has the
    configured length and covers the index file, and the index holds one
    entry per offset of [[baseOffset, nextOffset)]. *)
Record attached (dir : string) (base : Z) (c : Config)
    (s : segment.t) (w : World) : Prop := mk_attached {
  att_quiet : faults w = [];
  att_base : segment.baseOffset s = base;
  att_config : segment.config s = c;
  att_store_name :
    file_name (store.file (segment.store s)) = store_path dir base;
  att_index_name :
    file_name (index.file (segment.index s)) = index_path dir base;
  att_store_open : fd (store.file (segment.store s)) ∈ handles w;
  att_index_open : fd (index.file (segment.index s)) ∈ handles w;
  att_fds :
    fd (store.file (segment.store s)) ≠ fd (index.file (segment.index s));
  att_store_file :
    ∃ b, files w !! store_path dir base = Some b
         ∧ store.size (segment.store s) = len b ∧ len b < 2 ^ 63;
  att_index_file :
    ∃ b, files w !! index_path dir base = Some b
         ∧ len b = len (index.mmap (segment.index s));
  att_cap :
    len (index.mmap (segment.index s)) = int64 (MaxIndexBytes (Segment c))
    ∧ 0 < len (index.mmap (segment.index s));
  att_entries :
    ∃ n, 0 <= n
         ∧ index.size (segment.index s) = 12 * n
         ∧ 12 * n <= len (index.mmap (segment.index s))
         ∧ segment.nextOffset s = uint64 (base + n)
}.

(** The last entry of the index carries its own number as its relative
    offset. *)
Definition last_entry_numbered (s : segment.t) : Prop :=
  ∀ n, index.size (segment.index s) = 12 * n → 0 < n →
       ∃ pos, entry_at (index.mmap (segment.index s)) (n - 1)
              = Ok (n - 1, pos).

(** ** Drivers for the index *)


(** An index with no entry over a mapped region of 24 zero bytes. *)
Definition demo_index : index.t :=
  index.mk (mkFile 1 "/log/7.index") (replicate 24 x00) 0.




(** A machine that holds the file of [demo_index], open under its
    descriptor, with the failure schedule [fs]; and [demo_index] after one
    write. *)
Definition demo_index_world (fs : list (option error)) : World :=
  mkWorld {[ "/log/7.index" := replicate 24 x00 ]} {[ 1%nat ]} 2 fs.

Definition demo_index_written : index.t :=
  snd (index.Write 0 5 demo_index).

(** The machine [w] with the failure schedule [fs]. *)
Definition with_faults (fs : list (option error)) (w : World) : World :=
  mkWorld (files w) (handles w) (next_fd w) fs.

(** A configuration whose index length is not a multiple of the entry
    width, and the segment at 7 under it after two appends. *)
Definition odd_config : Config := mkConfig (mkSegmentConfig 1024 30).

Definition odd_start : segment.t * World :=
  match segment.newSegment "/log" 7 odd_config empty_world with
  | (Ok s, w) => (s, w)
  | (_, w) => demo_segment 7
  end.

Definition odd_segment : segment.t * World :=
  snd (@run_appends fixed_codec (take 2 demo_records) odd_start).

(** * Properties *)

(** ** Machine integers and bytes *)

Lemma uint64_range z : 0 <= uint64 z < 2 ^ 64.
Proof. unfold uint64. apply Z.mod_pos_bound. lia. Qed.

Lemma uint32_range z : 0 <= uint32 z < 2 ^ 32.
Proof. unfold uint32. apply Z.mod_pos_bound. lia. Qed.

Lemma uint64_id z : 0 <= z < 2 ^ 64 → uint64 z = z.
Proof. intros. unfold uint64. apply Z.mod_small. lia. Qed.

Lemma uint32_id z : 0 <= z < 2 ^ 32 → uint32 z = z.
Proof. intros. unfold uint32. apply Z.mod_small. lia. Qed.

Lemma int64_id z : 0 <= z < 2 ^ 63 → int64 z = z.
Proof.
  intros. unfold int64. rewrite Z.mod_small by lia.
  destruct (Z.ltb_spec z (2 ^ 63)); lia.
Qed.

Lemma Z_of_byte_range b : 0 <= Z_of_byte b < 256.
Proof.
  unfold Z_of_byte. pose proof (Byte.to_N_bounded b). lia.
Qed.

Lemma Z_of_byte_of_Z v : Z_of_byte (byte_of_Z v) = v mod 256.
Proof.
  unfold Z_of_byte, byte_of_Z.
  assert (Hr : 0 <= v mod 256 < 256) by (apply Z.mod_pos_bound; lia).
  destruct (Byte.of_N (Z.to_N (v mod 256))) as [b|] eqn:E.
  - simpl. apply Byte.to_of_N in E. rewrite E. lia.
  - apply Byte.of_N_None_iff in E. lia.
Qed.

Lemma testbit_byte v n :
  0 <= n →
  Z.testbit (Z_of_byte (byte_of_Z v)) n = (n <? 8) && Z.testbit v n.
Proof.
  intros. rewrite Z_of_byte_of_Z.
  change 256 with (2 ^ 8). apply Z.testbit_mod_pow2. lia.
Qed.

(** The bit [n] of a byte placed at bit position [k]. *)
Lemma testbit_byte_shl v k n :
  0 <= n → 0 <= k →
  Z.testbit (Z_of_byte (byte_of_Z (v ≫ k)) ≪ k) n
  = (k <=? n) && (n <? k + 8) && Z.testbit v n.
Proof.
  intros Hn Hk. rewrite Z.shiftl_spec by lia.
  destruct (Z.leb_spec k n).
  - rewrite testbit_byte by lia. rewrite Z.shiftr_spec by lia.
    replace (n - k + k) with n by lia.
    destruct (Z.ltb_spec (n - k) 8), (Z.ltb_spec n (k + 8)); simpl; auto; lia.
  - rewrite Z.testbit_neg_r by lia. reflexivity.
Qed.

(** Case analysis on the next comparison of the goal; branches whose
    hypotheses contradict each other are closed at once. *)
Ltac split_cmp :=
  match goal with
  | |- context [?a <=? ?b] => destruct (Z.leb_spec a b)
  | |- context [?a <? ?b] => destruct (Z.ltb_spec a b)
  end; try lia; simpl.

Lemma Uint32_PutUint32 v : enc.Uint32 (enc.PutUint32 v) = uint32 v.
Proof.
  unfold enc.Uint32, enc.PutUint32, uint32.
  apply Z.bits_inj'. intros n Hn.
  rewrite !Z.lor_spec, !testbit_byte_shl by lia.
  rewrite testbit_byte by lia.
  rewrite Z.testbit_mod_pow2 by lia.
  repeat split_cmp; destruct (Z.testbit v n); reflexivity.
Qed.

Lemma Uint64_PutUint64 v : enc.Uint64 (enc.PutUint64 v) = uint64 v.
Proof.
  unfold enc.Uint64, enc.PutUint64, uint64.
  apply Z.bits_inj'. intros n Hn.
  rewrite !Z.lor_spec, !testbit_byte_shl by lia.
  rewrite testbit_byte by lia.
  rewrite Z.testbit_mod_pow2 by lia.
  repeat split_cmp; destruct (Z.testbit v n); reflexivity.
Qed.

(** ** The segment's operations, step by step *)

(** [Append] written out: the record is stamped first, then the three
    fallible steps run in order, and the counter moves last. *)
Lemma Append_unfold `{Codec} (r : api_Record) (s : segment.t) (w : World) :
  segment.Append (r, (s, w)) =
  let cur := segment.nextOffset s in
  let record := set_Offset cur r in
  match Marshal record with
  | Ok p =>
      match store.Append p (segment.store s, w) with
      | (Ok (_, pos), (st, w1)) =>
          let rel := uint32 (uint64 (segment.nextOffset s - segment.baseOffset s)) in
          match index.Write rel pos (segment.index s) with
          | (Ok _, ix) =>
              (Ok cur,
               (record,
                (segment.mk st ix (segment.baseOffset s)
                   (uint64 (segment.nextOffset s + 1)) (segment.config s), w1)))
          | (Err e, ix) =>
              (Err e,
               (record,
                (segment.mk st ix (segment.baseOffset s)
                   (segment.nextOffset s) (segment.config s), w1)))
          | (Panic, ix) =>
              (Panic,
               (record,
                (segment.mk st ix (segment.baseOffset s)
                   (segment.nextOffset s) (segment.config s), w1)))
          end
      | (Err e, (st, w1)) => (Err e, (record, (segment.set_store st s, w1)))
      | (Panic, (st, w1)) => (Panic, (record, (segment.set_store st s, w1)))
      end
  | Err e => (Err e, (record, (s, w)))
  | Panic => (Panic, (record, (s, w)))
  end.
Proof.
  unfold segment.Append, bind, on_world, on_self, get, modify, pure, ret,
    segment.in_store, segment.in_index. simpl.
  destruct (Marshal _) as [p| |]; try reflexivity.
  destruct (store.Append p _) as [[[n pos]| |] [st w1]]; try reflexivity.
  simpl.
  destruct (index.Write _ pos _) as [[[]| |] ix]; reflexivity.
Qed.

(** ** [nearestMultiple] *)

(** C9.  For all [uint64] values [j] and [k] with [k > 0],
    [nearestMultiple j k] returns [(j / k) * k], which is the largest
    multiple of [k] that is at most [j]; the test [j >= 0] holds for every
    unsigned [j], so the branch for negative dividends never runs. *)
Theorem nearestMultiple_rounds_down (j k : Z) :
  is_uint64 j → is_uint64 k → 0 < k →
  (0 <=? j) = true
  ∧ segment.nearestMultiple j k = Ok (j / k * k)
  ∧ (k | j / k * k)
  ∧ j / k * k <= j
  ∧ ∀ m, (k | m) → m <= j → m <= j / k * k.
Proof.
  intros [Hj0 Hj] [Hk0 Hk] Hpos.
  assert (Hle : j / k * k <= j) by (rewrite Z.mul_comm; apply Z.mul_div_le; lia).
  assert (Hq : 0 <= j / k) by (apply Z.div_pos; lia).
  split; [apply Z.leb_le; lia|].
  split.
  - unfold segment.nearestMultiple, segment.div.
    destruct (Z.leb_spec 0 j); [|lia].
    destruct (Z.eqb_spec k 0); [lia|]. simpl.
    rewrite uint64_id; [reflexivity|]. nia.
  - split; [exists (j / k); reflexivity|].
    split; [exact Hle|].
    intros m [c ->] Hm.
    assert (c <= j / k) by (apply Z.div_le_lower_bound; lia).
    nia.
Qed.

Lemma nearestMultiple_rounds_down_witness :
  segment.nearestMultiple 17 5 = Ok 15.
Proof.
  assert (H17 : is_uint64 17) by (unfold is_uint64; lia).
  assert (H5 : is_uint64 5) by (unfold is_uint64; lia).
  assert (Hp : 0 < 5) by lia.
  exact (proj1 (proj2 (nearestMultiple_rounds_down 17 5 H17 H5 Hp))).
Defined.

(** ** [Append]: stamping and failure *)

(** C10.  [Append] sets the [Offset] of the caller's record to the
    segment's current [nextOffset] before it serializes anything: the
    record the caller holds afterwards carries that offset whatever
    [Append] returns, serialization is given the stamped record, and when
    [Append] does not succeed the segment's [nextOffset] has not moved. *)
Theorem Append_stamps_record `{Codec} (r : api_Record) (s : segment.t)
    (w : World) :
  let res := segment.Append (r, (s, w)) in
  let stamped := mkRecord (Value r) (segment.nextOffset s) in
  fst (snd res) = stamped
  ∧ (∀ e, Marshal stamped = Err e → fst res = Err e)
  ∧ (is_Ok (fst res) = false →
     segment.nextOffset (fst (snd (snd res))) = segment.nextOffset s).
Proof.
  cbv zeta. rewrite Append_unfold. cbv zeta.
  change (set_Offset (segment.nextOffset s) r)
    with (mkRecord (Value r) (segment.nextOffset s)).
  destruct (Marshal _) as [p|e|] eqn:EM.
  - destruct (store.Append p _) as [[[n pos]|e|] [st w1]].
    + destruct (index.Write _ pos _) as [[[]|e|] ix]; simpl;
        (split; [reflexivity|]); (split; [discriminate|]);
        intros; try reflexivity; discriminate.
    + simpl. split; [reflexivity|]. split; [discriminate|]. reflexivity.
    + simpl. split; [reflexivity|]. split; [discriminate|]. reflexivity.
  - simpl. split; [reflexivity|]. split; [congruence|]. reflexivity.
  - simpl. split; [reflexivity|]. split; [discriminate|]. reflexivity.
Qed.

(** C3.  Whichever of the three steps of [Append] fails (serialization,
    the store's append, the index's write), [Append] returns that error
    and [nextOffset] is unchanged; [nextOffset] moves, by one, only when
    both the store's append and the index's write have succeeded. *)
Theorem Append_failure_keeps_nextOffset `{Codec} (r : api_Record)
    (s : segment.t) (w : World) :
  let res := segment.Append (r, (s, w)) in
  let o := fst res in
  let s' := fst (snd (snd res)) in
  let stamped := set_Offset (segment.nextOffset s) r in
  let rel := uint32 (uint64 (segment.nextOffset s - segment.baseOffset s)) in
  (∀ e, Marshal stamped = Err e →
        o = Err e ∧ segment.nextOffset s' = segment.nextOffset s)
  ∧ (∀ p e sw1, Marshal stamped = Ok p →
        store.Append p (segment.store s, w) = (Err e, sw1) →
        o = Err e ∧ segment.nextOffset s' = segment.nextOffset s)
  ∧ (∀ p n pos sw1 e ix, Marshal stamped = Ok p →
        store.Append p (segment.store s, w) = (Ok (n, pos), sw1) →
        index.Write rel pos (segment.index s) = (Err e, ix) →
        o = Err e ∧ segment.nextOffset s' = segment.nextOffset s)
  ∧ (is_Ok o = false → segment.nextOffset s' = segment.nextOffset s)
  ∧ (∀ off, o = Ok off →
        off = segment.nextOffset s
        ∧ segment.nextOffset s' = uint64 (segment.nextOffset s + 1)
        ∧ ∃ p n pos sw1 ix,
            Marshal stamped = Ok p
            ∧ store.Append p (segment.store s, w) = (Ok (n, pos), sw1)
            ∧ index.Write rel pos (segment.index s) = (Ok (), ix)).
Proof.
  cbv zeta. rewrite Append_unfold. cbv zeta.
  destruct (Marshal _) as [p|e|] eqn:EM.
  - destruct (store.Append p _) as [[[n pos]|e|] [st w1]] eqn:ES.
    + destruct (index.Write _ pos _) as [[[]|e|] ix] eqn:EW; simpl;
        repeat split; intros; try congruence; try discriminate.
      exists p, n, pos, (st, w1), ix. auto.
    + simpl. repeat split; intros; try congruence; discriminate.
    + simpl. repeat split; intros; try congruence; discriminate.
  - simpl. repeat split; intros; try congruence; discriminate.
  - simpl. repeat split; intros; try congruence; discriminate.
Qed.

(** ** Open descriptors *)

Ltac break_match :=
  match goal with
  | H : context [match ?x with _ => _ end] |- _ => destruct x eqn:?
  | |- context [match ?x with _ => _ end] => destruct x eqn:?
  end.

Ltac io_unfold :=
  unfold bind, ret, fail, pure, get, modify, on_world, on_self in *.

Lemma keeps_bind {A B} (m : io World A) (f : A → io World B) :
  keeps_handles m → (∀ a, keeps_handles (f a)) → keeps_handles (bind m f).
Proof.
  intros Hm Hf w o w' E. unfold bind in E.
  destruct (m w) as [[a|e|] w1] eqn:E1.
  - apply Hm in E1. apply Hf in E. set_solver.
  - inversion E; subst. eauto.
  - inversion E; subst. eauto.
Qed.

Lemma keeps_ret {A} (a : A) : keeps_handles (ret a).
Proof. intros w o w' E. inversion E; subst. done. Qed.

Lemma keeps_fail {A} (e : error) : keeps_handles (@fail World A e).
Proof. intros w o w' E. inversion E; subst. done. Qed.

Lemma keeps_pure {A} (o : outcome A) : keeps_handles (pure o).
Proof. intros w o' w' E. inversion E; subst. done. Qed.

Lemma keeps_syscall : keeps_handles os.syscall.
Proof.
  intros w o w' E. unfold os.syscall in E.
  repeat break_match; inversion E; subst; done.
Qed.

Lemma keeps_opened f : keeps_handles (os.opened f).
Proof.
  intros w o w' E. unfold os.opened in E.
  repeat break_match; inversion E; subst; done.
Qed.

Lemma keeps_OpenFile name fl perm : keeps_handles (os.OpenFile name fl perm).
Proof.
  unfold os.OpenFile. apply keeps_bind; [apply keeps_syscall|].
  intros _ w o w' E.
  repeat break_match; inversion E; subst; simpl; set_solver.
Qed.

Lemma keeps_Stat name : keeps_handles (os.Stat name).
Proof.
  unfold os.Stat. apply keeps_bind; [apply keeps_syscall|].
  intros _ w o w' E. repeat break_match; inversion E; subst; done.
Qed.

Lemma keeps_Truncate name n : keeps_handles (os.Truncate name n).
Proof.
  unfold os.Truncate. apply keeps_bind; [apply keeps_syscall|].
  intros _ w o w' E. repeat break_match; inversion E; subst; done.
Qed.

Lemma keeps_Map f : keeps_handles (gommap.Map f).
Proof.
  unfold gommap.Map. apply keeps_bind; [apply keeps_opened|].
  intros b. apply keeps_bind; [apply keeps_syscall|].
  intros _. destruct (len b =? 0); [apply keeps_fail|apply keeps_ret].
Qed.

Lemma keeps_newStore f : keeps_handles (store.newStore f).
Proof.
  unfold store.newStore. apply keeps_bind; [apply keeps_Stat|].
  intros. apply keeps_ret.
Qed.

Lemma keeps_newIndex f c : keeps_handles (index.newIndex f c).
Proof.
  unfold index.newIndex. apply keeps_bind; [apply keeps_Stat|]. intros.
  apply keeps_bind; [apply keeps_Truncate|]. intros.
  apply keeps_bind; [apply keeps_Map|]. intros. apply keeps_ret.
Qed.

(** A file that [os.OpenFile] returns is open. *)
Lemma OpenFile_open name fl perm w f w' :
  os.OpenFile name fl perm w = (Ok f, w') →
  fd f ∈ handles w' ∧ file_name f = name.
Proof.
  unfold os.OpenFile, bind, os.syscall. intros E.
  repeat break_match; inversion E; subst; simpl in *;
    try discriminate;
    repeat match goal with
    | H : (_, _) = (_, _) |- _ => inversion H; subst; clear H
    end; simpl; split; try reflexivity; set_solver.
Qed.

Ltac keeps_step :=
  first
    [ apply keeps_ret | apply keeps_fail | apply keeps_pure
    | apply keeps_OpenFile | apply keeps_newStore | apply keeps_newIndex
    | apply keeps_bind; [|intros ?] ].

Lemma keeps_newSegment_tail st ix base c :
  keeps_handles
    (match index.Read ix (-1) with
     | Ok (off, _) =>
         ret (segment.mk st ix base (uint64 (uint64 (base + off) + 1)) c)
     | Err _ => ret (segment.mk st ix base base c)
     | Panic => pure Panic
     end).
Proof. destruct (index.Read ix (-1)) as [[off pos]| |]; keeps_step. Qed.

Lemma keeps_newSegment dir base c :
  keeps_handles (segment.newSegment dir base c).
Proof.
  unfold segment.newSegment.
  repeat keeps_step; apply keeps_newSegment_tail.
Qed.

(** ** Construction failures *)

(** C8, as the code has it.  [newSegment] closes nothing on any path.
    When it fails it returns no segment, and every descriptor that was
    open before the call or was opened by it is still open afterwards: the
    store's file, once opened, stays open when a later step (the store's
    stat, the opening of the index file, or the index's stat, truncate or
    mmap) fails, and so does the index's file. *)
Theorem newSegment_failure_leaves_files_open (dir : string) (base : Z)
    (c : Config) (w : World) (e : error) (w' : World) :
  segment.newSegment dir base c w = (Err e, w') →
  handles w ⊆ handles w'
  ∧ (∀ f w1,
       os.OpenFile (path_Join dir (Sprintf_d_s base ".store"))
         [O_RDWR; O_CREATE; O_APPEND] 420 w = (Ok f, w1) →
       fd f ∈ handles w')
  ∧ (∀ f w1 st w2 g w3,
       os.OpenFile (path_Join dir (Sprintf_d_s base ".store"))
         [O_RDWR; O_CREATE; O_APPEND] 420 w = (Ok f, w1) →
       store.newStore f w1 = (Ok st, w2) →
       os.OpenFile (path_Join dir (Sprintf_d_s base ".index"))
         [O_RDWR; O_CREATE] 420 w2 = (Ok g, w3) →
       fd g ∈ handles w').
Proof.
  intros E. split; [eapply keeps_newSegment; eauto|].
  unfold segment.newSegment in E. split.
  - intros f w1 HO. unfold bind at 1 in E. rewrite HO in E.
    match type of E with
    | ?m w1 = _ => assert (Hk : keeps_handles m)
    end.
    { repeat keeps_step; apply keeps_newSegment_tail. }
    apply Hk in E. apply OpenFile_open in HO as [HO _]. set_solver.
  - intros f w1 st w2 g w3 HO HS HO2.
    unfold bind at 1 in E. rewrite HO in E.
    unfold bind at 1 in E. rewrite HS in E.
    unfold bind at 1 in E. rewrite HO2 in E.
    match type of E with
    | ?m w3 = _ => assert (Hk : keeps_handles m)
    end.
    { repeat keeps_step; apply keeps_newSegment_tail. }
    apply Hk in E. apply OpenFile_open in HO2 as [HO2 _]. set_solver.
Qed.

(** The fifth system call of the construction is the truncation of the
    index file.  When it fails, both files are left open. *)
Lemma newSegment_leaks_counterexample :
  ∃ w',
    segment.newSegment "/log" 0 demo_config (world_failing_at 4 (EIO 5))
    = (Err (EIO 5), w')
    ∧ 0%nat ∈ handles w' ∧ 1%nat ∈ handles w'.
Proof.
  eexists. split; [vm_compute; reflexivity|].
  split; vm_compute; reflexivity.
Qed.

Lemma newSegment_failure_leaves_files_open_witness :
  let w' := snd (segment.newSegment "/log" 0 demo_config
                   (world_failing_at 4 (EIO 5))) in
  handles (world_failing_at 4 (EIO 5)) ⊆ handles w' ∧ 0%nat ∈ handles w'.
Proof.
  intros w'.
  assert (E : segment.newSegment "/log" 0 demo_config
                (world_failing_at 4 (EIO 5)) = (Err (EIO 5), w'))
    by (vm_compute; reflexivity).
  destruct (newSegment_failure_leaves_files_open "/log" 0 demo_config
              (world_failing_at 4 (EIO 5)) (EIO 5) w' E) as (Hsub & Hst & _).
  split; [exact Hsub|].
  apply (Hst (mkFile 0 "/log/0.store")
             (mkWorld {["/log/0.store" := []]} {[0%nat]} 1
                (replicate 3 None ++ [Some (EIO 5)]))).
  vm_compute. reflexivity.
Defined.

(** ** [Close] *)

(** C7, as the code has it.  [Close] closes the index first.  When the
    index's close fails, [Close] returns that error at once and the store
    is not closed: the world is the one the index's close left.  Only when
    the index's close succeeds is the store closed, and its error, or
    none, is what [Close] returns. *)
Theorem Close_index_then_store (s : segment.t) (w : World) :
  (∀ e w1, index.Close (segment.index s) w = (Err e, w1) →
           segment.Close (s, w) = (Err e, (s, w1)))
  ∧ (∀ w1, index.Close (segment.index s) w = (Ok (), w1) →
           segment.Close (s, w) =
           let '(o, (st, w2)) := store.Close (segment.store s, w1) in
           (o, (segment.set_store st s, w2)))
  ∧ (∀ sw', segment.Close (s, w) = (Ok (), sw') →
            ∃ w1, index.Close (segment.index s) w = (Ok (), w1)
                  ∧ fst (store.Close (segment.store s, w1)) = Ok ()).
Proof.
  unfold segment.Close, bind, on_self, on_world, get, segment.in_store.
  simpl.
  destruct (index.Close (segment.index s) w) as [[[]|e|] w1] eqn:EI.
  - split; [intros; discriminate|].
    split.
    + intros w1' E. inversion E; subst. reflexivity.
    + intros sw' E. exists w1. split; [reflexivity|]. simpl in E.
      destruct (store.Close (segment.store s, w1)) as [o [st w2]] eqn:EC.
      simpl in *. inversion E; subst. reflexivity.
  - split; [intros e' w1' E; inversion E; subst; reflexivity|].
    split; intros; discriminate.
  - split; [intros; discriminate|]. split; intros; discriminate.
Qed.

(** The seventh system call after a construction on an empty machine is
    the synchronisation of the mapped index.  When it fails, [Close]
    returns its error and the store's file is still open, although a call
    of the store's [Close] would have released it. *)
Lemma Close_skips_store_counterexample :
  ∃ s w w',
    segment.newSegment "/log" 0 demo_config (world_failing_at 6 (EIO 5))
    = (Ok s, w)
    ∧ segment.Close (s, w) = (Err (EIO 5), (s, w'))
    ∧ fd (store.file (segment.store s)) ∈ handles w'
    ∧ fd (store.file (segment.store s))
      ∉ handles (snd (snd (store.Close (segment.store s, w')))).
Proof.
  eexists _, _, _. split; [vm_compute; reflexivity|].
  split; [vm_compute; reflexivity|].
  split.
  - vm_compute. reflexivity.
  - vm_compute. discriminate.
Qed.

(** ** System calls on a machine that raises no failure *)

Lemma syscall_quiet w : faults w = [] → os.syscall w = (Ok (), w).
Proof. intros Hq. unfold os.syscall. rewrite Hq. reflexivity. Qed.

Lemma opened_ok f w b :
  fd f ∈ handles w → files w !! file_name f = Some b →
  os.opened f w = (Ok b, w).
Proof.
  intros Hh Hf. unfold os.opened. rewrite decide_True by done.
  rewrite Hf. reflexivity.
Qed.

Lemma OpenFile_quiet name fl perm w :
  faults w = [] →
  os.OpenFile name fl perm w =
  match files w !! name with
  | Some _ =>
      (Ok (mkFile (next_fd w) name),
       mkWorld (files w) ({[next_fd w]} ∪ handles w) (S (next_fd w)) [])
  | None =>
      if os.has_flag O_CREATE fl
      then (Ok (mkFile (next_fd w) name),
            mkWorld (<[name := []]> (files w)) ({[next_fd w]} ∪ handles w)
                    (S (next_fd w)) [])
      else (Err ENOENT, w)
  end.
Proof.
  intros Hq. unfold os.OpenFile, bind. rewrite syscall_quiet by done.
  rewrite Hq. reflexivity.
Qed.

Lemma Stat_quiet name w b :
  faults w = [] → files w !! name = Some b →
  os.Stat name w = (Ok (len b), w).
Proof.
  intros Hq Hf. unfold os.Stat, bind. rewrite syscall_quiet by done.
  rewrite Hf. reflexivity.
Qed.

Lemma Truncate_quiet name n w b :
  faults w = [] → files w !! name = Some b → 0 <= n →
  os.Truncate name n w
  = (Ok (), set_files (<[name := resize n b]> (files w)) w).
Proof.
  intros Hq Hf Hn. unfold os.Truncate, bind. rewrite syscall_quiet by done.
  destruct (Z.ltb_spec n 0); [lia|]. rewrite Hf. reflexivity.
Qed.

Lemma File_Sync_quiet f w b :
  faults w = [] → fd f ∈ handles w → files w !! file_name f = Some b →
  os.File_Sync f w = (Ok (), w).
Proof.
  intros Hq Hh Hf. unfold os.File_Sync, bind.
  rewrite (opened_ok f w b) by done. apply syscall_quiet. done.
Qed.

Lemma File_Truncate_quiet f n w b :
  faults w = [] → fd f ∈ handles w → files w !! file_name f = Some b →
  0 <= n →
  os.File_Truncate f n w
  = (Ok (), set_files (<[file_name f := resize n b]> (files w)) w).
Proof.
  intros Hq Hh Hf Hn. unfold os.File_Truncate, bind.
  rewrite (opened_ok f w b) by done. rewrite syscall_quiet by done.
  destruct (Z.ltb_spec n 0); [lia|]. reflexivity.
Qed.

Lemma File_Close_quiet f w b :
  faults w = [] → fd f ∈ handles w → files w !! file_name f = Some b →
  os.File_Close f w
  = (Ok (), mkWorld (files w) (handles w ∖ {[fd f]}) (next_fd w) []).
Proof.
  intros Hq Hh Hf. unfold os.File_Close, bind.
  rewrite (opened_ok f w b) by done.
  rewrite syscall_quiet by done. rewrite Hq. reflexivity.
Qed.

Lemma File_Write_quiet f p w b :
  faults w = [] → fd f ∈ handles w → files w !! file_name f = Some b →
  os.File_Write f p w =
  if 2 ^ 63 <=? len b + len p then (Err EFBIG, w)
  else (Ok (), set_files (<[file_name f := b ++ p]> (files w)) w).
Proof.
  intros Hq Hh Hf. unfold os.File_Write, bind.
  rewrite (opened_ok f w b) by done. rewrite syscall_quiet by done.
  destruct (2 ^ 63 <=? len b + len p); reflexivity.
Qed.

Lemma File_ReadAt_quiet f n off w b :
  faults w = [] → fd f ∈ handles w → files w !! file_name f = Some b →
  os.File_ReadAt f n off w =
  if (0 <=? off) && (0 <=? n) && (off + n <=? len b)
  then (Ok (take (Z.to_nat n) (drop (Z.to_nat off) b)), w)
  else (Err EOF, w).
Proof.
  intros Hq Hh Hf. unfold os.File_ReadAt, bind.
  rewrite (opened_ok f w b) by done. rewrite syscall_quiet by done.
  destruct ((0 <=? off) && (0 <=? n) && (off + n <=? len b)); reflexivity.
Qed.

Lemma Map_quiet f w b :
  faults w = [] → fd f ∈ handles w → files w !! file_name f = Some b →
  len b ≠ 0 →
  gommap.Map f w = (Ok b, w).
Proof.
  intros Hq Hh Hf Hn. unfold gommap.Map, bind.
  rewrite (opened_ok f w b) by done. rewrite syscall_quiet by done.
  destruct (Z.eqb_spec (len b) 0); [lia|]. reflexivity.
Qed.

Lemma Sync_quiet f m w b :
  faults w = [] → fd f ∈ handles w → files w !! file_name f = Some b →
  gommap.Sync f m w
  = (Ok (), set_files (<[file_name f := m ++ drop (length m) b]> (files w)) w).
Proof.
  intros Hq Hh Hf. unfold gommap.Sync, bind.
  rewrite (opened_ok f w b) by done. rewrite syscall_quiet by done.
  reflexivity.
Qed.

(** ** Slices *)

Lemma len_nonneg {A} (b : list A) : 0 <= len b.
Proof. unfold len. lia. Qed.

Lemma len_app {A} (a b : list A) : len (a ++ b) = len a + len b.
Proof. unfold len. rewrite length_app. lia. Qed.

Lemma len_PutUint32 v : len (enc.PutUint32 v) = 4.
Proof. reflexivity. Qed.

Lemma len_PutUint64 v : len (enc.PutUint64 v) = 8.
Proof. reflexivity. Qed.

Lemma slice_ok (b : list byte) lo hi :
  0 <= lo → lo <= hi → hi <= len b →
  slice b lo hi = Ok (take (Z.to_nat (hi - lo)) (drop (Z.to_nat lo) b)).
Proof.
  intros H0 H1 H2. unfold slice, len in *.
  destruct (Z.leb_spec 0 lo); [|lia].
  destruct (Z.leb_spec lo hi); [|lia].
  destruct (Z.leb_spec hi (Z.of_nat (length b))); [|lia].
  reflexivity.
Qed.

(** Two slices that agree up to [hi] have the same window [lo:hi]. *)
Lemma slice_agree (b1 b2 : list byte) lo hi :
  take (Z.to_nat hi) b1 = take (Z.to_nat hi) b2 →
  hi <= len b1 → hi <= len b2 →
  slice b1 lo hi = slice b2 lo hi.
Proof.
  intros Ht H1 H2. unfold slice, len in *.
  destruct (Z.leb_spec 0 lo); simpl; [|reflexivity].
  destruct (Z.leb_spec lo hi); simpl; [|reflexivity].
  destruct (Z.leb_spec hi (Z.of_nat (length b1))); [|lia].
  destruct (Z.leb_spec hi (Z.of_nat (length b2))); [|lia].
  f_equal. rewrite !take_drop_commute.
  replace (Z.to_nat lo + Z.to_nat (hi - lo))%nat with (Z.to_nat hi) by lia.
  rewrite Ht. reflexivity.
Qed.

Lemma splice_len (b v : list byte) lo :
  0 <= lo → lo + len v <= len b → len (splice b lo v) = len b.
Proof.
  intros H0 H1. unfold splice, len in *.
  rewrite !length_app, length_take, length_drop. lia.
Qed.

(** The bytes below a spliced window are untouched. *)
Lemma splice_take_below (b v : list byte) lo hi :
  0 <= hi → hi <= lo → lo <= len b →
  take (Z.to_nat hi) (splice b lo v) = take (Z.to_nat hi) b.
Proof.
  intros H0 H1 H2. unfold splice, len in *.
  rewrite take_app_le by (rewrite length_take; lia).
  rewrite take_take. f_equal. lia.
Qed.

(** The spliced window holds the bytes written. *)
Lemma slice_splice (b v : list byte) lo :
  0 <= lo → lo + len v <= len b →
  slice (splice b lo v) lo (lo + len v) = Ok v.
Proof.
  intros H0 H1. pose proof (len_nonneg v).
  rewrite slice_ok by (rewrite ?splice_len; lia).
  f_equal. unfold splice, len in *.
  rewrite drop_app_length' by (rewrite length_take; lia).
  replace (Z.to_nat (lo + Z.of_nat (length v) - lo)) with (length v) by lia.
  apply take_app_length.
Qed.

(** A window that ends where a later splice starts is untouched. *)
Lemma slice_splice_below (b v : list byte) lo lo' hi' :
  0 <= hi' → hi' <= lo → lo + len v <= len b →
  slice (splice b lo v) lo' hi' = slice b lo' hi'.
Proof.
  intros H0 H1 H2. pose proof (len_nonneg v).
  apply slice_agree.
  - apply splice_take_below; lia.
  - rewrite splice_len; lia.
  - lia.
Qed.

(** ** The index, entry by entry *)


Lemma entry_number_range i in_ : 0 <= entry_number i in_ < 2 ^ 32.
Proof. unfold entry_number. destruct (in_ =? -1); apply uint32_range. Qed.

(** [Read] written out: end of data on an empty index or on an entry that
    is not wholly below [size]; the decoded entry otherwise. *)
Lemma index_Read_unfold (i : index.t) (in_ : Z) :
  index.Read i in_ =
  if index.size i =? 0 then Err EOF
  else if index.size i <? 12 * entry_number i in_ + 12 then Err EOF
       else entry_at (index.mmap i) (entry_number i in_).
Proof.
  unfold index.Read, entry_at.
  change index.entWidth with 12. change index.offWidth with 4.
  fold (entry_number i in_).
  pose proof (entry_number_range i in_) as Hr.
  set (k := entry_number i in_) in *.
  destruct (index.size i =? 0); [reflexivity|].
  rewrite (uint64_id (k * 12)) by lia.
  rewrite (uint64_id (k * 12 + 12)) by lia.
  rewrite (uint64_id (k * 12 + 4)) by lia.
  replace (k * 12) with (12 * k) by lia.
  reflexivity.
Qed.

(** Two indexes of one size whose mapped regions agree below that size
    answer every [Read] alike. *)
Lemma index_Read_agree (i1 i2 : index.t) (in_ : Z) :
  index.size i1 = index.size i2 →
  take (Z.to_nat (index.size i1)) (index.mmap i1)
  = take (Z.to_nat (index.size i1)) (index.mmap i2) →
  index.size i1 <= len (index.mmap i1) →
  index.size i1 <= len (index.mmap i2) →
  index.Read i1 in_ = index.Read i2 in_.
Proof.
  intros Hs Ht H1 H2. rewrite !index_Read_unfold.
  assert (Hk : entry_number i1 in_ = entry_number i2 in_)
    by (unfold entry_number; rewrite Hs; reflexivity).
  rewrite <- Hs, <- Hk.
  pose proof (entry_number_range i1 in_) as Hr.
  set (k := entry_number i1 in_) in *.
  destruct (index.size i1 =? 0); [reflexivity|].
  destruct (Z.ltb_spec (index.size i1) (12 * k + 12)); [reflexivity|].
  assert (Hpre : ∀ hi, 0 <= hi <= index.size i1 →
            take (Z.to_nat hi) (index.mmap i1)
            = take (Z.to_nat hi) (index.mmap i2)).
  { intros hi Hhi.
    replace (Z.to_nat hi)
      with (Z.to_nat hi `min` Z.to_nat (index.size i1))%nat by lia.
    rewrite <- !take_take. rewrite Ht. reflexivity. }
  unfold entry_at.
  rewrite (slice_agree (index.mmap i1) (index.mmap i2) (12 * k) (12 * k + 4))
    by (try apply Hpre; lia).
  rewrite (slice_agree (index.mmap i1) (index.mmap i2) (12 * k + 4)
             (12 * k + 12)) by (try apply Hpre; lia).
  reflexivity.
Qed.

(** [Write] fails with [io.EOF] exactly when twelve more bytes do not fit
    in the mapped region, and leaves the index as it was. *)
Lemma index_Write_full (off pos : Z) (i : index.t) :
  0 <= index.size i → index.size i + 12 < 2 ^ 64 →
  len (index.mmap i) < index.size i + 12 →
  index.Write off pos i = (Err EOF, i).
Proof.
  intros H0 H1 H2. unfold index.Write, bind, get, fail.
  change index.entWidth with 12. rewrite uint64_id by lia.
  destruct (Z.ltb_spec (len (index.mmap i)) (index.size i + 12)); [|lia].
  reflexivity.
Qed.

(** [Write] succeeds when twelve more bytes fit: the entry is encoded at
    [size], and [size] advances by twelve. *)
Lemma index_Write_ok (off pos : Z) (i : index.t) :
  0 <= index.size i → index.size i + 12 < 2 ^ 64 →
  index.size i + 12 <= len (index.mmap i) →
  index.Write off pos i =
  (Ok (),
   index.mk (index.file i)
     (splice (splice (index.mmap i) (index.size i) (enc.PutUint32 off))
             (index.size i + 4) (enc.PutUint64 pos))
     (index.size i + 12)).
Proof.
  intros H0 H1 H2. unfold index.Write, bind, get, fail, pure, modify.
  change index.entWidth with 12. change index.offWidth with 4.
  rewrite !(uint64_id (index.size i + 12)) by lia.
  destruct (Z.ltb_spec (len (index.mmap i)) (index.size i + 12)); [lia|].
  rewrite (uint64_id (index.size i + 4)) by lia.
  rewrite slice_ok by lia. simpl.
  rewrite !(uint64_id (index.size i + 12)) by lia.
  rewrite !(uint64_id (index.size i + 4)) by lia.
  rewrite slice_ok
    by (rewrite ?splice_len; rewrite ?len_PutUint32; lia).
  reflexivity.
Qed.

#[local] Arguments len : simpl never.
#[local] Arguments enc.Uint32 : simpl never.
#[local] Arguments enc.Uint64 : simpl never.
#[local] Arguments enc.PutUint32 : simpl never.
#[local] Arguments enc.PutUint64 : simpl never.

(** After a successful [Write], the new last entry decodes to what was
    written. *)
Lemma entry_at_written (m : list byte) (n off pos : Z) :
  0 <= n → 12 * n + 12 <= len m →
  entry_at
    (splice (splice m (12 * n) (enc.PutUint32 off)) (12 * n + 4)
            (enc.PutUint64 pos)) n
  = Ok (uint32 off, uint64 pos).
Proof.
  intros H0 H1. unfold entry_at.
  assert (Hl : len (splice m (12 * n) (enc.PutUint32 off)) = len m)
    by (apply splice_len; rewrite ?len_PutUint32; lia).
  rewrite (slice_splice_below _ _ (12 * n + 4) (12 * n) (12 * n + 4))
    by (rewrite ?Hl, ?len_PutUint64; lia).
  pose proof (slice_splice m (enc.PutUint32 off) (12 * n)) as Hs.
  rewrite len_PutUint32 in Hs. rewrite Hs by lia. simpl.
  pose proof (slice_splice (splice m (12 * n) (enc.PutUint32 off))
                (enc.PutUint64 pos) (12 * n + 4)) as Hs2.
  rewrite len_PutUint64 in Hs2.
  replace (12 * n + 4 + 8) with (12 * n + 12) in Hs2 by lia.
  rewrite Hs2 by lia. simpl.
  rewrite Uint32_PutUint32, Uint64_PutUint64. reflexivity.
Qed.

(** ** Paths *)

Lemma append_inj_l (p a b : string) : (p +:+ a = p +:+ b)%string → a = b.
Proof.
  induction p as [|ch p IH]; simpl; intros E; [exact E|].
  inversion E. auto.
Qed.

Lemma store_index_paths dir base : store_path dir base ≠ index_path dir base.
Proof.
  unfold store_path, index_path, path_Join, Sprintf_d_s. intros E.
  repeat apply append_inj_l in E. discriminate.
Qed.

Lemma bind_Ok {S A B} (m : io S A) (f : A → io S B) s a s' :
  m s = (Ok a, s') → bind m f s = f a s'.
Proof. intros E. unfold bind. rewrite E. reflexivity. Qed.

Lemma bind_Err {S A B} (m : io S A) (f : A → io S B) s e s' :
  m s = (Err e, s') → bind m f s = (Err e, s').
Proof. intros E. unfold bind. rewrite E. reflexivity. Qed.

Lemma int64_nonneg z : is_uint64 z → 0 <= int64 z → int64 z = z.
Proof.
  intros [H0 H1]. unfold int64. rewrite Z.mod_small by lia.
  destruct (Z.ltb_spec z (2 ^ 63)); lia.
Qed.

Lemma len_resize n (b : list byte) : 0 <= n → len (resize n b) = n.
Proof.
  intros Hn. unfold resize, len.
  rewrite length_app, length_take, length_replicate. lia.
Qed.


Lemma OpenFile_create_quiet name fl perm w :
  faults w = [] → os.has_flag O_CREATE fl = true →
  ∃ F,
    os.OpenFile name fl perm w
    = (Ok (mkFile (next_fd w) name),
       mkWorld F ({[next_fd w]} ∪ handles w) (S (next_fd w)) [])
    ∧ F !! name = Some (content w name)
    ∧ ∀ other, other ≠ name → F !! other = files w !! other.
Proof.
  intros Hq Hc. rewrite OpenFile_quiet by done. unfold content.
  destruct (files w !! name) as [b|] eqn:Ef.
  - exists (files w). rewrite Ef. auto.
  - rewrite Hc. exists (<[name := []]> (files w)).
    split; [reflexivity|]. split; [apply lookup_insert_eq|].
    intros other Hne. apply lookup_insert_ne. congruence.
Qed.

Lemma newIndex_quiet (f : File) (c : Config) (w : World) (b : list byte) :
  faults w = [] → fd f ∈ handles w → files w !! file_name f = Some b →
  let cap := int64 (MaxIndexBytes (Segment c)) in
  let w' := set_files (<[file_name f := resize cap b]> (files w)) w in
  index.newIndex f c w =
  if cap <? 0 then (Err EINVAL, w)
  else if cap =? 0 then (Err EINVAL, w')
  else (Ok (index.mk f (resize cap b) (uint64 (len b))), w').
Proof.
  intros Hq Hh Hf cap w'. unfold index.newIndex.
  rewrite (bind_Ok _ _ _ _ _ (Stat_quiet _ _ _ Hq Hf)).
  fold cap. unfold os.File_Name.
  destruct (Z.ltb_spec cap 0) as [Hneg|Hpos].
  - apply bind_Err. unfold os.Truncate.
    rewrite (bind_Ok _ _ _ _ _ (syscall_quiet _ Hq)).
    destruct (Z.ltb_spec cap 0); [reflexivity|lia].
  - rewrite (bind_Ok _ _ _ _ _ (Truncate_quiet _ _ _ _ Hq Hf Hpos)).
    fold w'.
    assert (Hf' : files w' !! file_name f = Some (resize cap b))
      by (apply lookup_insert_eq).
    destruct (Z.eqb_spec cap 0) as [Hz|Hnz].
    + apply bind_Err. unfold gommap.Map.
      rewrite (bind_Ok _ _ _ _ _ (opened_ok f w' _ Hh Hf')).
      rewrite (bind_Ok _ _ _ _ _ (syscall_quiet w' Hq)).
      rewrite len_resize by lia.
      destruct (Z.eqb_spec cap 0); [reflexivity|lia].
    + erewrite bind_Ok; [reflexivity|].
      apply Map_quiet; try done. rewrite len_resize by lia. lia.
Qed.

(** Construction on a machine that raises no failure.  Both files are
    opened (created when absent), the index file is resized to the
    configured length and mapped, and [nextOffset] is read off the last
    entry.  The only failures left are a configured length that is
    negative as an [int64], and a configured length of zero. *)
Lemma newSegment_quiet (dir : string) (base : Z) (c : Config) (w : World) :
  faults w = [] →
  let cap := int64 (MaxIndexBytes (Segment c)) in
  let st := store.mk (mkFile (next_fd w) (store_path dir base))
              (uint64 (len (content w (store_path dir base)))) in
  let ix := index.mk (mkFile (S (next_fd w)) (index_path dir base))
              (resize cap (content w (index_path dir base)))
              (uint64 (len (content w (index_path dir base)))) in
  ∃ w1 w2,
    segment.newSegment dir base c w =
    (if cap <? 0 then (Err EINVAL, w1)
     else if cap =? 0 then (Err EINVAL, w2)
     else
       (match index.Read ix (-1) with
        | Ok (off, _) =>
            Ok (segment.mk st ix base (uint64 (uint64 (base + off) + 1)) c)
        | Err _ => Ok (segment.mk st ix base base c)
        | Panic => Panic
        end, w2))
    ∧ faults w2 = []
    ∧ handles w2 = {[S (next_fd w)]} ∪ ({[next_fd w]} ∪ handles w)
    ∧ files w2 !! store_path dir base = Some (content w (store_path dir base))
    ∧ files w2 !! index_path dir base
      = Some (resize cap (content w (index_path dir base))).
Proof.
  intros Hq cap st ix.
  pose proof (store_index_paths dir base) as Hne.
  destruct (OpenFile_create_quiet (store_path dir base)
              [O_RDWR; O_CREATE; O_APPEND] 420 w Hq eq_refl)
    as (F1 & HO1 & HF1 & HF1').
  set (w1 := mkWorld F1 ({[next_fd w]} ∪ handles w) (S (next_fd w)) []) in *.
  destruct (OpenFile_create_quiet (index_path dir base)
              [O_RDWR; O_CREATE] 420 w1 eq_refl eq_refl)
    as (F2 & HO2 & HF2 & HF2').
  simpl in HO2, HF2, HF2'.
  set (w2 := mkWorld F2 ({[S (next_fd w)]} ∪ ({[next_fd w]} ∪ handles w))
               (S (S (next_fd w))) []) in *.
  assert (Hci : content w1 (index_path dir base)
                = content w (index_path dir base)).
  { unfold content. simpl. rewrite HF1' by congruence. reflexivity. }
  rewrite Hci in HF2.
  assert (HF2s : F2 !! store_path dir base
                 = Some (content w (store_path dir base))).
  { rewrite HF2' by congruence. exact HF1. }
  set (w3 := set_files (<[index_path dir base :=
                resize cap (content w (index_path dir base))]> F2) w2).
  exists w2, w3.
  split.
  - unfold segment.newSegment.
    fold (store_path dir base). fold (index_path dir base).
    rewrite (bind_Ok _ _ _ _ _ HO1).
    assert (HS : store.newStore (mkFile (next_fd w) (store_path dir base)) w1
                 = (Ok st, w1)).
    { unfold store.newStore. erewrite bind_Ok; [reflexivity|].
      apply Stat_quiet; [reflexivity|exact HF1]. }
    rewrite (bind_Ok _ _ _ _ _ HS).
    rewrite (bind_Ok _ _ _ _ _ HO2).
    assert (Hh : fd (mkFile (S (next_fd w)) (index_path dir base)) ∈ handles w2)
      by (simpl; set_solver).
    rewrite (bind_Ok _ _ _ _ _ HS) || idtac.
    pose proof (newIndex_quiet _ c w2 _ eq_refl Hh HF2) as HN.
    cbv zeta in HN. fold cap in HN. simpl file_name in HN. fold w3 in HN.
    destruct (Z.ltb_spec cap 0).
    { apply bind_Err. exact HN. }
    destruct (Z.eqb_spec cap 0).
    { apply bind_Err. exact HN. }
    rewrite (bind_Ok _ _ _ _ _ HN). fold ix.
    destruct (index.Read ix (-1)) as [[off pos]|e|]; reflexivity.
  - split; [reflexivity|]. split; [reflexivity|].
    split.
    + simpl. rewrite lookup_insert_ne by congruence. exact HF2s.
    + simpl. apply lookup_insert_eq.
Qed.

(** ** The store on a machine that raises no failure *)

Lemma store_Append_quiet (p : list byte) (st : store.t) (w : World)
    (b : list byte) :
  faults w = [] → fd (store.file st) ∈ handles w →
  files w !! file_name (store.file st) = Some b →
  store.size st = len b →
  store.Append p (st, w) =
  if 2 ^ 63 <=? len b + (8 + len p) then (Err EFBIG, (st, w))
  else
    (Ok (len p + 8, len b),
     (store.mk (store.file st) (len b + 8 + len p),
      set_files (<[file_name (store.file st) :=
                     b ++ enc.PutUint64 (len p) ++ p]> (files w)) w)).
Proof.
  intros Hq Hh Hf Hs. pose proof (len_nonneg b). pose proof (len_nonneg p).
  unfold store.Append, bind, on_self, on_world, get, modify, ret.
  cbn [fst snd].
  rewrite (File_Write_quiet _ _ _ _ Hq Hh Hf).
  rewrite len_app, len_PutUint64.
  destruct (Z.leb_spec (2 ^ 63) (len b + (8 + len p))); [reflexivity|].
  cbn [fst snd store.file store.size]. unfold store.lenWidth. rewrite Hs.
  rewrite (uint64_id (len p + 8)) by lia.
  rewrite uint64_id by lia.
  replace (len b + (len p + 8)) with (len b + 8 + len p) by lia.
  reflexivity.
Qed.

Lemma store_Read_quiet (pos : Z) (st : store.t) (w : World) (b : list byte) :
  faults w = [] → fd (store.file st) ∈ handles w →
  files w !! file_name (store.file st) = Some b →
  store.Read pos (st, w) = (read_frame b pos, (st, w)).
Proof.
  intros Hq Hh Hf.
  unfold store.Read, bind, on_self, on_world, get, read_frame. simpl.
  rewrite (File_ReadAt_quiet _ _ _ _ _ Hq Hh Hf).
  unfold store.lenWidth.
  destruct ((0 <=? pos) && (0 <=? 8) && (pos + 8 <=? len b));
    [|reflexivity].
  rewrite (File_ReadAt_quiet _ _ _ _ _ Hq Hh Hf).
  destruct ((0 <=? uint64 (pos + 8)) && _ && _); reflexivity.
Qed.

(** A frame that was appended at the end of [b] is read back whole. *)
Lemma read_frame_appended (b p : list byte) :
  len b + (8 + len p) < 2 ^ 63 →
  read_frame (b ++ enc.PutUint64 (len p) ++ p) (len b) = Ok p.
Proof.
  intros Hlen. pose proof (len_nonneg b). pose proof (len_nonneg p).
  unfold read_frame. cbv zeta. rewrite !len_app, len_PutUint64.
  destruct (Z.leb_spec 0 (len b)); [|lia].
  destruct (Z.leb_spec (len b + 8) (len b + (8 + len p))); [|lia].
  cbn [andb].
  assert (Hd : drop (Z.to_nat (len b)) (b ++ enc.PutUint64 (len p) ++ p)
               = enc.PutUint64 (len p) ++ p).
  { unfold len. rewrite Nat2Z.id. apply drop_app_length. }
  rewrite Hd.
  assert (Ht : take (Z.to_nat 8) (enc.PutUint64 (len p) ++ p)
               = enc.PutUint64 (len p)) by reflexivity.
  rewrite Ht, Uint64_PutUint64.
  rewrite (uint64_id (len p)) by lia.
  rewrite (uint64_id (len b + 8)) by lia.
  destruct (Z.leb_spec 0 (len b + 8)); [|lia].
  destruct (Z.leb_spec 0 (len p)); [|lia].
  destruct (Z.leb_spec (len b + 8 + len p) (len b + (8 + len p))); [|lia].
  cbn [andb]. f_equal.
  replace (Z.to_nat (len b + 8)) with (length b + 8)%nat by (unfold len; lia).
  rewrite drop_app_add.
  change (drop 8 (enc.PutUint64 (len p) ++ p)) with p.
  unfold len. rewrite Nat2Z.id. apply firstn_all.
Qed.

(** ** The segment on a machine that raises no failure *)

Lemma segment_Read_quiet `{Codec} (off : Z) (s : segment.t) (w : World)
    (b : list byte) :
  faults w = [] → fd (store.file (segment.store s)) ∈ handles w →
  files w !! file_name (store.file (segment.store s)) = Some b →
  segment.Read off (s, w)
  = (read_result (segment.index s) (segment.baseOffset s) b off, (s, w)).
Proof.
  intros Hq Hh Hf.
  unfold segment.Read, read_result, bind, on_self, get, pure,
    segment.in_store, ret.
  simpl.
  destruct (index.Read _ _) as [[o pos]|e|]; try reflexivity.
  simpl. rewrite (store_Read_quiet _ _ _ _ Hq Hh Hf).
  destruct s as [st ix bs nx cf]. destruct st. simpl.
  destruct (read_frame b pos); reflexivity.
Qed.

(** ** Construction over the files a segment left *)

Lemma take_agree_le {A} (l1 l2 : list A) (h hi : nat) :
  take h l1 = take h l2 → (hi <= h)%nat → take hi l1 = take hi l2.
Proof.
  intros E Hle. replace hi with (hi `min` h)%nat by lia.
  rewrite <- !take_take. rewrite E. reflexivity.
Qed.

Lemma entry_at_agree (m1 m2 : list byte) (k h : Z) :
  0 <= k → 12 * k + 12 <= h →
  take (Z.to_nat h) m1 = take (Z.to_nat h) m2 →
  h <= len m1 → h <= len m2 →
  entry_at m1 k = entry_at m2 k.
Proof.
  intros Hk Hh Ht H1 H2. unfold entry_at.
  rewrite (slice_agree m1 m2 (12 * k) (12 * k + 4))
    by (try (eapply take_agree_le; [exact Ht|]); lia).
  rewrite (slice_agree m1 m2 (12 * k + 4) (12 * k + 12))
    by (try (eapply take_agree_le; [exact Ht|]); lia).
  reflexivity.
Qed.

Lemma resize_prefix (b : list byte) (n : Z) :
  len b <= n → take (Z.to_nat (len b)) (resize n b) = b.
Proof.
  intros Hn. unfold resize, len in *.
  rewrite (take_ge b) by lia.
  rewrite Nat2Z.id. apply take_app_length.
Qed.

(** [Read(-1)] on an index of [n] entries whose last entry is numbered. *)
Lemma index_Read_last (ix : index.t) (n pos : Z) :
  0 < n → n <= 2 ^ 32 →
  index.size ix = 12 * n → 12 * n <= len (index.mmap ix) →
  entry_at (index.mmap ix) (n - 1) = Ok (n - 1, pos) →
  index.Read ix (-1) = Ok (n - 1, pos).
Proof.
  intros Hn Hn' Hs Hl He. rewrite index_Read_unfold.
  assert (Hk : entry_number ix (-1) = n - 1).
  { unfold entry_number. simpl. rewrite Hs.
    replace (12 * n) with (n * 12) by lia. rewrite Z.div_mul by lia.
    rewrite uint64_id by lia. apply uint32_id. lia. }
  rewrite Hk, Hs.
  destruct (Z.eqb_spec (12 * n) 0); [lia|].
  destruct (Z.ltb_spec (12 * n) (12 * (n - 1) + 12)); [lia|].
  exact He.
Qed.

Lemma index_Read_empty (ix : index.t) (in_ : Z) :
  index.size ix = 0 → index.Read ix in_ = Err EOF.
Proof. intros Hs. unfold index.Read. rewrite Hs. reflexivity. Qed.

Lemma uint64_succ (a : Z) : uint64 (uint64 a + 1) = uint64 (a + 1).
Proof. unfold uint64. apply Zplus_mod_idemp_l. Qed.

Lemma newSegment_succeeds (dir : string) (base : Z) (c : Config)
    (w : World) (s : segment.t) (w' : World) :
  faults w = [] →
  segment.newSegment dir base c w = (Ok s, w') →
  0 < int64 (MaxIndexBytes (Segment c)).
Proof.
  intros Hq Hnew.
  destruct (newSegment_quiet dir base c w Hq) as (w1 & w2 & E & _).
  cbv zeta in E. rewrite E in Hnew.
  destruct (Z.ltb_spec (int64 (MaxIndexBytes (Segment c))) 0);
    [discriminate|].
  destruct (Z.eqb_spec (int64 (MaxIndexBytes (Segment c))) 0);
    [discriminate|].
  lia.
Qed.

(** Construction over a store file of fewer than [2^63] bytes and an index
    file of [n] entries whose last entry is numbered: it succeeds, the
    segment and the machine agree, and [nextOffset] is [base + n]. *)
Lemma newSegment_attached (dir : string) (base : Z) (c : Config)
    (w : World) (n : Z) :
  is_uint64 base → faults w = [] →
  len (content w (store_path dir base)) < 2 ^ 63 →
  0 <= n → n <= 2 ^ 32 →
  len (content w (index_path dir base)) = 12 * n →
  12 * n <= int64 (MaxIndexBytes (Segment c)) →
  0 < int64 (MaxIndexBytes (Segment c)) →
  (0 < n → ∃ pos, entry_at (content w (index_path dir base)) (n - 1)
                  = Ok (n - 1, pos)) →
  ∃ s w',
    segment.newSegment dir base c w = (Ok s, w')
    ∧ attached dir base c s w'
    ∧ index.size (segment.index s) = 12 * n
    ∧ segment.nextOffset s = uint64 (base + n)
    ∧ index.mmap (segment.index s)
      = resize (int64 (MaxIndexBytes (Segment c)))
          (content w (index_path dir base))
    ∧ files w' !! store_path dir base
      = Some (content w (store_path dir base)).
Proof.
  intros Hb Hq Hsb Hn Hn32 Hib Hcap Hcap0 Hlast.
  destruct (newSegment_quiet dir base c w Hq)
    as (w1 & w2 & E & Hq2 & Hh2 & Hfs & Hfi).
  cbv zeta in E. rewrite E. clear E.
  set (cap := int64 (MaxIndexBytes (Segment c))) in *.
  set (sb := content w (store_path dir base)) in *.
  set (ib := content w (index_path dir base)) in *.
  pose proof (len_nonneg sb). pose proof (len_nonneg ib).
  destruct (Z.ltb_spec cap 0); [lia|].
  destruct (Z.eqb_spec cap 0); [lia|].
  set (ix := index.mk (mkFile (S (next_fd w)) (index_path dir base))
               (resize cap ib) (uint64 (len ib))) in *.
  assert (Hsz : index.size ix = 12 * n)
    by (simpl; rewrite Hib; apply uint64_id; lia).
  assert (Hml : len (index.mmap ix) = cap) by (apply len_resize; lia).
  assert (HR : index.Read ix (-1) = Err EOF ∧ n = 0
               ∨ ∃ pos, index.Read ix (-1) = Ok (n - 1, pos) ∧ 0 < n).
  { destruct (Z.eq_dec n 0) as [->|Hnz].
    - left. split; [|reflexivity]. apply index_Read_empty. exact Hsz.
    - right. destruct Hlast as [pos Hpos]; [lia|]. exists pos.
      split; [|lia]. apply index_Read_last; try lia.
      rewrite <- Hpos. apply (entry_at_agree _ _ _ (12 * n)); try lia.
      simpl. rewrite <- Hib. rewrite resize_prefix by lia.
      symmetry. apply take_ge. unfold len. lia. }
  assert (Hnext : ∃ nx,
    match index.Read ix (-1) with
    | Ok (off, _) =>
        Ok (segment.mk
              (store.mk (mkFile (next_fd w) (store_path dir base))
                 (uint64 (len sb)))
              ix base (uint64 (uint64 (base + off) + 1)) c)
    | Err _ =>
        Ok (segment.mk
              (store.mk (mkFile (next_fd w) (store_path dir base))
                 (uint64 (len sb))) ix base base c)
    | Panic => Panic
    end
    = Ok (segment.mk
            (store.mk (mkFile (next_fd w) (store_path dir base))
               (uint64 (len sb))) ix base nx c)
    ∧ nx = uint64 (base + n)).
  { destruct HR as [[HR ->]|(pos & HR & Hpos)]; rewrite HR;
      eexists; (split; [reflexivity|]).
    - rewrite Z.add_0_r. symmetry. apply uint64_id. exact Hb.
    - rewrite uint64_succ. f_equal. lia. }
  destruct Hnext as (nx & -> & ->).
  eexists _, _. split; [reflexivity|].
  split; [|simpl; auto].
  pose proof (store_index_paths dir base).
  constructor; simpl.
  - exact Hq2.
  - reflexivity.
  - reflexivity.
  - reflexivity.
  - reflexivity.
  - rewrite Hh2. apply elem_of_union_r, elem_of_union_l, elem_of_singleton.
    reflexivity.
  - rewrite Hh2. apply elem_of_union_l, elem_of_singleton. reflexivity.
  - lia.
  - exists sb. split; [exact Hfs|]. split; [apply uint64_id; lia|lia].
  - exists (resize cap ib). split; [exact Hfi|reflexivity].
  - fold cap. rewrite len_resize by lia. lia.
  - exists n. rewrite len_resize by lia. rewrite Hib.
    split; [lia|]. split; [apply uint64_id; lia|]. split; [lia|reflexivity].
Qed.

(** ** [Append] on a machine that raises no failure *)

Lemma Append_quiet `{Codec} (r : api_Record) (s : segment.t) (w : World)
    (b : list byte) :
  faults w = [] →
  fd (store.file (segment.store s)) ∈ handles w →
  files w !! file_name (store.file (segment.store s)) = Some b →
  store.size (segment.store s) = len b →
  0 <= index.size (segment.index s) →
  index.size (segment.index s) + 12 < 2 ^ 64 →
  segment.Append (r, (s, w)) =
  let stamped := set_Offset (segment.nextOffset s) r in
  match Marshal stamped with
  | Ok p =>
      if 2 ^ 63 <=? len b + (8 + len p) then (Err EFBIG, (stamped, (s, w)))
      else
        let st := store.mk (store.file (segment.store s))
                    (len b + 8 + len p) in
        let w1 := set_files
                    (<[file_name (store.file (segment.store s)) :=
                         b ++ enc.PutUint64 (len p) ++ p]> (files w)) w in
        if len (index.mmap (segment.index s))
           <? index.size (segment.index s) + 12
        then
          (Err EOF,
           (stamped,
            (segment.mk st (segment.index s) (segment.baseOffset s)
               (segment.nextOffset s) (segment.config s), w1)))
        else
          (Ok (segment.nextOffset s),
           (stamped,
            (segment.mk st
               (written (segment.index s)
                  (uint32 (uint64 (segment.nextOffset s
                                   - segment.baseOffset s)))
                  (len b))
               (segment.baseOffset s)
               (uint64 (segment.nextOffset s + 1)) (segment.config s), w1)))
  | Err e => (Err e, (stamped, (s, w)))
  | Panic => (Panic, (stamped, (s, w)))
  end.
Proof.
  intros Hq Hh Hf Hs H0 H1. rewrite Append_unfold. cbv zeta.
  destruct (Marshal _) as [p|e|]; try reflexivity.
  rewrite (store_Append_quiet p _ w b Hq Hh Hf Hs).
  destruct (2 ^ 63 <=? len b + (8 + len p)).
  - destruct s as [st ix bs nx cf]. reflexivity.
  - destruct (Z.ltb_spec (len (index.mmap (segment.index s)))
                (index.size (segment.index s) + 12)).
    + rewrite index_Write_full by lia. reflexivity.
    + rewrite index_Write_ok by lia. reflexivity.
Qed.

Lemma int64_range z : - 2 ^ 63 <= int64 z < 2 ^ 63.
Proof.
  unfold int64. pose proof (Z.mod_pos_bound z (2 ^ 64)).
  destruct (Z.ltb_spec (z mod 2 ^ 64) (2 ^ 63)); lia.
Qed.

Lemma written_len (ix : index.t) (rel pos : Z) :
  0 <= index.size ix → index.size ix + 12 <= len (index.mmap ix) →
  len (index.mmap (written ix rel pos)) = len (index.mmap ix).
Proof.
  intros H0 H1. unfold written. simpl.
  rewrite splice_len; rewrite ?splice_len; rewrite ?len_PutUint32,
    ?len_PutUint64; lia.
Qed.

(** Reduction of record projections only. *)
Ltac proj_simpl :=
  cbn [segment.store segment.index segment.baseOffset segment.nextOffset
       segment.config store.file store.size index.file index.mmap index.size
       files handles faults next_fd fd file_name fst snd set_files
       segment.set_store segment.set_index segment.set_nextOffset] in *.

(** [Append] keeps the segment and the machine in agreement. *)
Lemma Append_attached `{Codec} (dir : string) (base : Z) (c : Config)
    (r : api_Record) (s : segment.t) (w : World) o r' s' w' :
  attached dir base c s w →
  segment.Append (r, (s, w)) = (o, (r', (s', w'))) →
  attached dir base c s' w'.
Proof.
  intros Hatt E. pose proof Hatt as Hatt0.
  destruct Hatt as [Hq Hbase Hcfg Hsn Hin Hso Hio Hfds (b & Hfb & Hsz & Hb63)
    (ib & Hfi & Hil) [Hcap Hcap0] (n & Hn & Hisz & Hn12 & Hnext)].
  pose proof (int64_range (MaxIndexBytes (Segment c))) as Hr.
  pose proof (store_index_paths dir base) as Hne.
  rewrite <- Hsn in Hfb.
  rewrite (Append_quiet r s w b Hq Hso Hfb Hsz) in E by lia.
  cbv zeta in E.
  destruct (Marshal _) as [p|e|];
    [|injection E as <- <- <- <-; exact Hatt0..].
  destruct (Z.leb_spec (2 ^ 63) (len b + (8 + len p)));
    [injection E as <- <- <- <-; exact Hatt0|].
  pose proof (len_nonneg p).
  destruct s as [st ix bs nx cf]. proj_simpl. subst bs cf.
  assert (Hstore :
    ∃ b', <[file_name (store.file st) :=
              b ++ enc.PutUint64 (len p) ++ p]> (files w)
            !! store_path dir base = Some b'
          ∧ len b + 8 + len p = len b' ∧ len b' < 2 ^ 63).
  { exists (b ++ enc.PutUint64 (len p) ++ p).
    rewrite Hsn, lookup_insert_eq. rewrite !len_app, len_PutUint64.
    split; [reflexivity|]. lia. }
  assert (Hindex :
    <[file_name (store.file st) :=
        b ++ enc.PutUint64 (len p) ++ p]> (files w)
      !! index_path dir base = Some ib).
  { rewrite Hsn, lookup_insert_ne by done. exact Hfi. }
  destruct (Z.ltb_spec (len (index.mmap ix)) (index.size ix + 12));
    injection E as <- <- <- <-.
  - constructor; proj_simpl; try done.
    + exists ib. auto.
    + exists n. auto.
  - constructor; proj_simpl; try done.
    + exists ib. split; [exact Hindex|].
      rewrite (written_len ix) by lia. exact Hil.
    + rewrite (written_len ix) by lia. auto.
    + exists (n + 1). rewrite (written_len ix) by lia.
      unfold written. proj_simpl.
      split; [lia|]. split; [lia|]. split; [lia|].
      rewrite Hnext, uint64_succ. f_equal. lia.
Qed.

Lemma uint64_sub_base (base n : Z) :
  0 <= n < 2 ^ 64 → uint64 (uint64 (base + n) - base) = n.
Proof.
  intros Hn. unfold uint64. rewrite Zminus_mod_idemp_l.
  replace (base + n - base) with n by lia. apply Z.mod_small. lia.
Qed.

(** A successful [Append] numbers the entry it writes. *)
Lemma Append_last_entry `{Codec} (dir : string) (base : Z) (c : Config)
    (r : api_Record) (s : segment.t) (w : World) o r' s' w' :
  int64 (MaxIndexBytes (Segment c)) <= 12 * 2 ^ 32 →
  attached dir base c s w → last_entry_numbered s →
  segment.Append (r, (s, w)) = (o, (r', (s', w'))) →
  last_entry_numbered s'.
Proof.
  intros Hbound Hatt Hlast E.
  destruct Hatt as [Hq Hbase Hcfg Hsn Hin Hso Hio Hfds (b & Hfb & Hsz & Hb63)
    (ib & Hfi & Hil) [Hcap Hcap0] (n & Hn & Hisz & Hn12 & Hnext)].
  rewrite <- Hsn in Hfb.
  rewrite (Append_quiet r s w b Hq Hso Hfb Hsz) in E by lia.
  cbv zeta in E.
  destruct (Marshal _) as [p|e|];
    [|injection E as <- <- <- <-; exact Hlast..].
  destruct (Z.leb_spec (2 ^ 63) (len b + (8 + len p)));
    [injection E as <- <- <- <-; exact Hlast|].
  destruct s as [st ix bs nx cf]. proj_simpl. subst bs cf.
  destruct (Z.ltb_spec (len (index.mmap ix)) (index.size ix + 12));
    injection E as <- <- <- <-.
  - exact Hlast.
  - intros n' Hn' Hpos. unfold written in *. proj_simpl.
    assert (n' = n + 1) by lia. subst n'.
    replace (n + 1 - 1) with n by lia.
    exists (uint64 (len b)). rewrite Hisz.
    rewrite entry_at_written by lia.
    rewrite Hnext, uint64_sub_base by lia.
    rewrite !(uint32_id n) by lia. reflexivity.
Qed.

(** [Read] changes neither the segment nor the machine. *)
Lemma Read_attached `{Codec} (dir : string) (base : Z) (c : Config)
    (off : Z) (s : segment.t) (w : World) :
  attached dir base c s w →
  segment.Read off (s, w)
  = (read_result (segment.index s) base (content w (store_path dir base)) off,
     (s, w)).
Proof.
  intros [Hq Hbase Hcfg Hsn Hin Hso Hio Hfds (b & Hfb & Hsz & Hb63) _ _ _].
  unfold content. rewrite Hfb. simpl. rewrite <- Hsn in Hfb.
  rewrite (segment_Read_quiet off s w b Hq Hso Hfb). rewrite Hbase.
  reflexivity.
Qed.

(** [Close] on a segment that agrees with the machine succeeds; it leaves
    the store file as it is and the index file cut to [size]. *)
Lemma Close_attached (dir : string) (base : Z) (c : Config)
    (s : segment.t) (w : World) :
  attached dir base c s w →
  ∃ w1,
    segment.Close (s, w) = (Ok (), (s, w1))
    ∧ faults w1 = []
    ∧ content w1 (store_path dir base) = content w (store_path dir base)
    ∧ content w1 (index_path dir base)
      = take (Z.to_nat (index.size (segment.index s)))
             (index.mmap (segment.index s)).
Proof.
  intros [Hq Hbase Hcfg Hsn Hin Hso Hio Hfds (b & Hfb & Hsz & Hb63)
    (ib & Hfi & Hil) [Hcap Hcap0] (n & Hn & Hisz & Hn12 & Hnext)].
  pose proof (int64_range (MaxIndexBytes (Segment c))) as Hr.
  pose proof (store_index_paths dir base) as Hne.
  destruct s as [st ix bs nx cf]. proj_simpl. subst bs cf.
  rewrite <- Hin in Hfi.
  set (m := index.mmap ix) in *.
  (* the index *)
  pose proof (Sync_quiet (index.file ix) m w ib Hq Hio Hfi) as E1.
  set (w1 := set_files _ w) in E1.
  assert (Hf1 : files w1 !! file_name (index.file ix) = Some m).
  { unfold w1, set_files. proj_simpl. rewrite lookup_insert_eq.
    rewrite drop_ge by (unfold len in Hil; lia). rewrite app_nil_r.
    reflexivity. }
  pose proof (File_Sync_quiet (index.file ix) w1 m Hq Hio Hf1) as E2.
  assert (Hi64 : int64 (index.size ix) = index.size ix)
    by (apply int64_id; lia).
  pose proof (File_Truncate_quiet (index.file ix) (index.size ix) w1 m
                Hq Hio Hf1 ltac:(lia)) as E3.
  set (w2 := set_files _ w1) in E3.
  assert (Hf2 : files w2 !! file_name (index.file ix)
                = Some (take (Z.to_nat (index.size ix)) m)).
  { unfold w2, set_files. proj_simpl. rewrite lookup_insert_eq.
    unfold resize.
    replace (Z.to_nat (index.size ix) - length m)%nat with 0%nat
      by (unfold len in *; lia).
    simpl. rewrite app_nil_r. reflexivity. }
  pose proof (File_Close_quiet (index.file ix) w2 _ Hq Hio Hf2) as E4.
  set (w3 := mkWorld _ _ _ _) in E4.
  assert (EI : index.Close ix w = (Ok (), w3)).
  { unfold index.Close. fold m.
    rewrite (bind_Ok _ _ _ _ _ E1), (bind_Ok _ _ _ _ _ E2).
    rewrite Hi64. rewrite (bind_Ok _ _ _ _ _ E3). exact E4. }
  (* the store *)
  assert (Hso3 : fd (store.file st) ∈ handles w3).
  { unfold w3. proj_simpl. apply elem_of_difference. split; [exact Hso|].
    rewrite elem_of_singleton. exact Hfds. }
  assert (Hfs3 : files w3 !! file_name (store.file st) = Some b).
  { unfold w3, w2, w1, set_files. proj_simpl.
    rewrite Hsn, Hin, !lookup_insert_ne by done. exact Hfb. }
  pose proof (File_Close_quiet (store.file st) w3 b eq_refl Hso3 Hfs3) as E5.
  set (w4 := mkWorld _ _ _ _) in E5.
  exists w4. split.
  - unfold segment.Close, bind, on_self, on_world, get, segment.in_store,
      store.Close.
    proj_simpl. rewrite EI. unfold bind, on_self, on_world, get.
    proj_simpl. rewrite E5. reflexivity.
  - split; [reflexivity|].
    unfold content, w4. proj_simpl. rewrite <- Hsn at 1. rewrite Hfs3.
    rewrite Hfb. split; [reflexivity|].
    unfold w3. proj_simpl. rewrite <- Hin. rewrite Hf2. reflexivity.
Qed.

(** ** Close, then construct again *)

Lemma reopen_attached (dir : string) (base : Z) (c : Config)
    (s : segment.t) (w : World) :
  is_uint64 base → int64 (MaxIndexBytes (Segment c)) <= 12 * 2 ^ 32 →
  attached dir base c s w → last_entry_numbered s →
  ∃ w1 s2 w2,
    segment.Close (s, w) = (Ok (), (s, w1))
    ∧ segment.newSegment dir base c w1 = (Ok s2, w2)
    ∧ attached dir base c s2 w2
    ∧ last_entry_numbered s2
    ∧ segment.nextOffset s2 = segment.nextOffset s
    ∧ index.size (segment.index s2) = index.size (segment.index s)
    ∧ take (Z.to_nat (index.size (segment.index s)))
           (index.mmap (segment.index s2))
      = take (Z.to_nat (index.size (segment.index s)))
             (index.mmap (segment.index s))
    ∧ content w2 (store_path dir base) = content w (store_path dir base).
Proof.
  intros Hb Hbound Hatt Hlast.
  destruct (Close_attached dir base c s w Hatt) as (w1 & EC & Hq1 & Hcs & Hci).
  destruct Hatt as [Hq Hbase Hcfg Hsn Hin Hso Hio Hfds (b & Hfb & Hsz & Hb63)
    (ib & Hfi & Hil) [Hcap Hcap0] (n & Hn & Hisz & Hn12 & Hnext)].
  remember (index.mmap (segment.index s)) as m eqn:Hm.
  assert (Hlt : len (take (Z.to_nat (12 * n)) m) = 12 * n).
  { unfold len in *. rewrite length_take. lia. }
  rewrite Hisz in Hci.
  destruct (newSegment_attached dir base c w1 n) as
    (s2 & w2 & EN & Hatt2 & Hsz2 & Hnx2 & Hm2 & Hfs2); try done; try lia.
  - rewrite Hcs. unfold content. rewrite Hfb. exact Hb63.
  - rewrite Hci. exact Hlt.
  - intros Hpos. destruct (Hlast n Hisz Hpos) as [pos Hpos'].
    rewrite <- Hm in Hpos'.
    exists pos. rewrite <- Hpos'. rewrite Hci.
    apply (entry_at_agree _ _ _ (12 * n)); try lia.
    apply take_idemp.
  - exists w1, s2, w2.
    assert (Htk : take (Z.to_nat (12 * n)) (index.mmap (segment.index s2))
                  = take (Z.to_nat (12 * n)) m).
    { rewrite Hm2, Hci. rewrite <- Hlt at 1. apply resize_prefix. lia. }
    split; [exact EC|]. split; [exact EN|]. split; [exact Hatt2|].
    split.
    { intros n' Hn' Hpos. rewrite Hsz2 in Hn'.
      assert (n' = n) by lia. subst n'.
      destruct (Hlast n Hisz Hpos) as [pos Hpos']. rewrite <- Hm in Hpos'.
      exists pos. rewrite <- Hpos'.
      apply (entry_at_agree _ _ _ (12 * n)); try lia.
      - exact Htk.
      - destruct Hatt2 as [_ _ _ _ _ _ _ _ _ _ _ (k & ? & ? & ? & ?)]. lia. }
    split; [congruence|]. split; [congruence|].
    split; [rewrite Hisz; exact Htk|].
    unfold content at 1. rewrite Hfs2. exact Hcs.
Qed.

(** ** Every reachable segment agrees with the machine *)

Lemma reachable_attached `{Codec} (dir : string) (base : Z) (c : Config)
    (s : segment.t) (w : World) :
  is_uint64 base → int64 (MaxIndexBytes (Segment c)) <= 12 * 2 ^ 32 →
  reachable dir base c s w →
  attached dir base c s w ∧ last_entry_numbered s.
Proof.
  intros Hb Hbound Hr.
  induction Hr as
    [ w s w' Hq [Hfs Hfi] Hnew
    | s w r o r' s' w' Hr [Hatt Hlast] E
    | s w off o s' w' Hr [Hatt Hlast] E
    | s w s1 w1 s2 w2 Hr [Hatt Hlast] EC EN ].
  - pose proof (newSegment_succeeds dir base c w s w' Hq Hnew) as Hcap0.
    destruct (newSegment_attached dir base c w 0) as
      (s0 & w0 & EN & Hatt & Hsz & _); try done; try lia.
    + unfold content. rewrite Hfs. simpl. unfold len. simpl. lia.
    + unfold content. rewrite Hfi. reflexivity.
    + rewrite EN in Hnew. injection Hnew as <- <-.
      split; [exact Hatt|]. intros n Hn Hpos. lia.
  - split.
    + eapply Append_attached; eauto.
    + eapply Append_last_entry; eauto.
  - rewrite (Read_attached dir base c off s w Hatt) in E.
    injection E as _ <- <-. auto.
  - destruct (reopen_attached dir base c s w Hb Hbound Hatt Hlast)
      as (w1' & s2' & w2' & EC' & EN' & Hatt2 & Hlast2 & _).
    rewrite EC' in EC. injection EC as <- <-.
    rewrite EN' in EN. injection EN as <- <-. auto.
Qed.

(** ** Offsets *)

(** One call of [Append]: the base offset never changes; a successful call
    returns [nextOffset] and moves it by one, any other call leaves it. *)
Lemma Append_next `{Codec} (r : api_Record) (s : segment.t) (w : World)
    o r' s' w' :
  segment.Append (r, (s, w)) = (o, (r', (s', w'))) →
  segment.baseOffset s' = segment.baseOffset s
  ∧ (o = Ok (segment.nextOffset s)
     ∧ segment.nextOffset s' = uint64 (segment.nextOffset s + 1)
     ∨ oks [o] = [] ∧ segment.nextOffset s' = segment.nextOffset s).
Proof.
  rewrite Append_unfold. cbv zeta. intros E.
  destruct (Marshal _) as [p|e|].
  - destruct (store.Append p _) as [[[n pos]|e|] [st w1]].
    + destruct (index.Write _ pos _) as [[[]|e|] ix];
        injection E as <- <- <- <-; simpl; auto.
    + injection E as <- <- <- <-; simpl; auto.
    + injection E as <- <- <- <-; simpl; auto.
  - injection E as <- <- <- <-; simpl; auto.
  - injection E as <- <- <- <-; simpl; auto.
Qed.

Lemma oks_cons_failed (o : outcome Z) (os : list (outcome Z)) :
  oks [o] = [] → oks (o :: os) = oks os.
Proof. destruct o; simpl; [discriminate|reflexivity..]. Qed.

(** The offsets of a run that does not take [nextOffset] past the last
    [uint64]. *)
Lemma run_appends_offsets `{Codec} (rs : list api_Record) :
  ∀ (s : segment.t) (w : World) outs s' w',
    run_appends rs (s, w) = (outs, (s', w')) →
    0 <= segment.nextOffset s →
    segment.nextOffset s + len (oks outs) < 2 ^ 64 →
    segment.baseOffset s' = segment.baseOffset s
    ∧ oks outs
      = map (fun i => segment.nextOffset s + Z.of_nat i)
            (seq 0 (length (oks outs)))
    ∧ segment.nextOffset s' = segment.nextOffset s + len (oks outs).
Proof.
  induction rs as [|r rs IH]; intros s w outs s' w' E H0 Hw; simpl in E.
  - injection E as <- <- <-. simpl. unfold len. simpl.
    split; [reflexivity|]. split; [reflexivity|]. lia.
  - destruct (segment.Append (r, (s, w))) as [o [r1 [s1 w1]]] eqn:EA.
    destruct (run_appends rs (s1, w1)) as [os [s2 w2]] eqn:ER.
    injection E as <- <- <-.
    apply Append_next in EA as [Hbase [[-> Hnx]|[Hfail Hnx]]].
    + simpl oks in *. unfold len in Hw. simpl length in Hw.
      assert (Hnx' : segment.nextOffset s1 = segment.nextOffset s + 1).
      { rewrite Hnx. apply uint64_id.
        pose proof (len_nonneg (oks os)). unfold len in *. lia. }
      destruct (IH s1 w1 os s2 w2 ER) as (Hb2 & Hoks & Hn2).
      { lia. }
      { rewrite Hnx'. unfold len. lia. }
      split; [congruence|]. split.
      * simpl. f_equal; [lia|]. rewrite Hoks at 1.
        rewrite <- seq_shift, map_map. apply map_ext. intros i.
        rewrite Hnx'. lia.
      * rewrite Hn2, Hnx'. unfold len. simpl length. lia.
    + rewrite (oks_cons_failed o os Hfail) in *.
      destruct (IH s1 w1 os s2 w2 ER) as (Hb2 & Hoks & Hn2).
      { lia. }
      { rewrite Hnx. exact Hw. }
      rewrite Hnx in *. split; [congruence|]. split; assumption.
Qed.

(** A segment constructed over a directory that holds neither file starts
    at its base offset. *)
Lemma newSegment_fresh (dir : string) (base : Z) (c : Config) (w : World)
    (s : segment.t) (w' : World) :
  is_uint64 base → faults w = [] → fresh dir base w →
  segment.newSegment dir base c w = (Ok s, w') →
  attached dir base c s w'
  ∧ index.size (segment.index s) = 0
  ∧ segment.nextOffset s = base
  ∧ content w' (store_path dir base) = [].
Proof.
  intros Hb Hq [Hfs Hfi] Hnew.
  pose proof (newSegment_succeeds dir base c w s w' Hq Hnew) as Hcap0.
  destruct (newSegment_attached dir base c w 0) as
    (s0 & w0 & EN & Hatt & Hsz & Hnx & _ & Hf); try done; try lia.
  - unfold content. rewrite Hfs. simpl. unfold len. simpl. lia.
  - unfold content. rewrite Hfi. reflexivity.
  - rewrite EN in Hnew. injection Hnew as <- <-.
    split; [exact Hatt|]. split; [exact Hsz|].
    split; [rewrite Hnx, Z.add_0_r; apply uint64_id; exact Hb|].
    unfold content. rewrite Hf. unfold content. rewrite Hfs. reflexivity.
Qed.

(** C6, as the code has it.  Started at a segment whose [nextOffset] is at
    least its [baseOffset], a run of [Append] calls that does not take
    [nextOffset] past the last [uint64] returns, call after successful
    call, the offsets [nextOffset], [nextOffset + 1], ... with no gap;
    [nextOffset] ends that many above where it started and is still at
    least [baseOffset], which never changes.  A segment constructed over
    a directory that holds neither file starts with [nextOffset] equal to
    [baseOffset]. *)
Theorem Append_offsets_consecutive `{Codec} (rs : list api_Record)
    (s : segment.t) (w : World) (outs : list (outcome Z))
    (s' : segment.t) (w' : World) :
  run_appends rs (s, w) = (outs, (s', w')) →
  0 <= segment.baseOffset s <= segment.nextOffset s →
  segment.nextOffset s + len (oks outs) < 2 ^ 64 →
  oks outs
  = map (fun i => segment.nextOffset s + Z.of_nat i)
        (seq 0 (length (oks outs)))
  ∧ segment.nextOffset s' = segment.nextOffset s + len (oks outs)
  ∧ segment.baseOffset s' = segment.baseOffset s
  ∧ segment.baseOffset s' <= segment.nextOffset s'
  ∧ (∀ dir base c w0 s0 w0',
       is_uint64 base → faults w0 = [] → fresh dir base w0 →
       segment.newSegment dir base c w0 = (Ok s0, w0') →
       segment.baseOffset s0 = base ∧ segment.nextOffset s0 = base).
Proof.
  intros E [Hb0 Hbn] Hw.
  destruct (run_appends_offsets rs s w outs s' w' E) as (Hb & Hoks & Hn);
    [lia|exact Hw|].
  split; [exact Hoks|]. split; [exact Hn|]. split; [exact Hb|].
  split.
  - rewrite Hb, Hn. pose proof (len_nonneg (oks outs)). lia.
  - intros dir base c w0 s0 w0' Hbase Hq Hf Hnew.
    destruct (newSegment_fresh dir base c w0 s0 w0' Hbase Hq Hf Hnew)
      as (Hatt & _ & Hnx & _).
    split; [apply (att_base _ _ _ _ _ Hatt)|exact Hnx].
Qed.

(** At the last [uint64] as base offset, the first [Append] returns the
    base offset and wraps [nextOffset] to zero, below [baseOffset]; the
    second [Append] returns zero, below the offset returned before. *)
Lemma nextOffset_wraps_counterexample :
  ∃ s w r1 s1 w1,
    segment.newSegment "/log" (2 ^ 64 - 1) demo_config empty_world = (Ok s, w)
    ∧ @segment.Append fixed_codec (mkRecord [x68; x69] 0, (s, w))
      = (Ok (2 ^ 64 - 1), (r1, (s1, w1)))
    ∧ segment.baseOffset s1 = 2 ^ 64 - 1
    ∧ segment.nextOffset s1 = 0
    ∧ fst (@segment.Append fixed_codec (mkRecord [x68; x69] 0, (s1, w1)))
      = Ok 0.
Proof.
  eexists _, _, _, _, _. split; [vm_compute; reflexivity|].
  split; [vm_compute; reflexivity|].
  split; [reflexivity|]. split; [reflexivity|].
  vm_compute. reflexivity.
Qed.

Lemma Append_offsets_consecutive_witness :
  let res := @run_appends fixed_codec demo_records (demo_segment 7) in
  oks (fst res) = [7; 8] ∧ segment.nextOffset (fst (snd res)) = 9.
Proof.
  intros res.
  assert (E : @run_appends fixed_codec demo_records
                (fst (demo_segment 7), snd (demo_segment 7))
              = (fst res, (fst (snd res), snd (snd res))))
    by (vm_compute; reflexivity).
  destruct (Append_offsets_consecutive _ _ _ _ _ _ E) as (Hoks & Hn & _).
  - vm_compute. split; discriminate.
  - vm_compute. reflexivity.
  - split; [exact Hoks|exact Hn].
Defined.

(** ** Reads outside the segment's range *)

(** C1, at a failing input.  A segment with base offset 1 holds one
    record, at offset 1, so that its range is [[1, 2)].  [Read(2)] fails
    with [io.EOF], but [Read(0)] returns the record stored at offset 1:
    the subtraction [0 - 1] wraps to the [int64] value [-1], which the
    index takes for "the last entry".  [Read(1 + 2^32)] returns that
    record too: the index keeps only the low 32 bits of the entry
    number. *)
Theorem Read_outside_range_returns_record :
  let '(s, w) := demo_segment 1 in
  let '(o, (_, (s1, w1))) :=
    @segment.Append fixed_codec (mkRecord [x68; x69] 0, (s, w)) in
  o = Ok 1
  ∧ segment.baseOffset s1 = 1
  ∧ segment.nextOffset s1 = 2
  ∧ fst (@segment.Read fixed_codec 2 (s1, w1)) = Err EOF
  ∧ fst (@segment.Read fixed_codec 0 (s1, w1))
    = Ok (mkRecord [x68; x69] 1, None)
  ∧ fst (@segment.Read fixed_codec (1 + 2 ^ 32) (s1, w1))
    = Ok (mkRecord [x68; x69] 1, None).
Proof. vm_compute. repeat split; reflexivity. Qed.

Lemma uint64_sub_l (a b : Z) : uint64 (uint64 a - b) = uint64 (a - b).
Proof. unfold uint64. apply Zminus_mod_idemp_l. Qed.

(** The same for every reachable segment that holds a record: the offset
    just below the base reads as the last offset of the segment does. *)
Lemma Read_below_base `{Codec} (dir : string) (base : Z) (c : Config)
    (s : segment.t) (w : World) :
  is_uint64 base → 0 <= MaxIndexBytes (Segment c) <= 12 * 2 ^ 32 →
  reachable dir base c s w →
  0 < index.size (segment.index s) →
  fst (segment.Read (uint64 (base - 1)) (s, w))
  = fst (segment.Read (uint64 (segment.nextOffset s - 1)) (s, w)).
Proof.
  intros Hb Hc Hr Hpos.
  assert (Hbound : int64 (MaxIndexBytes (Segment c)) <= 12 * 2 ^ 32)
    by (rewrite int64_id; lia).
  destruct (reachable_attached dir base c s w Hb Hbound Hr) as [Hatt Hlast].
  rewrite !(Read_attached dir base c _ s w Hatt). simpl.
  destruct Hatt as [_ _ _ _ _ _ _ _ _ _ [Hcap _]
    (n & Hn & Hisz & Hn12 & Hnext)].
  unfold read_result.
  assert (E1 : int64 (uint64 (uint64 (base - 1) - base)) = -1).
  { rewrite uint64_sub_l. replace (base - 1 - base) with (-1) by lia.
    reflexivity. }
  assert (E2 : int64 (uint64 (uint64 (segment.nextOffset s - 1) - base))
               = n - 1).
  { rewrite Hnext. rewrite uint64_sub_l.
    replace (uint64 (base + n) - 1 - base)
      with (uint64 (base + n) - (1 + base)) by lia.
    rewrite uint64_sub_l.
    replace (base + n - (1 + base)) with (n - 1) by lia.
    rewrite uint64_id by lia. apply int64_id. lia. }
  rewrite E1, E2. rewrite !index_Read_unfold.
  assert (Hk : entry_number (segment.index s) (-1)
               = entry_number (segment.index s) (n - 1)).
  { unfold entry_number. rewrite Hisz.
    replace (12 * n) with (n * 12) by lia. rewrite Z.div_mul by lia.
    destruct (Z.eqb_spec (n - 1) (-1)); [lia|]. simpl.
    rewrite uint64_id by lia. reflexivity. }
  rewrite Hk. reflexivity.
Qed.

(** What does hold of reads outside the range: an offset at or past
    [nextOffset] whose distance from the base fits in 32 bits fails with
    [io.EOF]. *)
Lemma Read_past_end `{Codec} (dir : string) (base : Z) (c : Config)
    (s : segment.t) (w : World) (off : Z) :
  is_uint64 base → 0 <= MaxIndexBytes (Segment c) <= 12 * 2 ^ 32 →
  reachable dir base c s w →
  index.size (segment.index s) <= 12 * uint64 (off - base) →
  uint64 (off - base) < 2 ^ 32 →
  segment.Read off (s, w) = (Err EOF, (s, w)).
Proof.
  intros Hb Hc Hr Hsz Hd.
  assert (Hbound : int64 (MaxIndexBytes (Segment c)) <= 12 * 2 ^ 32)
    by (rewrite int64_id; lia).
  destruct (reachable_attached dir base c s w Hb Hbound Hr) as [Hatt _].
  rewrite (Read_attached dir base c _ s w Hatt). f_equal.
  unfold read_result.
  pose proof (uint64_range (off - base)) as Hrange.
  set (d := uint64 (off - base)) in *.
  rewrite (int64_id d) by lia. rewrite index_Read_unfold.
  assert (Hk : entry_number (segment.index s) d = d).
  { unfold entry_number. destruct (Z.eqb_spec d (-1)); [lia|].
    apply uint32_id. lia. }
  rewrite Hk.
  destruct (index.size (segment.index s) =? 0); [reflexivity|].
  destruct (Z.ltb_spec (index.size (segment.index s)) (12 * d + 12));
    [reflexivity|lia].
Qed.

(** ** Capacity *)

(** On a segment that agrees with the machine, with [n] entries in an
    index that has room for [length rs] more, and a store that stays
    below [2^63] bytes, every [Append] of a run succeeds. *)
Lemma run_appends_fill `{Codec} (dir : string) (base : Z) (c : Config)
    (B : Z) (rs : list api_Record) :
  ∀ (s : segment.t) (w : World) (n : Z),
    attached dir base c s w →
    index.size (segment.index s) = 12 * n → 0 <= n →
    12 * (n + len rs) <= len (index.mmap (segment.index s)) →
    len (content w (store_path dir base)) <= n * (B + 8) →
    (n + len rs) * (B + 8) < 2 ^ 63 →
    (∀ x off, x ∈ rs → is_uint64 off →
       ∃ p, Marshal (set_Offset off x) = Ok p ∧ len p <= B) →
    ∃ s1 w1,
      run_appends rs (s, w)
      = (map (fun i => Ok (uint64 (base + n + Z.of_nat i)))
             (seq 0 (length rs)), (s1, w1))
      ∧ attached dir base c s1 w1
      ∧ index.size (segment.index s1) = 12 * (n + len rs)
      ∧ len (content w1 (store_path dir base)) <= (n + len rs) * (B + 8).
Proof.
  induction rs as [|r rs IH]; intros s w n Hatt Hsz Hn Hroom Hst Hcap Hser.
  - exists s, w. unfold len in *. simpl in *.
    rewrite Z.add_0_r. auto.
  - pose proof Hatt as Hatt0.
    destruct Hatt as [Hq Hbase Hcfg Hsn Hin Hso Hio Hfds
      (b & Hfb & Hbsz & Hb63) _ [Hmcap _] (n' & Hn' & Hisz & Hn12 & Hnext)].
    pose proof (int64_range (MaxIndexBytes (Segment c))) as Hr.
    assert (n' = n) by lia. subst n'.
    assert (Hlen : len (r :: rs) = 1 + len rs) by (unfold len; simpl; lia).
    rewrite Hlen in *. pose proof (len_nonneg rs) as Hrs.
    destruct (Hser r (segment.nextOffset s)) as (p & Hp & HpB);
      [apply list_elem_of_here|rewrite Hnext; apply uint64_range|].
    pose proof (len_nonneg p).
    assert (Hcb : content w (store_path dir base) = b)
      by (unfold content; rewrite Hfb; reflexivity).
    rewrite Hcb in Hst.
    assert (HB : 0 <= B + 8) by lia.
    assert (Hfit : len b + (8 + len p) < 2 ^ 63) by nia.
    simpl run_appends.
    destruct (segment.Append (r, (s, w))) as [o [r1 [s1 w1]]] eqn:EA.
    pose proof (Append_attached dir base c r s w o r1 s1 w1 Hatt0 EA) as Hatt1.
    destruct (att_store_file _ _ _ _ _ Hatt1) as (b1 & Hfb1 & Hbsz1 & _).
    assert (Hcb1 : content w1 (store_path dir base) = b1)
      by (unfold content; rewrite Hfb1; reflexivity).
    clear Hfb1.
    rewrite <- Hsn in Hfb.
    rewrite (Append_quiet r s w b Hq Hso Hfb Hbsz) in EA by lia.
    cbv zeta in EA. rewrite Hp in EA.
    destruct (Z.leb_spec (2 ^ 63) (len b + (8 + len p))); [lia|].
    destruct (Z.ltb_spec (len (index.mmap (segment.index s)))
                (index.size (segment.index s) + 12)); [lia|].
    injection EA as <- <- <- <-.
    destruct (IH _ _ (n + 1) Hatt1) as (s2 & w2 & ER & Hatt2 & Hsz2 & Hst2).
    + unfold written. proj_simpl. lia.
    + lia.
    + proj_simpl. rewrite (written_len (segment.index s)) by lia. lia.
    + rewrite Hcb1. proj_simpl. nia.
    + replace (n + 1 + len rs) with (n + (1 + len rs)) by lia. exact Hcap.
    + intros x off Hx. apply Hser. apply list_elem_of_further. exact Hx.
    + exists s2, w2. rewrite ER.
      split.
      { f_equal. simpl. f_equal.
        - rewrite Hnext. f_equal. f_equal. lia.
        - rewrite <- seq_shift, map_map. apply map_ext. intros i.
          f_equal. f_equal. lia. }
      split; [exact Hatt2|].
      replace (n + (1 + len rs)) with (n + 1 + len rs) by lia. auto.
Qed.

(** C4.  With [maxIndexBytes = 12 * k], on a segment constructed over a
    directory that holds neither file, the first [k] calls of [Append]
    with records that serialize (into at most [B] bytes each, the store
    staying below the largest file) succeed, returning the offsets from
    the base on; the next [Append] fails with the end-of-file error of
    the index's [Write]; and [IsMaxed] holds then.  [Write] fails, with
    that error, exactly when twelve more bytes do not fit in the mapped
    region.  [IsMaxed], a function of the segment alone, is true exactly
    when the store's size has reached [MaxStoreBytes] or the index's size
    has reached [MaxIndexBytes]. *)
Theorem index_capacity `{Codec} (dir : string) (base : Z) (c : Config)
    (k B : Z) (w : World) (s0 : segment.t) (w0 : World)
    (rs : list api_Record) (r : api_Record) :
  is_uint64 base → 0 <= k → 12 * k < 2 ^ 64 →
  MaxIndexBytes (Segment c) = 12 * k →
  faults w = [] → fresh dir base w →
  segment.newSegment dir base c w = (Ok s0, w0) →
  len rs = k →
  (∀ x off, x ∈ rs ++ [r] → is_uint64 off →
     ∃ p, Marshal (set_Offset off x) = Ok p ∧ len p <= B) →
  (k + 1) * (B + 8) < 2 ^ 63 →
  (∃ s1 w1,
     run_appends rs (s0, w0)
     = (map (fun i => Ok (uint64 (base + Z.of_nat i))) (seq 0 (length rs)),
        (s1, w1))
     ∧ fst (segment.Append (r, (s1, w1))) = Err EOF
     ∧ segment.IsMaxed s1 = true)
  ∧ (∀ off pos i,
       0 <= index.size i → index.size i + 12 < 2 ^ 64 →
       (fst (index.Write off pos i) = Err EOF
        ↔ len (index.mmap i) < index.size i + 12)
       ∧ (fst (index.Write off pos i) = Ok ()
          ↔ index.size i + 12 <= len (index.mmap i)))
  ∧ (∀ s,
       segment.IsMaxed s = true
       ↔ MaxStoreBytes (Segment (segment.config s))
           <= store.size (segment.store s)
         ∨ MaxIndexBytes (Segment (segment.config s))
           <= index.size (segment.index s)).
Proof.
  intros Hb Hk Hk64 Hmax Hq Hfresh Hnew Hlen Hser Hstore.
  split; [|split].
  - destruct (newSegment_fresh dir base c w s0 w0 Hb Hq Hfresh Hnew)
      as (Hatt & Hsz & Hnx & Hc0).
    pose proof (newSegment_succeeds dir base c w s0 w0 Hq Hnew) as Hcap0.
    rewrite Hmax in Hcap0.
    assert (Hi64 : int64 (12 * k) = 12 * k).
    { apply int64_nonneg; [unfold is_uint64|]; lia. }
    pose proof (int64_range (12 * k)) as Hr.
    assert (Hml : len (index.mmap (segment.index s0)) = 12 * k).
    { destruct (att_cap _ _ _ _ _ Hatt) as [-> _]. rewrite Hmax. exact Hi64. }
    destruct (run_appends_fill dir base c B rs s0 w0 0 Hatt)
      as (s1 & w1 & ER & Hatt1 & Hsz1 & Hst1); try lia.
    + rewrite Hc0. unfold len. simpl. lia.
    + nia.
    + intros x off Hx. apply Hser. apply elem_of_app. left. exact Hx.
    + exists s1, w1. split.
      { rewrite ER. f_equal. apply map_ext. intros i.
        rewrite Z.add_0_r. reflexivity. }
      destruct Hatt1 as [Hq1 Hbase1 Hcfg1 Hsn1 Hin1 Hso1 Hio1 Hfds1
        (b & Hfb & Hbsz & Hb63) _ [Hmcap _]
        (n' & Hn' & Hisz & Hn12 & Hnext)].
      assert (Hcb : content w1 (store_path dir base) = b)
        by (unfold content; rewrite Hfb; reflexivity).
      rewrite Hcb in Hst1. rewrite Hmax, Hi64 in Hmcap.
      destruct (Hser r (segment.nextOffset s1)) as (p & Hp & HpB).
      { apply elem_of_app. right. apply list_elem_of_here. }
      { rewrite Hnext. apply uint64_range. }
      pose proof (len_nonneg p). pose proof (len_nonneg b).
      split.
      * rewrite <- Hsn1 in Hfb.
        rewrite (Append_quiet r s1 w1 b Hq1 Hso1 Hfb Hbsz) by lia.
        cbv zeta. rewrite Hp.
        destruct (Z.leb_spec (2 ^ 63) (len b + (8 + len p))); [nia|].
        destruct (Z.ltb_spec (len (index.mmap (segment.index s1)))
                    (index.size (segment.index s1) + 12)); [|lia].
        reflexivity.
      * unfold segment.IsMaxed. rewrite Hcfg1, Hmax.
        apply orb_true_iff. right. apply Z.leb_le. lia.
  - intros off pos i H0 H1.
    destruct (Z.lt_ge_cases (len (index.mmap i)) (index.size i + 12)).
    + rewrite index_Write_full by lia. simpl.
      split; split; intros; try reflexivity; try lia; discriminate.
    + rewrite index_Write_ok by lia. simpl.
      split; split; intros; try reflexivity; try lia; discriminate.
  - intros s. unfold segment.IsMaxed.
    rewrite orb_true_iff, !Z.leb_le. reflexivity.
Qed.

(** The reference codec serializes a record with a one-byte payload, at
    any [uint64] offset, into nine bytes. *)
Lemma fixed_codec_serializes (x : api_Record) (off : Z) :
  x ∈ demo_records → is_uint64 off →
  ∃ p, @Marshal fixed_codec (set_Offset off x) = Ok p ∧ len p <= 9.
Proof.
  intros Hx [H0 H1]. simpl. unfold fixed_Marshal, set_Offset. simpl.
  destruct (Z.leb_spec 0 off); [|lia].
  destruct (Z.ltb_spec off (2 ^ 64)); [|lia].
  unfold demo_records in Hx.
  repeat (apply elem_of_cons in Hx as [->|Hx]);
    try (eexists; split; [reflexivity|unfold len; simpl; lia]).
  apply elem_of_nil in Hx. contradiction.
Qed.

Lemma index_capacity_witness :
  let s0 := fst (demo_segment 7) in
  let w0 := snd (demo_segment 7) in
  ∃ s1 w1,
    @run_appends fixed_codec [mkRecord [x68] 0; mkRecord [x69] 0] (s0, w0)
    = ([Ok 7; Ok 8], (s1, w1))
    ∧ fst (@segment.Append fixed_codec (mkRecord [x6a] 0, (s1, w1)))
      = Err EOF
    ∧ segment.IsMaxed s1 = true.
Proof.
  intros s0 w0.
  assert (Hb : is_uint64 7) by (unfold is_uint64; lia).
  assert (Hfresh : fresh "/log" 7 empty_world) by (split; reflexivity).
  assert (Hnew : segment.newSegment "/log" 7 demo_config empty_world
                 = (Ok s0, w0)) by (vm_compute; reflexivity).
  assert (Hser : ∀ x off,
            x ∈ [mkRecord [x68] 0; mkRecord [x69] 0] ++ [mkRecord [x6a] 0] →
            is_uint64 off →
            ∃ p, @Marshal fixed_codec (set_Offset off x) = Ok p ∧ len p <= 9)
    by exact fixed_codec_serializes.
  destruct (@index_capacity fixed_codec "/log" 7 demo_config 2 9 empty_world
              s0 w0 [mkRecord [x68] 0; mkRecord [x69] 0] (mkRecord [x6a] 0)
              Hb ltac:(lia) ltac:(lia) eq_refl eq_refl Hfresh Hnew eq_refl
              Hser ltac:(lia)) as [(s1 & w1 & ER & EA & EM) _].
  exists s1, w1. split; [exact ER|]. split; [exact EA|exact EM].
Defined.

(** ** Round trip *)


(** The reference codec meets the contract. *)
Lemma fixed_codec_laws : CodecLaws fixed_codec.
Proof.
  constructor. intros [v off] p. cbn [Marshal Unmarshal fixed_codec].
  unfold fixed_Marshal. cbn [Offset Value].
  destruct (Z.leb_spec 0 off); [|discriminate].
  destruct (Z.ltb_spec off (2 ^ 64)); [|discriminate].
  destruct (len v + 8 <? 2 ^ 63); [|discriminate].
  cbn [andb]. intros E.
  assert (Hp : p = enc.PutUint64 off ++ v) by congruence. subst p. clear E.
  unfold fixed_Unmarshal. rewrite len_app, len_PutUint64.
  pose proof (len_nonneg v).
  destruct (Z.leb_spec 8 (8 + len v)); [|lia].
  change (take 8 (enc.PutUint64 off ++ v)) with (enc.PutUint64 off).
  change (drop 8 (enc.PutUint64 off ++ v)) with v.
  rewrite Uint64_PutUint64, uint64_id by lia. reflexivity.
Qed.


(** ** Recovery *)




(** * Further properties *)

(** ** The index as an array of entries *)

Lemma testbit_Z_of_byte_high (b : byte) (n : Z) :
  8 <= n → Z.testbit (Z_of_byte b) n = false.
Proof.
  intros Hn. pose proof (Z_of_byte_range b) as Hr.
  rewrite <- (Z.mod_small (Z_of_byte b) (2 ^ 8)) by lia.
  apply Z.mod_pow2_bits_high. lia.
Qed.

Lemma testbit_Z_of_byte_shl_high (b : byte) (k n : Z) :
  0 <= k → k + 8 <= n → Z.testbit (Z_of_byte b ≪ k) n = false.
Proof.
  intros Hk Hn. rewrite Z.shiftl_spec by lia.
  apply testbit_Z_of_byte_high. lia.
Qed.

Lemma Uint32_range (b : list byte) : 0 <= enc.Uint32 b < 2 ^ 32.
Proof.
  assert (E : enc.Uint32 b = enc.Uint32 b mod 2 ^ 32).
  { unfold enc.Uint32.
    destruct b as [|b0 [|b1 [|b2 [|b3 b']]]]; try reflexivity.
    apply Z.bits_inj'. intros n Hn.
    rewrite Z.testbit_mod_pow2 by lia.
    destruct (Z.ltb_spec n 32); [reflexivity|]. simpl.
    rewrite !Z.lor_spec.
    rewrite !testbit_Z_of_byte_shl_high by lia.
    rewrite testbit_Z_of_byte_high by lia. reflexivity. }
  rewrite E. apply Z.mod_pos_bound. lia.
Qed.

Lemma Uint64_range (b : list byte) : 0 <= enc.Uint64 b < 2 ^ 64.
Proof.
  assert (E : enc.Uint64 b = enc.Uint64 b mod 2 ^ 64).
  { unfold enc.Uint64.
    destruct b as [|b0 [|b1 [|b2 [|b3 [|b4 [|b5 [|b6 [|b7 b']]]]]]]];
      try reflexivity.
    apply Z.bits_inj'. intros n Hn.
    rewrite Z.testbit_mod_pow2 by lia.
    destruct (Z.ltb_spec n 64); [reflexivity|]. simpl.
    rewrite !Z.lor_spec.
    rewrite !testbit_Z_of_byte_shl_high by lia.
    rewrite testbit_Z_of_byte_high by lia. reflexivity. }
  rewrite E. apply Z.mod_pos_bound. lia.
Qed.

(** An entry that lies wholly inside the mapped region decodes. *)
Lemma entry_at_Ok (m : list byte) (k : Z) :
  0 <= k → 12 * k + 12 <= len m →
  ∃ off pos, entry_at m k = Ok (off, pos)
             ∧ 0 <= off < 2 ^ 32 ∧ 0 <= pos < 2 ^ 64.
Proof.
  intros Hk Hl. unfold entry_at.
  rewrite !slice_ok by lia. simpl.
  eexists _, _. split; [reflexivity|].
  split; [apply Uint32_range|apply Uint64_range].
Qed.

(** The entries below the one that [Write] adds are untouched. *)
Lemma entry_at_written_below (ix : index.t) (rel pos k : Z) :
  0 <= k → 12 * k + 12 <= index.size ix →
  index.size ix + 12 <= len (index.mmap ix) →
  entry_at (index.mmap (written ix rel pos)) k = entry_at (index.mmap ix) k.
Proof.
  intros Hk Hks Hl. unfold written. cbn [index.mmap].
  apply (entry_at_agree _ _ _ (index.size ix)); try lia.
  - assert (Hl1 : len (splice (index.mmap ix) (index.size ix)
                         (enc.PutUint32 rel)) = len (index.mmap ix))
      by (apply splice_len; rewrite ?len_PutUint32; lia).
    rewrite splice_take_below by lia.
    apply splice_take_below; lia.
  - assert (Hl1 : len (splice (index.mmap ix) (index.size ix)
                         (enc.PutUint32 rel)) = len (index.mmap ix))
      by (apply splice_len; rewrite ?len_PutUint32; lia).
    rewrite splice_len by (rewrite ?len_PutUint64; lia). lia.
Qed.

Lemma entry_number_small (i : index.t) (k : Z) :
  0 <= k < 2 ^ 32 → entry_number i k = k.
Proof.
  intros Hk. unfold entry_number.
  destruct (Z.eqb_spec k (-1)); [lia|]. apply uint32_id. exact Hk.
Qed.

Lemma entry_number_last (i : index.t) (n : Z) :
  index.size i = 12 * n → 0 < n <= 2 ^ 32 → entry_number i (-1) = n - 1.
Proof.
  intros Hs Hn. unfold entry_number. simpl. rewrite Hs.
  replace (12 * n) with (n * 12) by lia. rewrite Z.div_mul by lia.
  rewrite uint64_id by lia. apply uint32_id. lia.
Qed.

(** [Read] of an entry number below the number of entries. *)
Lemma index_Read_entry (i : index.t) (k : Z) :
  0 <= k < 2 ^ 32 → 12 * k + 12 <= index.size i →
  index.Read i k = entry_at (index.mmap i) k.
Proof.
  intros Hk Hs. rewrite index_Read_unfold, entry_number_small by exact Hk.
  destruct (Z.eqb_spec (index.size i) 0); [lia|].
  destruct (Z.ltb_spec (index.size i) (12 * k + 12)); [lia|]. reflexivity.
Qed.

(** X1.  On an index of [n] entries with room for one more, [Write(off,
    pos)] succeeds, and the new entry reads back, by its number [n] and
    as the last entry, as the pair written (as a [uint32] and a
    [uint64]). *)
Theorem index_Write_Read (off pos : Z) (i : index.t) (n : Z) :
  index.size i = 12 * n → 0 <= n < 2 ^ 32 →
  12 * n + 12 <= len (index.mmap i) →
  ∃ i',
    index.Write off pos i = (Ok (), i')
    ∧ index.size i' = 12 * (n + 1)
    ∧ index.Read i' n = Ok (uint32 off, uint64 pos)
    ∧ index.Read i' (-1) = Ok (uint32 off, uint64 pos).
Proof.
  intros Hs Hn Hl.
  exists (written i off pos).
  assert (Hs' : index.size (written i off pos) = 12 * (n + 1))
    by (unfold written; cbn [index.size]; lia).
  assert (He : entry_at (index.mmap (written i off pos)) n
               = Ok (uint32 off, uint64 pos)).
  { unfold written. cbn [index.mmap]. rewrite Hs.
    apply entry_at_written; lia. }
  split; [apply index_Write_ok; lia|]. split; [exact Hs'|].
  split.
  - rewrite index_Read_entry by lia. exact He.
  - rewrite index_Read_unfold.
    rewrite (entry_number_last _ (n + 1)) by (try exact Hs'; lia).
    replace (n + 1 - 1) with n by lia. rewrite Hs'.
    destruct (Z.eqb_spec (12 * (n + 1)) 0); [lia|].
    destruct (Z.ltb_spec (12 * (n + 1)) (12 * n + 12)); [lia|]. exact He.
Qed.

Lemma index_Write_Read_witness :
  ∃ i',
    index.Write 5 1000 demo_index = (Ok (), i')
    ∧ index.size i' = 12 * (0 + 1)
    ∧ index.Read i' 0 = Ok (uint32 5, uint64 1000)
    ∧ index.Read i' (-1) = Ok (uint32 5, uint64 1000).
Proof.
  apply (index_Write_Read 5 1000 demo_index 0).
  - reflexivity.
  - lia.
  - vm_compute. discriminate.
Defined.

(** X2.  A successful [Write] changes no entry that was there: every
    entry number below the old number of entries reads as before. *)
Theorem index_Write_keeps_entries (off pos : Z) (i : index.t) (n k : Z) :
  index.size i = 12 * n → 0 <= k < n → n < 2 ^ 32 →
  12 * n + 12 <= len (index.mmap i) →
  index.Read (snd (index.Write off pos i)) k = index.Read i k.
Proof.
  intros Hs Hk Hn Hl. rewrite index_Write_ok by lia. cbn [snd].
  rewrite !index_Read_entry by (unfold written; cbn [index.size]; lia).
  apply entry_at_written_below; lia.
Qed.

Lemma index_Write_keeps_entries_witness :
  let i1 := snd (index.Write 5 1000 demo_index) in
  index.Read (snd (index.Write 6 2000 i1)) 0 = index.Read i1 0.
Proof.
  intros i1.
  apply (index_Write_keeps_entries 6 2000 i1 1 0).
  - reflexivity.
  - lia.
  - lia.
  - vm_compute. discriminate.
Defined.




(** X4.  On an index whose [size] does not exceed its mapped region,
    [Read] never panics: whatever its argument, it fails with [io.EOF],
    and it does so on an index with no entry, or returns a relative
    offset that is a [uint32] and a position that is a [uint64]. *)
Theorem index_Read_never_panics (i : index.t) (in_ : Z) :
  index.size i <= len (index.mmap i) →
  (index.size i = 0 → index.Read i in_ = Err EOF)
  ∧ (index.Read i in_ = Err EOF
     ∨ ∃ off pos, index.Read i in_ = Ok (off, pos)
                  ∧ 0 <= off < 2 ^ 32 ∧ 0 <= pos < 2 ^ 64).
Proof.
  intros Hl. split; [apply index_Read_empty|].
  rewrite index_Read_unfold.
  pose proof (entry_number_range i in_) as Hr.
  destruct (index.size i =? 0); [left; reflexivity|].
  destruct (Z.ltb_spec (index.size i) (12 * entry_number i in_ + 12));
    [left; reflexivity|].
  right. apply entry_at_Ok; lia.
Qed.

Lemma index_Read_never_panics_witness :
  index.Read demo_index 3 = Err EOF.
Proof.
  assert (Hl : index.size demo_index <= len (index.mmap demo_index))
    by (vm_compute; discriminate).
  exact (proj1 (index_Read_never_panics demo_index 3 Hl) eq_refl).
Defined.

(** X5.  On an index whose [size] lies within its mapped region, [Write]
    never panics.  It fails only with [io.EOF], and then changes nothing;
    when it succeeds [size] grows by exactly twelve.  Either way the file
    and the length of the mapped region stay, [size] stays within the
    region, and a [size] that was a multiple of twelve still is. *)
Theorem index_Write_invariant (off pos : Z) (i : index.t) :
  0 <= index.size i <= len (index.mmap i) →
  len (index.mmap i) < 2 ^ 63 →
  let o := fst (index.Write off pos i) in
  let i' := snd (index.Write off pos i) in
  (o = Ok () ∨ o = Err EOF)
  ∧ (o = Err EOF → i' = i)
  ∧ (o = Ok () → index.size i' = index.size i + 12)
  ∧ index.file i' = index.file i
  ∧ len (index.mmap i') = len (index.mmap i)
  ∧ 0 <= index.size i' <= len (index.mmap i')
  ∧ ((12 | index.size i) → (12 | index.size i')).
Proof.
  intros Hs Hl. cbv zeta.
  destruct (Z.lt_ge_cases (len (index.mmap i)) (index.size i + 12)).
  - rewrite index_Write_full by lia. cbn [fst snd].
    split; [right; reflexivity|]. split; [reflexivity|].
    split; [discriminate|]. split; [reflexivity|]. split; [reflexivity|].
    split; [lia|]. auto.
  - rewrite index_Write_ok by lia. cbn [fst snd].
    fold (written i off pos).
    rewrite written_len by lia. unfold written. cbn [index.size index.file].
    split; [left; reflexivity|]. split; [discriminate|].
    split; [reflexivity|]. split; [reflexivity|]. split; [reflexivity|].
    split; [lia|].
    intros [q Hq]. exists (q + 1). lia.
Qed.

Lemma index_Write_invariant_witness :
  fst (index.Write 5 1000 demo_index) = Ok ()
  ∨ fst (index.Write 5 1000 demo_index) = Err EOF.
Proof.
  refine (proj1 (index_Write_invariant 5 1000 demo_index _ _)).
  - vm_compute. split; discriminate.
  - vm_compute. reflexivity.
Defined.

(** ** Construction over an index file that does not fit *)





(** X7.  With a configured length of zero, or one that is negative as the
    [int64] handed to the truncation ([2^63] and above), [newSegment] on
    a machine that raises no failure fails with an invalid-argument
    error, after it has created and opened both files. *)
Theorem newSegment_bad_capacity (dir : string) (base : Z) (c : Config)
    (w : World) :
  faults w = [] → int64 (MaxIndexBytes (Segment c)) <= 0 →
  ∃ w',
    segment.newSegment dir base c w = (Err EINVAL, w')
    ∧ is_Some (files w' !! store_path dir base)
    ∧ is_Some (files w' !! index_path dir base)
    ∧ next_fd w ∈ handles w' ∧ S (next_fd w) ∈ handles w'.
Proof.
  intros Hq Hcap.
  destruct (newSegment_quiet dir base c w Hq)
    as (w1 & w2 & E & Hq2 & Hh2 & Hfs & Hfi).
  cbv zeta in E.
  pose proof (store_index_paths dir base) as Hne.
  assert (Hw2 : is_Some (files w2 !! store_path dir base)
                ∧ is_Some (files w2 !! index_path dir base)
                ∧ next_fd w ∈ handles w2 ∧ S (next_fd w) ∈ handles w2).
  { rewrite Hfs, Hfi, Hh2. split; [eauto|]. split; [eauto|].
    split.
    - apply elem_of_union_r, elem_of_union_l, elem_of_singleton. reflexivity.
    - apply elem_of_union_l, elem_of_singleton. reflexivity. }
  destruct (Z.ltb_spec (int64 (MaxIndexBytes (Segment c))) 0) as [Hneg|Hpos].
  - (* the truncation is refused: the machine is the one after the opens *)
    clear E Hq2 Hh2 Hfs Hfi Hw2 w1 w2.
    destruct (OpenFile_create_quiet (store_path dir base)
                [O_RDWR; O_CREATE; O_APPEND] 420 w Hq eq_refl)
      as (F1 & HO1 & HF1 & HF1').
    set (wa := mkWorld F1 ({[next_fd w]} ∪ handles w) (S (next_fd w)) []) in *.
    destruct (OpenFile_create_quiet (index_path dir base)
                [O_RDWR; O_CREATE] 420 wa eq_refl eq_refl)
      as (F2 & HO2 & HF2 & HF2').
    simpl in HO2, HF2, HF2'.
    set (wb := mkWorld F2 ({[S (next_fd w)]} ∪ ({[next_fd w]} ∪ handles w))
                 (S (S (next_fd w))) []) in *.
    exists wb. split.
    + unfold segment.newSegment.
      fold (store_path dir base). fold (index_path dir base).
      rewrite (bind_Ok _ _ _ _ _ HO1).
      assert (HS : store.newStore (mkFile (next_fd w) (store_path dir base)) wa
                   = (Ok (store.mk (mkFile (next_fd w) (store_path dir base))
                            (uint64 (len (content w (store_path dir base))))),
                      wa)).
      { unfold store.newStore. erewrite bind_Ok; [reflexivity|].
        apply Stat_quiet; [reflexivity|exact HF1]. }
      rewrite (bind_Ok _ _ _ _ _ HS).
      rewrite (bind_Ok _ _ _ _ _ HO2).
      assert (Hh : fd (mkFile (S (next_fd w)) (index_path dir base))
                   ∈ handles wb).
      { unfold wb. cbn [fd handles].
        apply elem_of_union_l, elem_of_singleton. reflexivity. }
      pose proof (newIndex_quiet _ c wb _ eq_refl Hh HF2) as HN.
      cbv zeta in HN.
      destruct (Z.ltb_spec (int64 (MaxIndexBytes (Segment c))) 0); [|lia].
      apply bind_Err. exact HN.
    + unfold wb. cbn [files handles].
      split; [rewrite HF2' by congruence; rewrite HF1; eauto|].
      split; [rewrite HF2; eauto|].
      split.
      * apply elem_of_union_r, elem_of_union_l, elem_of_singleton. reflexivity.
      * apply elem_of_union_l, elem_of_singleton. reflexivity.
  - destruct (Z.eqb_spec (int64 (MaxIndexBytes (Segment c))) 0); [|lia].
    exists w2. split; [exact E|exact Hw2].
Qed.

Lemma newSegment_bad_capacity_witness :
  ∃ w',
    segment.newSegment "/log" 7 (mkConfig (mkSegmentConfig 1024 (2 ^ 63)))
      empty_world = (Err EINVAL, w')
    ∧ is_Some (files w' !! store_path "/log" 7).
Proof.
  destruct (newSegment_bad_capacity "/log" 7
              (mkConfig (mkSegmentConfig 1024 (2 ^ 63))) empty_world)
    as (w' & E & Hs & _).
  - reflexivity.
  - vm_compute. discriminate.
  - exists w'. split; [exact E|exact Hs].
Defined.

(** ** Reads of offsets that have no entry *)

(** X8.  [Read] of an offset whose distance from the base offset is below
    [2^32] and has no entry in the index fails with [io.EOF] before the
    store is consulted: on any machine, whatever failures it is about to
    raise, the segment and the machine are left as they were.  So does
    every [Read] on a segment whose index is empty. *)
Theorem segment_Read_no_entry `{Codec} (off : Z) (s : segment.t)
    (w : World) :
  index.size (segment.index s) = 0
  ∨ (index.size (segment.index s)
       <= 12 * uint64 (off - segment.baseOffset s)
     ∧ uint64 (off - segment.baseOffset s) < 2 ^ 32) →
  segment.Read off (s, w) = (Err EOF, (s, w)).
Proof.
  intros Hc.
  assert (HR : index.Read (segment.index s)
                 (int64 (uint64 (off - segment.baseOffset s))) = Err EOF).
  { destruct Hc as [H0|[Hsz Hd]]; [apply index_Read_empty; exact H0|].
    pose proof (uint64_range (off - segment.baseOffset s)) as Hrange.
    set (d := uint64 (off - segment.baseOffset s)) in *.
    rewrite (int64_id d) by lia. rewrite index_Read_unfold.
    rewrite entry_number_small by lia.
    destruct (index.size (segment.index s) =? 0); [reflexivity|].
    destruct (Z.ltb_spec (index.size (segment.index s)) (12 * d + 12));
      [reflexivity|lia]. }
  unfold segment.Read, bind, on_self, get, pure. cbn [fst snd].
  rewrite HR. reflexivity.
Qed.

Lemma segment_Read_no_entry_witness :
  @segment.Read fixed_codec 8
    (fst (demo_segment 7), world_failing_at 0 (EIO 5))
  = (Err EOF, (fst (demo_segment 7), world_failing_at 0 (EIO 5))).
Proof.
  apply (@segment_Read_no_entry fixed_codec 8 (fst (demo_segment 7))
           (world_failing_at 0 (EIO 5))).
  left. vm_compute. reflexivity.
Defined.

(** ** More on [nearestMultiple] *)

Lemma nearestMultiple_Ok (j k : Z) :
  is_uint64 j → is_uint64 k → 0 < k →
  segment.nearestMultiple j k = Ok (j / k * k).
Proof.
  intros [Hj0 Hj] [Hk0 Hk] Hpos.
  assert (Hle : j / k * k <= j)
    by (rewrite Z.mul_comm; apply Z.mul_div_le; lia).
  assert (Hq : 0 <= j / k) by (apply Z.div_pos; lia).
  unfold segment.nearestMultiple, segment.div.
  destruct (Z.leb_spec 0 j); [|lia].
  destruct (Z.eqb_spec k 0); [lia|]. simpl.
  rewrite uint64_id; [reflexivity|]. nia.
Qed.

(** X9.  [nearestMultiple] divides by [k] unguarded: with [k = 0] it
    panics for every [j].  With [k > 0] its result [m] lies less than [k]
    below [j], equals [j] exactly when [k] divides [j], is returned
    unchanged when rounded again, and grows with [j]. *)
Theorem nearestMultiple_properties (j k : Z) :
  is_uint64 j → is_uint64 k →
  (k = 0 → segment.nearestMultiple j k = Panic)
  ∧ (0 < k →
     ∃ m, segment.nearestMultiple j k = Ok m
          ∧ is_uint64 m
          ∧ j - k < m
          ∧ (m = j ↔ (k | j))
          ∧ segment.nearestMultiple m k = Ok m
          ∧ ∀ j', is_uint64 j' → j <= j' →
              ∃ m', segment.nearestMultiple j' k = Ok m' ∧ m <= m').
Proof.
  intros Hj Hk. split.
  - intros ->. unfold segment.nearestMultiple, segment.div.
    destruct (0 <=? j); reflexivity.
  - intros Hpos. exists (j / k * k).
    destruct Hj as [Hj0 Hj1].
    assert (Hle : j / k * k <= j)
      by (rewrite Z.mul_comm; apply Z.mul_div_le; lia).
    assert (Hq : 0 <= j / k) by (apply Z.div_pos; lia).
    assert (Hm : is_uint64 (j / k * k)) by (unfold is_uint64; nia).
    pose proof (Z.mod_pos_bound j k Hpos) as Hmod.
    pose proof (Z.div_mod j k ltac:(lia)) as Hdm.
    split; [apply nearestMultiple_Ok; unfold is_uint64; auto|].
    split; [exact Hm|].
    split; [nia|].
    split.
    + split.
      * intros E. exists (j / k). lia.
      * intros [q ->]. rewrite Z.div_mul by lia. reflexivity.
    + split.
      * rewrite nearestMultiple_Ok by auto.
        rewrite Z.div_mul by lia. reflexivity.
      * intros j' Hj' Hjj'. exists (j' / k * k).
        split; [apply nearestMultiple_Ok; auto|].
        pose proof (Z.div_le_mono j j' k Hpos Hjj'). nia.
Qed.

Lemma nearestMultiple_properties_witness :
  (0 = 0 → segment.nearestMultiple 17 0 = Panic)
  ∧ (∃ m, segment.nearestMultiple 17 5 = Ok m ∧ 17 - 5 < m).
Proof.
  split.
  - apply (nearestMultiple_properties 17 0); unfold is_uint64; lia.
  - destruct (proj2 (nearestMultiple_properties 17 5
                       ltac:(unfold is_uint64; lia)
                       ltac:(unfold is_uint64; lia))
                ltac:(lia))
      as (m & E & _ & Hlt & _).
    exists m. split; [exact E|exact Hlt].
Defined.

(** ** Construction over an index file that was not closed *)




(** ** Closing the index *)

(** One step of [Close] on an open file, by the head of the failure
    schedule. *)
Lemma syscall_step w o fs :
  faults w = o :: fs →
  os.syscall w =
  (match o with Some e => Err e | None => Ok () end,
   mkWorld (files w) (handles w) (next_fd w) fs).
Proof. intros E. unfold os.syscall. rewrite E. destruct o; reflexivity. Qed.

Lemma Sync_step f m w b o fs :
  fd f ∈ handles w → files w !! file_name f = Some b → faults w = o :: fs →
  gommap.Sync f m w =
  match o with
  | Some e => (Err e, mkWorld (files w) (handles w) (next_fd w) fs)
  | None =>
      (Ok (), mkWorld (<[file_name f := m ++ drop (length m) b]> (files w))
                (handles w) (next_fd w) fs)
  end.
Proof.
  intros Hh Hf E. unfold gommap.Sync.
  rewrite (bind_Ok _ _ _ _ _ (opened_ok f w b Hh Hf)).
  unfold bind. rewrite (syscall_step w o fs E). destruct o; reflexivity.
Qed.

Lemma File_Sync_step f w b o fs :
  fd f ∈ handles w → files w !! file_name f = Some b → faults w = o :: fs →
  os.File_Sync f w =
  (match o with Some e => Err e | None => Ok () end,
   mkWorld (files w) (handles w) (next_fd w) fs).
Proof.
  intros Hh Hf E. unfold os.File_Sync.
  rewrite (bind_Ok _ _ _ _ _ (opened_ok f w b Hh Hf)).
  apply syscall_step. exact E.
Qed.

Lemma File_Truncate_step f n w b o fs :
  fd f ∈ handles w → files w !! file_name f = Some b → faults w = o :: fs →
  0 <= n →
  os.File_Truncate f n w =
  match o with
  | Some e => (Err e, mkWorld (files w) (handles w) (next_fd w) fs)
  | None =>
      (Ok (), mkWorld (<[file_name f := resize n b]> (files w))
                (handles w) (next_fd w) fs)
  end.
Proof.
  intros Hh Hf E Hn. unfold os.File_Truncate.
  rewrite (bind_Ok _ _ _ _ _ (opened_ok f w b Hh Hf)).
  unfold bind. rewrite (syscall_step w o fs E).
  destruct o; [reflexivity|].
  destruct (Z.ltb_spec n 0); [lia|]. reflexivity.
Qed.

Lemma File_Close_step f w b o fs :
  fd f ∈ handles w → files w !! file_name f = Some b → faults w = o :: fs →
  os.File_Close f w =
  (match o with Some e => Err e | None => Ok () end,
   mkWorld (files w) (handles w ∖ {[fd f]}) (next_fd w) fs).
Proof.
  intros Hh Hf E. unfold os.File_Close.
  rewrite (bind_Ok _ _ _ _ _ (opened_ok f w b Hh Hf)).
  unfold bind at 1. unfold bind. unfold os.syscall. cbn [faults].
  rewrite E. destruct o; reflexivity.
Qed.

Lemma resize_cut (n : Z) (b : list byte) :
  n <= len b → resize n b = take (Z.to_nat n) b.
Proof.
  intros H. unfold resize.
  replace (Z.to_nat n - length b)%nat with 0%nat by (unfold len in *; lia).
  simpl. apply app_nil_r.
Qed.

Lemma Sync_covers (m b : list byte) :
  len b = len m → m ++ drop (length m) b = m.
Proof.
  intros H. rewrite drop_ge by (unfold len in H; lia). apply app_nil_r.
Qed.

(** X11.  [Close] of the index takes four system calls: the
    synchronisation of the mapped region, that of the file, the
    truncation and the close.  When one of the first three fails,
    [Close] returns its error at once: the descriptor stays open and the
    file keeps the length of the mapped region, not the number of bytes
    written.  When the close itself fails, the error is returned with
    the descriptor released and the file cut to [size]. *)
Theorem index_Close_failure (i : index.t) (w : World) (ib : list byte)
    (k : nat) (e : error) (rest : list (option error)) :
  fd (index.file i) ∈ handles w →
  files w !! file_name (index.file i) = Some ib →
  len ib = len (index.mmap i) →
  0 <= index.size i <= len (index.mmap i) → index.size i < 2 ^ 63 →
  faults w = replicate k None ++ Some e :: rest → (k <= 3)%nat →
  ∃ w',
    index.Close i w = (Err e, w')
    ∧ faults w' = rest
    ∧ ((k < 3)%nat →
       fd (index.file i) ∈ handles w'
       ∧ len (content w' (file_name (index.file i))) = len (index.mmap i))
    ∧ (k = 3%nat →
       (fd (index.file i) ∉ handles w')
       ∧ content w' (file_name (index.file i))
         = take (Z.to_nat (index.size i)) (index.mmap i)).
Proof.
  intros Hh Hf Hl Hs Hs63 Hq Hk.
  assert (Hi64 : int64 (index.size i) = index.size i)
    by (apply int64_id; lia).
  unfold index.Close. rewrite Hi64.
  set (f := index.file i) in *. set (m := index.mmap i) in *.
  destruct k as [|k]; simpl in Hq.
  { (* the synchronisation of the region fails *)
    rewrite (bind_Err _ _ _ _ _ (Sync_step f m w ib _ _ Hh Hf Hq)).
    eexists; split; [reflexivity|]. split; [reflexivity|].
    split; [|discriminate]. intros _. split; [exact Hh|].
    unfold content. cbn [files]. rewrite Hf. exact Hl. }
  rewrite (bind_Ok _ _ _ _ _ (Sync_step f m w ib _ _ Hh Hf Hq)).
  rewrite (Sync_covers m ib Hl).
  set (w1 := mkWorld _ _ _ _).
  assert (Hf1 : files w1 !! file_name f = Some m) by apply lookup_insert_eq.
  destruct k as [|k]; simpl in Hq.
  { (* the synchronisation of the file fails *)
    rewrite (bind_Err _ _ _ _ _
               (File_Sync_step f w1 m _ _ Hh Hf1 eq_refl)).
    eexists; split; [reflexivity|]. split; [reflexivity|].
    split; [|discriminate]. intros _. split; [exact Hh|].
    change (len (default [] (files w1 !! file_name f)) = len m).
    rewrite Hf1. reflexivity. }
  rewrite (bind_Ok _ _ _ _ _ (File_Sync_step f w1 m _ _ Hh Hf1 eq_refl)).
  set (w2 := mkWorld _ _ _ _).
  destruct k as [|k].
  { (* the truncation fails *)
    rewrite (bind_Err _ _ _ _ _
               (File_Truncate_step f (index.size i) w2 m _ _ Hh Hf1 eq_refl
                  ltac:(lia))).
    eexists; split; [reflexivity|]. split; [reflexivity|].
    split; [|discriminate]. intros _. split; [exact Hh|].
    change (len (default [] (files w1 !! file_name f)) = len m).
    rewrite Hf1. reflexivity. }
  rewrite (bind_Ok _ _ _ _ _
             (File_Truncate_step f (index.size i) w2 m _ _ Hh Hf1 eq_refl
                ltac:(lia))).
  rewrite resize_cut by lia.
  set (w3 := mkWorld _ _ _ _).
  assert (Hf3 : files w3 !! file_name f
                = Some (take (Z.to_nat (index.size i)) m))
    by apply lookup_insert_eq.
  destruct k as [|k]; [|lia].
  (* the close fails *)
  rewrite (File_Close_step f w3 _ _ _ Hh Hf3 eq_refl).
  eexists; split; [reflexivity|]. split; [reflexivity|].
  split; [intros; lia|]. intros _. split.
  - cbn [handles]. intros Hin. apply elem_of_difference in Hin.
    destruct Hin as [_ Hn]. apply Hn, elem_of_singleton. reflexivity.
  - change (default [] (files w3 !! file_name f)
            = take (Z.to_nat (index.size i)) m).
    rewrite Hf3. reflexivity.
Qed.

Lemma index_Close_failure_witness :
  ∃ w',
    index.Close demo_index_written
      (demo_index_world [None; None; Some (EIO 5)]) = (Err (EIO 5), w')
    ∧ faults w' = []
    ∧ ((2 < 3)%nat →
       1%nat ∈ handles w' ∧ len (content w' "/log/7.index") = 24).
Proof.
  destruct (index_Close_failure demo_index_written
              (demo_index_world [None; None; Some (EIO 5)])
              (replicate 24 x00) 2 (EIO 5) [])
    as (w' & E & Hq & Hlt & _).
  - vm_compute. reflexivity.
  - vm_compute. reflexivity.
  - vm_compute. reflexivity.
  - vm_compute. split; discriminate.
  - vm_compute. reflexivity.
  - reflexivity.
  - lia.
  - exists w'. split; [exact E|]. split; [exact Hq|]. exact Hlt.
Defined.

(** ** Closing the index and mapping it again *)

(** X12.  On a machine that raises no failure, [Close] of an index whose
    file is open and as long as the mapped region succeeds: the
    descriptor is released and the file holds the first [size] bytes of
    the region.  Opening the file again and constructing the index over
    it, with a configured length that covers [size], gives an index with
    the same [size] that answers every [Read] as the closed one did. *)
Theorem index_Close_reopen (i : index.t) (c : Config) (w : World)
    (ib : list byte) :
  faults w = [] → fd (index.file i) ∈ handles w →
  files w !! file_name (index.file i) = Some ib →
  len ib = len (index.mmap i) →
  0 <= index.size i <= len (index.mmap i) →
  index.size i <= int64 (MaxIndexBytes (Segment c)) →
  0 < int64 (MaxIndexBytes (Segment c)) →
  ∃ w1 g w2 i' w3,
    index.Close i w = (Ok (), w1)
    ∧ (fd (index.file i) ∉ handles w1)
    ∧ files w1 !! file_name (index.file i)
      = Some (take (Z.to_nat (index.size i)) (index.mmap i))
    ∧ os.OpenFile (file_name (index.file i)) [O_RDWR; O_CREATE] 420 w1
      = (Ok g, w2)
    ∧ index.newIndex g c w2 = (Ok i', w3)
    ∧ index.size i' = index.size i
    ∧ len (index.mmap i') = int64 (MaxIndexBytes (Segment c))
    ∧ ∀ in_, index.Read i' in_ = index.Read i in_.
Proof.
  intros Hq Hh Hf Hl Hs Hcap Hcap0.
  pose proof (int64_range (MaxIndexBytes (Segment c))) as Hr.
  assert (Hi64 : int64 (index.size i) = index.size i)
    by (apply int64_id; lia).
  set (f := index.file i) in *. set (m := index.mmap i) in *.
  set (cap := int64 (MaxIndexBytes (Segment c))) in *.
  pose proof (Sync_quiet f m w ib Hq Hh Hf) as E1.
  rewrite (Sync_covers m ib Hl) in E1.
  set (w1 := set_files _ w) in E1.
  assert (Hf1 : files w1 !! file_name f = Some m) by apply lookup_insert_eq.
  pose proof (File_Sync_quiet f w1 m Hq Hh Hf1) as E2.
  pose proof (File_Truncate_quiet f (index.size i) w1 m Hq Hh Hf1
                ltac:(lia)) as E3.
  rewrite resize_cut in E3 by lia.
  set (b := take (Z.to_nat (index.size i)) m) in *.
  set (w2 := set_files _ w1) in E3.
  assert (Hf2 : files w2 !! file_name f = Some b) by apply lookup_insert_eq.
  pose proof (File_Close_quiet f w2 b Hq Hh Hf2) as E4.
  set (w3 := mkWorld _ _ _ _) in E4.
  assert (EC : index.Close i w = (Ok (), w3)).
  { unfold index.Close. fold f m.
    rewrite (bind_Ok _ _ _ _ _ E1), (bind_Ok _ _ _ _ _ E2).
    rewrite Hi64. rewrite (bind_Ok _ _ _ _ _ E3). exact E4. }
  assert (Hlb : len b = index.size i).
  { unfold b, len. rewrite length_take. unfold len in Hs. lia. }
  pose proof (OpenFile_quiet (file_name f) [O_RDWR; O_CREATE] 420 w3 eq_refl)
    as EO.
  replace (files w3 !! file_name f) with (Some b) in EO by (symmetry; exact Hf2).
  set (g := mkFile (next_fd w3) (file_name f)) in EO.
  set (w4 := mkWorld _ _ _ _) in EO.
  assert (Hg : fd g ∈ handles w4).
  { unfold w4, g. cbn [fd handles].
    apply elem_of_union_l, elem_of_singleton. reflexivity. }
  pose proof (newIndex_quiet g c w4 b eq_refl Hg Hf2) as EN.
  cbv zeta in EN. fold cap in EN.
  destruct (Z.ltb_spec cap 0); [lia|].
  destruct (Z.eqb_spec cap 0); [lia|].
  eexists w3, g, w4, _, _.
  split; [exact EC|].
  split.
  { unfold w3. cbn [handles]. intros Hin. apply elem_of_difference in Hin.
    destruct Hin as [_ Hn]. apply Hn, elem_of_singleton. reflexivity. }
  split; [exact Hf2|].
  split; [exact EO|].
  split; [exact EN|].
  cbn [index.size index.mmap].
  split; [rewrite Hlb; apply uint64_id; lia|].
  split; [apply len_resize; lia|].
  intros in_. apply index_Read_agree; cbn [index.size index.mmap].
  - rewrite Hlb. apply uint64_id. lia.
  - rewrite Hlb, (uint64_id (index.size i)) by lia.
    rewrite <- Hlb at 1. rewrite resize_prefix by lia. reflexivity.
  - rewrite Hlb, (uint64_id (index.size i)) by lia.
    rewrite len_resize by lia. exact Hcap.
  - rewrite Hlb, (uint64_id (index.size i)) by lia. fold m. lia.
Qed.

Lemma index_Close_reopen_witness :
  ∃ w1 g w2 i' w3,
    index.Close demo_index_written (demo_index_world []) = (Ok (), w1)
    ∧ (1%nat ∉ handles w1)
    ∧ files w1 !! "/log/7.index"
      = Some (take (Z.to_nat 12) (index.mmap demo_index_written))
    ∧ os.OpenFile "/log/7.index" [O_RDWR; O_CREATE] 420 w1 = (Ok g, w2)
    ∧ index.newIndex g demo_config w2 = (Ok i', w3)
    ∧ index.size i' = 12
    ∧ len (index.mmap i') = 24
    ∧ ∀ in_, index.Read i' in_ = index.Read demo_index_written in_.
Proof.
  apply (index_Close_reopen demo_index_written demo_config
           (demo_index_world []) (replicate 24 x00)).
  - reflexivity.
  - vm_compute. reflexivity.
  - vm_compute. reflexivity.
  - vm_compute. reflexivity.
  - vm_compute. split; discriminate.
  - vm_compute. discriminate.
  - vm_compute. reflexivity.
Defined.

(** ** Earlier records under later appends *)

Lemma read_frame_prefix (b x : list byte) (pos : Z) (p : list byte) :
  read_frame b pos = Ok p → read_frame (b ++ x) pos = Ok p.
Proof.
  unfold read_frame. rewrite len_app. pose proof (len_nonneg x) as Hx.
  destruct (Z.leb_spec 0 pos) as [Hp|]; [|discriminate].
  cbn [andb]. simpl (0 <=? 8).
  cbn [andb].
  destruct (Z.leb_spec (pos + 8) (len b)) as [H8|]; [|discriminate].
  destruct (Z.leb_spec (pos + 8) (len b + len x)); [|lia].
  assert (Hhdr : take (Z.to_nat 8) (drop (Z.to_nat pos) (b ++ x))
                 = take (Z.to_nat 8) (drop (Z.to_nat pos) b)).
  { rewrite drop_app_le by (unfold len in *; lia).
    apply take_app_le. rewrite length_drop. unfold len in *. lia. }
  rewrite Hhdr.
  set (n := enc.Uint64 _). set (q := uint64 (pos + 8)).
  destruct (Z.leb_spec 0 q) as [Hq|]; [|discriminate].
  destruct (Z.leb_spec 0 n) as [Hn|]; [|discriminate].
  cbn [andb].
  destruct (Z.leb_spec (q + n) (len b)) as [Hqn|]; [|discriminate].
  destruct (Z.leb_spec (q + n) (len b + len x)); [|lia].
  intros E. rewrite <- E. f_equal.
  rewrite drop_app_le by (unfold len in *; lia).
  apply take_app_le. rewrite length_drop. unfold len in *. lia.
Qed.

(** What [Append] does to a segment that agrees with the machine: the
    store's file keeps its bytes and may gain some, and the index is kept
    or gains one entry. *)
Lemma Append_shape `{Codec} (dir : string) (base : Z) (c : Config)
    (r : api_Record) (s : segment.t) (w : World) o r' s' w' :
  attached dir base c s w →
  segment.Append (r, (s, w)) = (o, (r', (s', w'))) →
  ∃ x, content w' (store_path dir base)
       = content w (store_path dir base) ++ x
       ∧ (segment.index s' = segment.index s
          ∨ segment.index s'
            = written (segment.index s)
                (uint32 (uint64 (segment.nextOffset s - base)))
                (len (content w (store_path dir base)))
            ∧ index.size (segment.index s) + 12
              <= len (index.mmap (segment.index s))
            ∧ o = Ok (segment.nextOffset s)
            ∧ ∃ p, Marshal (set_Offset (segment.nextOffset s) r) = Ok p
                   ∧ x = enc.PutUint64 (len p) ++ p
                   ∧ len (content w (store_path dir base)) + (8 + len p)
                     < 2 ^ 63).
Proof.
  intros Hatt E.
  destruct Hatt as [Hq Hbase Hcfg Hsn Hin Hso Hio Hfds (b & Hfb & Hsz & Hb63)
    (ib & Hfi & Hil) [Hcap Hcap0] (n & Hn & Hisz & Hn12 & Hnext)].
  pose proof (int64_range (MaxIndexBytes (Segment c))) as Hr.
  assert (Hc : content w (store_path dir base) = b)
    by (unfold content; rewrite Hfb; reflexivity).
  rewrite Hc. rewrite <- Hsn in Hfb.
  rewrite (Append_quiet r s w b Hq Hso Hfb Hsz) in E by lia.
  cbv zeta in E.
  assert (Hsame : content w (store_path dir base) = b ++ [])
    by (rewrite app_nil_r; exact Hc).
  destruct (Marshal _) as [p|e|] eqn:Hp;
    [|injection E as <- <- <- <-; exists []; auto..].
  destruct (Z.leb_spec (2 ^ 63) (len b + (8 + len p)));
    [injection E as <- <- <- <-; exists []; auto|].
  match type of E with
  | context [set_files (<[_ := ?y]> _) _] => remember y as fb eqn:Hfb'
  end.
  assert (Hcw : content (set_files (<[file_name (store.file (segment.store s))
                   := fb]> (files w)) w) (store_path dir base) = fb).
  { unfold content, set_files. cbn [files].
    rewrite Hsn, lookup_insert_eq. reflexivity. }
  exists (enc.PutUint64 (len p) ++ p).
  destruct (Z.ltb_spec (len (index.mmap (segment.index s)))
              (index.size (segment.index s) + 12));
    injection E as <- <- <- <-; rewrite Hcw; proj_simpl.
  - split; [exact Hfb'|]. left. reflexivity.
  - split; [exact Hfb'|]. right. rewrite Hbase.
    split; [reflexivity|]. split; [lia|]. split; [reflexivity|].
    exists p. auto.
Qed.

(** The record that a successful [Append] wrote is the one that [Read]
    finds at the returned offset. *)
Lemma Append_Read_attached `{C : Codec} {L : CodecLaws C}
    (dir : string) (base : Z) (c : Config) (s : segment.t) (w : World)
    (r : api_Record) (off : Z) (r' : api_Record) (s' : segment.t)
    (w' : World) :
  is_uint64 base → int64 (MaxIndexBytes (Segment c)) <= 12 * 2 ^ 32 →
  attached dir base c s w →
  segment.Append (r, (s, w)) = (Ok off, (r', (s', w'))) →
  read_result (segment.index s') base (content w' (store_path dir base)) off
  = Ok (mkRecord (Value r) off, None)
  ∧ 12 * uint64 (off - base) + 12 <= index.size (segment.index s')
  ∧ uint64 (off - base) < 2 ^ 32.
Proof.
  intros Hb Hc Hatt E.
  destruct (Append_shape dir base c r s w _ _ _ _ Hatt E)
    as (x & Hx & [Hix|(Hix & Hroom & Ho & p & Hp & -> & Hlen)]).
  { (* an unchanged index means that the call failed *)
    exfalso.
    destruct Hatt as [Hq Hbase Hcfg Hsn Hin Hso Hio Hfds
      (b & Hfb & Hsz & Hb63) (ib & Hfi & Hil) [Hcap Hcap0]
      (n & Hn & Hisz & Hn12 & Hnext)].
    rewrite <- Hsn in Hfb.
    rewrite (Append_quiet r s w b Hq Hso Hfb Hsz) in E by lia.
    cbv zeta in E.
    destruct (Marshal _) as [p|e|]; [|discriminate..].
    destruct (Z.leb_spec (2 ^ 63) (len b + (8 + len p))); [discriminate|].
    destruct (Z.ltb_spec (len (index.mmap (segment.index s)))
                (index.size (segment.index s) + 12)); [discriminate|].
    injection E as _ _ Es _. rewrite <- Es in Hix. proj_simpl.
    apply (f_equal index.size) in Hix. unfold written in Hix.
    proj_simpl. lia. }
  injection Ho as ->.
  destruct Hatt as [Hq Hbase Hcfg Hsn Hin Hso Hio Hfds (b & Hfb & Hsz & Hb63)
    (ib & Hfi & Hil) [Hcap Hcap0] (n & Hn & Hisz & Hn12 & Hnext)].
  assert (Hcb : content w (store_path dir base) = b)
    by (unfold content; rewrite Hfb; reflexivity).
  rewrite Hcb in *.
  assert (Hn32 : n < 2 ^ 32) by lia.
  assert (Hd : uint64 (segment.nextOffset s - base) = n)
    by (rewrite Hnext; apply uint64_sub_base; lia).
  rewrite Hd, Hix. unfold written at 2. proj_simpl.
  split; [|lia].
  rewrite Hx. unfold read_result. rewrite Hd.
  rewrite (int64_id n) by lia.
  assert (HR : index.Read (written (segment.index s) (uint32 n) (len b)) n
               = Ok (n, len b)).
  { rewrite index_Read_entry
      by (unfold written; proj_simpl; lia).
    unfold written. proj_simpl. rewrite Hisz.
    rewrite entry_at_written by lia.
    rewrite !(uint32_id n) by lia.
    rewrite uint64_id by (pose proof (len_nonneg b); lia).
    reflexivity. }
  rewrite HR, read_frame_appended by lia.
  rewrite (Unmarshal_Marshal _ _ Hp). reflexivity.
Qed.

(** A read that succeeded before an [Append] succeeds after it, with the
    same result. *)
Lemma Append_keeps_read `{Codec} (dir : string) (base : Z) (c : Config)
    (r : api_Record) (s : segment.t) (w : World) o r' s' w'
    (off : Z) (x : api_Record * option error) :
  attached dir base c s w →
  segment.Append (r, (s, w)) = (o, (r', (s', w'))) →
  12 * uint64 (off - base) + 12 <= index.size (segment.index s) →
  uint64 (off - base) < 2 ^ 32 →
  read_result (segment.index s) base (content w (store_path dir base)) off
  = Ok x →
  read_result (segment.index s') base (content w' (store_path dir base)) off
  = Ok x
  ∧ index.size (segment.index s) <= index.size (segment.index s').
Proof.
  intros Hatt E Hd Hd32 HR.
  destruct (Append_shape dir base c r s w _ _ _ _ Hatt E)
    as (y & Hy & Hix).
  pose proof (uint64_range (off - base)) as Hrange.
  set (d := uint64 (off - base)) in *.
  assert (Hsame : index.Read (segment.index s') (int64 d)
                  = index.Read (segment.index s) (int64 d)
                  ∧ index.size (segment.index s)
                    <= index.size (segment.index s')).
  { destruct Hix as [->|(-> & Hroom & _)]; [split; [reflexivity|lia]|].
    rewrite (int64_id d) by lia.
    rewrite !index_Read_entry by (unfold written; proj_simpl; lia).
    split; [|unfold written; proj_simpl; lia].
    apply entry_at_written_below; lia. }
  destruct Hsame as [Hsame Hsize]. split; [|exact Hsize].
  unfold read_result in *. fold d in HR. fold d. rewrite Hsame, Hy.
  destruct (index.Read (segment.index s) (int64 d)) as [[rel pos]|e|];
    [|discriminate..].
  destruct (read_frame (content w (store_path dir base)) pos)
    as [p|e|] eqn:Hf; [|discriminate..].
  rewrite (read_frame_prefix _ y pos p Hf). exact HR.
Qed.

(** X13.  [Append] only adds bytes to the store and one entry to the
    index: on a segment that agrees with the machine, a [Read] of an
    offset with an entry that succeeded before an [Append] returns the
    same result after it, whether the [Append] succeeded or failed. *)
Theorem Append_keeps_earlier_reads `{Codec} (dir : string) (base : Z)
    (c : Config) (r : api_Record) (s : segment.t) (w : World) o r' s' w'
    (off : Z) (x : api_Record * option error) :
  attached dir base c s w →
  segment.Append (r, (s, w)) = (o, (r', (s', w'))) →
  12 * uint64 (off - base) + 12 <= index.size (segment.index s) →
  uint64 (off - base) < 2 ^ 32 →
  segment.Read off (s, w) = (Ok x, (s, w)) →
  segment.Read off (s', w') = (Ok x, (s', w')).
Proof.
  intros Hatt E Hd Hd32 HR.
  pose proof (Append_attached dir base c r s w _ _ _ _ Hatt E) as Hatt'.
  rewrite (Read_attached dir base c off s w Hatt) in HR.
  rewrite (Read_attached dir base c off s' w' Hatt'). f_equal.
  injection HR as HR.
  apply (Append_keeps_read dir base c r s w _ _ _ _ off x Hatt E Hd Hd32 HR).
Qed.

Lemma Append_keeps_earlier_reads_witness :
  ∃ s1 w1 o r2 s2 w2,
    snd (snd (@segment.Append fixed_codec (mkRecord [x68] 0, demo_segment 7)))
    = (s1, w1)
    ∧ @segment.Append fixed_codec (mkRecord [x69] 0, (s1, w1))
      = (o, (r2, (s2, w2)))
    ∧ @segment.Read fixed_codec 7 (s2, w2)
      = (Ok (mkRecord [x68] 7, None), (s2, w2)).
Proof.
  assert (Hb : is_uint64 7) by (unfold is_uint64; lia).
  assert (Hfresh : fresh "/log" 7 empty_world) by (split; reflexivity).
  assert (Hnew : segment.newSegment "/log" 7 demo_config empty_world
                 = (Ok (fst (demo_segment 7)), snd (demo_segment 7)))
    by (vm_compute; reflexivity).
  destruct (newSegment_fresh "/log" 7 demo_config empty_world _ _ Hb eq_refl
              Hfresh Hnew) as (Hatt0 & _).
  destruct (@segment.Append fixed_codec (mkRecord [x68] 0, demo_segment 7))
    as [o1 [r1 [s1 w1]]] eqn:E1.
  assert (Hatt1 : attached "/log" 7 demo_config s1 w1).
  { apply (@Append_attached fixed_codec "/log" 7 demo_config
             (mkRecord [x68] 0) (fst (demo_segment 7)) (snd (demo_segment 7))
             o1 r1 s1 w1 Hatt0).
    rewrite <- E1. f_equal. }
  destruct (@segment.Append fixed_codec (mkRecord [x69] 0, (s1, w1)))
    as [o2 [r2 [s2 w2]]] eqn:E2.
  exists s1, w1, o2, r2, s2, w2.
  split; [reflexivity|]. split; [exact E2|].
  apply (@Append_keeps_earlier_reads fixed_codec "/log" 7 demo_config
           (mkRecord [x69] 0) s1 w1 o2 r2 s2 w2 7 _ Hatt1 E2).
  - vm_compute in E1. injection E1 as _ _ <- _. vm_compute. discriminate.
  - vm_compute. reflexivity.
  - vm_compute in E1. injection E1 as _ _ <- <-. vm_compute. reflexivity.
Defined.

(** ** All records of a run *)

(** A run of appends keeps the segment and the machine in agreement, and
    keeps the result of every read that succeeded before it. *)
Lemma run_appends_keeps_read `{Codec} (dir : string) (base : Z) (c : Config)
    (off : Z) (x : api_Record * option error) (rs : list api_Record) :
  ∀ (s : segment.t) (w : World) outs s' w',
    attached dir base c s w →
    run_appends rs (s, w) = (outs, (s', w')) →
    attached dir base c s' w'
    ∧ (12 * uint64 (off - base) + 12 <= index.size (segment.index s) →
       uint64 (off - base) < 2 ^ 32 →
       read_result (segment.index s) base
         (content w (store_path dir base)) off = Ok x →
       read_result (segment.index s') base
         (content w' (store_path dir base)) off = Ok x).
Proof.
  induction rs as [|r rs IH]; intros s w outs s' w' Hatt E.
  - simpl in E. injection E as _ <- <-. auto.
  - simpl in E.
    destruct (segment.Append (r, (s, w))) as [o [r1 [s1 w1]]] eqn:E1.
    destruct (run_appends rs (s1, w1)) as [os [s2 w2]] eqn:E2.
    injection E as _ <- <-.
    pose proof (Append_attached dir base c r s w _ _ _ _ Hatt E1) as Hatt1.
    destruct (IH s1 w1 os s2 w2 Hatt1 E2) as [Hatt2 Hkeep].
    split; [exact Hatt2|]. intros Hd Hd32 HR.
    destruct (Append_keeps_read dir base c r s w _ _ _ _ off x Hatt E1
                Hd Hd32 HR) as [HR1 Hsz].
    apply Hkeep; [lia|exact Hd32|exact HR1].
Qed.

(** X14.  On a segment that agrees with the machine, with a configured
    index length of at most [12 * 2^32] bytes: after a run of appends,
    [Read] of each offset that a call of the run returned gives the
    record of that call, with its offset field set to that offset. *)
Theorem run_appends_Read_all `{C : Codec} {L : CodecLaws C}
    (dir : string) (base : Z) (c : Config) (rs : list api_Record) :
  is_uint64 base → int64 (MaxIndexBytes (Segment c)) <= 12 * 2 ^ 32 →
  ∀ (s : segment.t) (w : World) outs s' w',
    attached dir base c s w →
    run_appends rs (s, w) = (outs, (s', w')) →
    ∀ (j : nat) (r : api_Record) (off : Z),
      rs !! j = Some r → outs !! j = Some (Ok off) →
      segment.Read off (s', w')
      = (Ok (mkRecord (Value r) off, None), (s', w')).
Proof.
  intros Hb Hc.
  induction rs as [|r0 rs IH]; intros s w outs s' w' Hatt E j r off Hr Ho.
  - destruct j; discriminate.
  - simpl in E.
    destruct (segment.Append (r0, (s, w))) as [o [r1 [s1 w1]]] eqn:E1.
    destruct (run_appends rs (s1, w1)) as [os [s2 w2]] eqn:E2.
    injection E as <- <- <-.
    pose proof (Append_attached dir base c r0 s w _ _ _ _ Hatt E1) as Hatt1.
    destruct j as [|j].
    + simpl in Hr, Ho. injection Hr as ->. injection Ho as ->.
      destruct (Append_Read_attached dir base c s w r off r1 s1 w1 Hb Hc
                  Hatt E1) as (HR & Hd & Hd32).
      destruct (run_appends_keeps_read dir base c off
                  (mkRecord (Value r) off, None) rs s1 w1 os s2 w2
                  Hatt1 E2) as [Hatt2 Hkeep].
      rewrite (Read_attached dir base c off s2 w2 Hatt2). f_equal.
      apply Hkeep; assumption.
    + simpl in Hr, Ho.
      apply (IH s1 w1 os s2 w2 Hatt1 E2 j r off Hr Ho).
Qed.

Lemma run_appends_Read_all_witness :
  ∃ outs s' w',
    @run_appends fixed_codec demo_records (demo_segment 7) = (outs, (s', w'))
    ∧ outs !! 1%nat = Some (Ok 8)
    ∧ @segment.Read fixed_codec 8 (s', w')
      = (Ok (mkRecord [x69] 8, None), (s', w')).
Proof.
  assert (Hb : is_uint64 7) by (unfold is_uint64; lia).
  assert (Hc : int64 (MaxIndexBytes (Segment demo_config)) <= 12 * 2 ^ 32)
    by (vm_compute; discriminate).
  assert (Hfresh : fresh "/log" 7 empty_world) by (split; reflexivity).
  assert (Hnew : segment.newSegment "/log" 7 demo_config empty_world
                 = (Ok (fst (demo_segment 7)), snd (demo_segment 7)))
    by (vm_compute; reflexivity).
  destruct (newSegment_fresh "/log" 7 demo_config empty_world _ _ Hb eq_refl
              Hfresh Hnew) as (Hatt0 & _).
  destruct (@run_appends fixed_codec demo_records (demo_segment 7))
    as [outs [s' w']] eqn:E.
  assert (Ho : outs !! 1%nat = Some (Ok 8)).
  { vm_compute in E. injection E as <- _ _. reflexivity. }
  exists outs, s', w'. split; [reflexivity|]. split; [exact Ho|].
  apply (@run_appends_Read_all fixed_codec fixed_codec_laws "/log" 7
           demo_config demo_records Hb Hc (fst (demo_segment 7))
           (snd (demo_segment 7)) outs s' w' Hatt0 E 1%nat
           (mkRecord [x69] 0) 8 eq_refl Ho).
Defined.

(** ** Removing a segment *)

(** System calls that the failure schedule lets pass: the schedule is
    empty or starts with [None]. *)
Lemma Forall_take_tail {A} (P : A → Prop) (k : nat) (l : list A) :
  Forall P (take (S k) l) → Forall P (take k (tail l)).
Proof.
  destruct l as [|a l]; simpl.
  - intros _. destruct k; constructor.
  - intros HF. inversion HF. assumption.
Qed.

Lemma tail_drop {A} (k : nat) : ∀ l : list A, tail (drop k l) = drop (S k) l.
Proof.
  induction k as [|k IH]; intros l.
  - destruct l; reflexivity.
  - destruct l as [|a l]; [reflexivity|]. simpl. apply IH.
Qed.

Lemma world_eta (w : World) :
  mkWorld (files w) (handles w) (next_fd w) (faults w) = w.
Proof. destruct w. reflexivity. Qed.

Lemma syscall_pass w k :
  Forall (eq None) (take (S k) (faults w)) →
  os.syscall w
  = (Ok (), mkWorld (files w) (handles w) (next_fd w) (tail (faults w))).
Proof.
  intros HF. destruct (faults w) as [|o fs] eqn:E.
  - rewrite syscall_quiet by exact E. simpl. rewrite <- E, world_eta.
    reflexivity.
  - simpl in HF. inversion HF as [|? ? Ho _]. subst o.
    rewrite (syscall_step w None fs E). reflexivity.
Qed.

Lemma Sync_pass f m w b k :
  fd f ∈ handles w → files w !! file_name f = Some b →
  Forall (eq None) (take (S k) (faults w)) →
  gommap.Sync f m w
  = (Ok (), mkWorld (<[file_name f := m ++ drop (length m) b]> (files w))
              (handles w) (next_fd w) (tail (faults w))).
Proof.
  intros Hh Hf HF. unfold gommap.Sync.
  rewrite (bind_Ok _ _ _ _ _ (opened_ok f w b Hh Hf)).
  rewrite (bind_Ok _ _ _ _ _ (syscall_pass w k HF)). reflexivity.
Qed.

Lemma File_Sync_pass f w b k :
  fd f ∈ handles w → files w !! file_name f = Some b →
  Forall (eq None) (take (S k) (faults w)) →
  os.File_Sync f w
  = (Ok (), mkWorld (files w) (handles w) (next_fd w) (tail (faults w))).
Proof.
  intros Hh Hf HF. unfold os.File_Sync.
  rewrite (bind_Ok _ _ _ _ _ (opened_ok f w b Hh Hf)).
  apply (syscall_pass w k HF).
Qed.

Lemma File_Truncate_pass f n w b k :
  fd f ∈ handles w → files w !! file_name f = Some b →
  Forall (eq None) (take (S k) (faults w)) → 0 <= n →
  os.File_Truncate f n w
  = (Ok (), mkWorld (<[file_name f := resize n b]> (files w))
              (handles w) (next_fd w) (tail (faults w))).
Proof.
  intros Hh Hf HF Hn. unfold os.File_Truncate.
  rewrite (bind_Ok _ _ _ _ _ (opened_ok f w b Hh Hf)).
  rewrite (bind_Ok _ _ _ _ _ (syscall_pass w k HF)).
  destruct (Z.ltb_spec n 0); [lia|]. reflexivity.
Qed.

Lemma File_Close_pass f w b k :
  fd f ∈ handles w → files w !! file_name f = Some b →
  Forall (eq None) (take (S k) (faults w)) →
  os.File_Close f w
  = (Ok (), mkWorld (files w) (handles w ∖ {[fd f]}) (next_fd w)
              (tail (faults w))).
Proof.
  intros Hh Hf HF. unfold os.File_Close.
  rewrite (bind_Ok _ _ _ _ _ (opened_ok f w b Hh Hf)).
  unfold bind at 1.
  set (w1 := mkWorld _ _ _ _).
  assert (HF1 : Forall (eq None) (take (S k) (faults w1))) by exact HF.
  rewrite (syscall_pass w1 k HF1). reflexivity.
Qed.

Lemma Remove_pass name w b k :
  files w !! name = Some b →
  Forall (eq None) (take (S k) (faults w)) →
  os.Remove name w
  = (Ok (), mkWorld (delete name (files w)) (handles w) (next_fd w)
              (tail (faults w))).
Proof.
  intros Hf HF. unfold os.Remove.
  rewrite (bind_Ok _ _ _ _ _ (syscall_pass w k HF)).
  cbn [files]. rewrite Hf. reflexivity.
Qed.

Lemma Remove_fault name w e fs :
  faults w = Some e :: fs →
  os.Remove name w
  = (Err e, mkWorld (files w) (handles w) (next_fd w) fs).
Proof.
  intros E. unfold os.Remove. apply bind_Err.
  apply (syscall_step w (Some e) fs E).
Qed.

(** [Close] of a segment that agrees with the machine, under a schedule
    that lets its five system calls pass. *)
Lemma Close_pass (dir : string) (base : Z) (c : Config) (s : segment.t)
    (w0 w : World) :
  attached dir base c s w0 →
  files w = files w0 → handles w = handles w0 →
  Forall (eq None) (take 5 (faults w)) →
  ∃ F b,
    segment.Close (s, w)
    = (Ok (), (s, mkWorld F
                    (handles w ∖ {[fd (index.file (segment.index s))]}
                       ∖ {[fd (store.file (segment.store s))]})
                    (next_fd w) (drop 5 (faults w))))
    ∧ files w !! store_path dir base = Some b
    ∧ F !! store_path dir base = Some b
    ∧ F !! index_path dir base
      = Some (take (Z.to_nat (index.size (segment.index s)))
                (index.mmap (segment.index s)))
    ∧ ∀ other, other ≠ index_path dir base → F !! other = files w !! other.
Proof.
  intros [Hq Hbase Hcfg Hsn Hin Hso Hio Hfds (b & Hfb & Hsz & Hb63)
    (ib & Hfi & Hil) [Hcap Hcap0] (n & Hn & Hisz & Hn12 & Hnext)]
    Hfiles Hhandles HF.
  pose proof (int64_range (MaxIndexBytes (Segment c))) as Hr.
  pose proof (store_index_paths dir base) as Hne.
  rewrite <- Hfiles in Hfb, Hfi. rewrite <- Hhandles in Hso, Hio.
  destruct s as [st ix bs nx cf]. proj_simpl. subst bs cf.
  rewrite <- Hin in Hfi.
  set (m := index.mmap ix) in *.
  pose proof (Sync_pass (index.file ix) m w ib 4 Hio Hfi HF) as E1.
  rewrite (Sync_covers m ib Hil) in E1.
  set (w1 := mkWorld _ _ _ _) in E1.
  assert (Hf1 : files w1 !! file_name (index.file ix) = Some m)
    by apply lookup_insert_eq.
  assert (HF1 : Forall (eq None) (take 4 (faults w1)))
    by (apply Forall_take_tail; exact HF).
  pose proof (File_Sync_pass (index.file ix) w1 m 3 Hio Hf1 HF1) as E2.
  set (w2 := mkWorld _ _ _ _) in E2.
  assert (HF2 : Forall (eq None) (take 3 (faults w2)))
    by (apply Forall_take_tail; exact HF1).
  assert (Hi64 : int64 (index.size ix) = index.size ix)
    by (apply int64_id; lia).
  pose proof (File_Truncate_pass (index.file ix) (index.size ix) w2 m 2
                Hio Hf1 HF2 ltac:(lia)) as E3.
  rewrite resize_cut in E3 by lia.
  set (w3 := mkWorld _ _ _ _) in E3.
  assert (Hf3 : files w3 !! file_name (index.file ix)
                = Some (take (Z.to_nat (index.size ix)) m))
    by apply lookup_insert_eq.
  assert (HF3 : Forall (eq None) (take 2 (faults w3)))
    by (apply Forall_take_tail; exact HF2).
  pose proof (File_Close_pass (index.file ix) w3 _ 1 Hio Hf3 HF3) as E4.
  set (w4 := mkWorld _ _ _ _) in E4.
  assert (HF4 : Forall (eq None) (take 1 (faults w4)))
    by (apply Forall_take_tail; exact HF3).
  assert (EI : index.Close ix w = (Ok (), w4)).
  { unfold index.Close. fold m.
    rewrite (bind_Ok _ _ _ _ _ E1), (bind_Ok _ _ _ _ _ E2).
    rewrite Hi64. rewrite (bind_Ok _ _ _ _ _ E3). exact E4. }
  assert (Hso4 : fd (store.file st) ∈ handles w4).
  { unfold w4. cbn [handles]. apply elem_of_difference.
    split; [exact Hso|]. rewrite elem_of_singleton. exact Hfds. }
  assert (Hfs4 : files w4 !! file_name (store.file st) = Some b).
  { unfold w4, w3, w2, w1. cbn [files].
    rewrite Hsn, Hin, !lookup_insert_ne by done. exact Hfb. }
  pose proof (File_Close_pass (store.file st) w4 b 0 Hso4 Hfs4 HF4) as E5.
  exists (files w4), b. split.
  - unfold segment.Close, bind, on_self, on_world, get, segment.in_store,
      store.Close.
    proj_simpl. rewrite EI. unfold bind, on_self, on_world, get.
    proj_simpl. rewrite E5. f_equal. f_equal. f_equal.
    unfold w4, w3, w2, w1. cbn [faults].
    rewrite <- (tail_drop 4), <- (tail_drop 3), <- (tail_drop 2),
      <- (tail_drop 1), <- (tail_drop 0). reflexivity.
  - split; [exact Hfb|].
    split; [rewrite <- Hsn; exact Hfs4|].
    split; [rewrite <- Hin; exact Hf3|].
    intros other Ho. unfold w4, w3, w2, w1. cbn [files].
    rewrite Hin, !lookup_insert_ne by done. reflexivity.
Qed.

(** X15.  On a segment that agrees with the machine, [Remove] succeeds:
    both descriptors are released, both files are gone, every other file
    is as it was, and constructing a segment over the directory again
    starts from an empty index at the base offset. *)
Theorem Remove_attached (dir : string) (base : Z) (c : Config)
    (s : segment.t) (w : World) :
  is_uint64 base → attached dir base c s w →
  ∃ w',
    segment.Remove (s, w) = (Ok (), (s, w'))
    ∧ fresh dir base w' ∧ faults w' = []
    ∧ (fd (store.file (segment.store s)) ∉ handles w')
    ∧ (fd (index.file (segment.index s)) ∉ handles w')
    ∧ (∀ other, other ≠ store_path dir base → other ≠ index_path dir base →
         files w' !! other = files w !! other)
    ∧ ∃ s2 w2,
        segment.newSegment dir base c w' = (Ok s2, w2)
        ∧ index.size (segment.index s2) = 0
        ∧ segment.nextOffset s2 = base.
Proof.
  intros Hb Hatt.
  pose proof (att_quiet _ _ _ _ _ Hatt) as Hq.
  pose proof (att_store_name _ _ _ _ _ Hatt) as Hsn.
  pose proof (att_index_name _ _ _ _ _ Hatt) as Hin.
  pose proof (att_cap _ _ _ _ _ Hatt) as [Hcap Hcap0].
  pose proof (store_index_paths dir base) as Hne.
  assert (HF : Forall (eq None) (take 5 (faults w)))
    by (rewrite Hq; constructor).
  destruct (Close_pass dir base c s w w Hatt eq_refl eq_refl HF)
    as (F & b & EC & _ & HFs & HFi & HFo).
  rewrite Hq in EC. simpl (drop 5 []) in EC.
  set (w1 := mkWorld F _ _ _) in EC.
  assert (HF1 : Forall (eq None) (take 2 (faults w1))) by constructor.
  pose proof (Remove_pass (index_path dir base) w1 _ 1 HFi HF1) as E1.
  set (w2 := mkWorld _ _ _ _) in E1.
  assert (Hs2 : files w2 !! store_path dir base = Some b).
  { unfold w2, w1. cbn [files]. rewrite lookup_delete_ne by done.
    exact HFs. }
  assert (HF2 : Forall (eq None) (take 1 (faults w2))) by constructor.
  pose proof (Remove_pass (store_path dir base) w2 _ 0 Hs2 HF2) as E2.
  set (w3 := mkWorld _ _ _ _) in E2.
  assert (Hfresh : fresh dir base w3).
  { split; unfold w3, w2, w1; cbn [files].
    - apply lookup_delete_eq.
    - rewrite lookup_delete_ne by done. apply lookup_delete_eq. }
  exists w3. split.
  { unfold segment.Remove.
    rewrite (bind_Ok _ _ _ _ _ EC).
    unfold bind at 1, on_self at 1, get at 1. cbn [fst snd].
    unfold index.Name, store.Name, os.File_Name. rewrite Hsn, Hin.
    unfold bind, on_world. cbn [fst snd]. rewrite E1. cbn [fst snd].
      rewrite E2. reflexivity. }
  split; [exact Hfresh|].
  split; [reflexivity|].
  split.
  { unfold w3, w2, w1. cbn [handles]. intros Hx.
    apply elem_of_difference in Hx. destruct Hx as [_ Hx].
    apply Hx, elem_of_singleton. reflexivity. }
  split.
  { unfold w3, w2, w1. cbn [handles]. intros Hx.
    apply elem_of_difference in Hx. destruct Hx as [Hx _].
    apply elem_of_difference in Hx. destruct Hx as [_ Hx].
    apply Hx, elem_of_singleton. reflexivity. }
  split.
  { intros other Hos Hoi. unfold w3, w2, w1. cbn [files].
    rewrite !lookup_delete_ne by done. apply HFo. exact Hoi. }
  destruct Hfresh as [Hfs Hfi].
  assert (Hcs : len (content w3 (store_path dir base)) < 2 ^ 63).
  { unfold content. rewrite Hfs. simpl. unfold len. simpl. lia. }
  assert (Hci : len (content w3 (index_path dir base)) = 12 * 0).
  { unfold content. rewrite Hfi. reflexivity. }
  assert (Hc0 : 0 < int64 (MaxIndexBytes (Segment c)))
    by (rewrite <- Hcap; exact Hcap0).
  destruct (newSegment_attached dir base c w3 0 Hb eq_refl Hcs
              ltac:(lia) ltac:(lia) Hci ltac:(lia) Hc0 ltac:(lia))
    as (s2 & w4 & EN & _ & Hsz & Hnext & _).
  exists s2, w4. split; [exact EN|]. split; [lia|].
  rewrite Hnext. rewrite Z.add_0_r. apply uint64_id. exact Hb.
Qed.

Lemma Remove_attached_witness :
  ∃ w',
    segment.Remove (demo_segment 7) = (Ok (), (fst (demo_segment 7), w'))
    ∧ fresh "/log" 7 w'.
Proof.
  assert (Hb : is_uint64 7) by (unfold is_uint64; lia).
  assert (Hfresh : fresh "/log" 7 empty_world) by (split; reflexivity).
  assert (Hnew : segment.newSegment "/log" 7 demo_config empty_world
                 = (Ok (fst (demo_segment 7)), snd (demo_segment 7)))
    by (vm_compute; reflexivity).
  destruct (newSegment_fresh "/log" 7 demo_config empty_world _ _ Hb eq_refl
              Hfresh Hnew) as (Hatt0 & _).
  destruct (Remove_attached "/log" 7 demo_config (fst (demo_segment 7))
              (snd (demo_segment 7)) Hb Hatt0) as (w' & E & Hf & _).
  exists w'. split; [|exact Hf].
  rewrite <- E. f_equal.
Defined.

(** X16.  [Remove] is not undone when it fails half way.  On a segment
    that agrees with the machine, when the close has passed and the
    removal of the index file fails (the sixth system call), [Remove]
    returns the error with both files in place and both descriptors
    released; when the removal of the store file fails (the seventh),
    the index file is gone and the store file is left behind with its
    records. *)
Theorem Remove_failure (dir : string) (base : Z) (c : Config)
    (s : segment.t) (w : World) (k : nat) (e : error)
    (rest : list (option error)) :
  attached dir base c s w → (5 <= k <= 6)%nat →
  ∃ w',
    segment.Remove (s, with_faults (replicate k None ++ Some e :: rest) w)
    = (Err e, (s, w'))
    ∧ faults w' = rest
    ∧ (fd (store.file (segment.store s)) ∉ handles w')
    ∧ (fd (index.file (segment.index s)) ∉ handles w')
    ∧ files w' !! store_path dir base = files w !! store_path dir base
    ∧ is_Some (files w' !! store_path dir base)
    ∧ (k = 5%nat →
       files w' !! index_path dir base
       = Some (take (Z.to_nat (index.size (segment.index s)))
                 (index.mmap (segment.index s))))
    ∧ (k = 6%nat → files w' !! index_path dir base = None).
Proof.
  intros Hatt Hk.
  pose proof (att_store_name _ _ _ _ _ Hatt) as Hsn.
  pose proof (att_index_name _ _ _ _ _ Hatt) as Hin.
  pose proof (store_index_paths dir base) as Hne.
  set (wf := with_faults _ w).
  assert (HF : Forall (eq None) (take 5 (faults wf))).
  { unfold wf, with_faults. cbn [faults].
    destruct Hk as [H5 H6].
    destruct k as [|[|[|[|[|k]]]]]; try lia.
    simpl. repeat constructor. }
  destruct (Close_pass dir base c s w wf Hatt eq_refl eq_refl HF)
    as (F & b & EC & Hwb & HFs & HFi & HFo).
  set (w1 := mkWorld F _ _ _) in EC.
  assert (Hhs : fd (store.file (segment.store s)) ∉ handles w1).
  { unfold w1. cbn [handles]. intros Hx.
    apply elem_of_difference in Hx. destruct Hx as [_ Hx].
    apply Hx, elem_of_singleton. reflexivity. }
  assert (Hhi : fd (index.file (segment.index s)) ∉ handles w1).
  { unfold w1. cbn [handles]. intros Hx.
    apply elem_of_difference in Hx. destruct Hx as [Hx _].
    apply elem_of_difference in Hx. destruct Hx as [_ Hx].
    apply Hx, elem_of_singleton. reflexivity. }
  change (files wf) with (files w) in Hwb.
  assert (Hk' : k = 5%nat ∨ k = 6%nat) by lia.
  destruct Hk' as [-> | ->].
  - (* the removal of the index file fails *)
    assert (Hq1 : faults w1 = Some e :: rest) by reflexivity.
    pose proof (Remove_fault (index_path dir base) w1 e rest Hq1) as E1.
    eexists. split.
    { unfold segment.Remove.
      rewrite (bind_Ok _ _ _ _ _ EC).
      unfold bind at 1, on_self at 1, get at 1. cbn [fst snd].
      unfold index.Name, store.Name, os.File_Name. rewrite Hsn, Hin.
      unfold bind, on_world. cbn [fst snd]. rewrite E1. reflexivity. }
    cbn [faults handles files].
    split; [reflexivity|]. split; [exact Hhs|]. split; [exact Hhi|].
    split; [rewrite Hwb; exact HFs|].
    split; [exists b; exact HFs|].
    split; [intros _; exact HFi|discriminate].
  - (* the removal of the store file fails *)
    assert (HF1 : Forall (eq None) (take 1 (faults w1)))
      by (repeat constructor).
    pose proof (Remove_pass (index_path dir base) w1 _ 0 HFi HF1) as E1.
    set (w2 := mkWorld _ _ _ _) in E1.
    assert (Hq2 : faults w2 = Some e :: rest) by reflexivity.
    pose proof (Remove_fault (store_path dir base) w2 e rest Hq2) as E2.
    eexists. split.
    { unfold segment.Remove.
      rewrite (bind_Ok _ _ _ _ _ EC).
      unfold bind at 1, on_self at 1, get at 1. cbn [fst snd].
      unfold index.Name, store.Name, os.File_Name. rewrite Hsn, Hin.
      unfold bind, on_world. cbn [fst snd]. rewrite E1. cbn [fst snd].
      rewrite E2. reflexivity. }
    cbn [faults handles files].
    assert (Hs2 : files w2 !! store_path dir base = Some b).
    { unfold w2, w1. cbn [files]. rewrite lookup_delete_ne by done.
      exact HFs. }
    split; [reflexivity|]. split; [exact Hhs|]. split; [exact Hhi|].
    split; [rewrite Hwb; exact Hs2|].
    split; [exists b; exact Hs2|].
    split; [discriminate|]. intros _.
    unfold w2, w1. cbn [files]. apply lookup_delete_eq.
Qed.

Lemma Remove_failure_witness :
  ∃ w',
    segment.Remove
      (fst (demo_segment 7),
       with_faults (replicate 6 None ++ [Some (EIO 5)]) (snd (demo_segment 7)))
    = (Err (EIO 5), (fst (demo_segment 7), w'))
    ∧ files w' !! index_path "/log" 7 = None
    ∧ is_Some (files w' !! store_path "/log" 7).
Proof.
  assert (Hb : is_uint64 7) by (unfold is_uint64; lia).
  assert (Hfresh : fresh "/log" 7 empty_world) by (split; reflexivity).
  assert (Hnew : segment.newSegment "/log" 7 demo_config empty_world
                 = (Ok (fst (demo_segment 7)), snd (demo_segment 7)))
    by (vm_compute; reflexivity).
  destruct (newSegment_fresh "/log" 7 demo_config empty_world _ _ Hb eq_refl
              Hfresh Hnew) as (Hatt0 & _).
  destruct (Remove_failure "/log" 7 demo_config (fst (demo_segment 7))
              (snd (demo_segment 7)) 6 (EIO 5) [] Hatt0 ltac:(lia))
    as (w' & E & _ & _ & _ & _ & Hs & _ & Hi).
  exists w'. split; [exact E|]. split; [apply Hi; reflexivity|exact Hs].
Defined.

(** ** The index without room, and [IsMaxed] *)

(** X17.  [Append] writes the record to the store before it writes the
    index entry.  On a segment that agrees with the machine and whose
    mapped region has no room for twelve more bytes, an [Append] of a
    record that serializes fails with [io.EOF] after the store's file has
    grown by the framed record; the index and [nextOffset] are as before.
    [IsMaxed] can be false on such a segment: it compares [size] with the
    configured length, which need not be a multiple of twelve. *)
Theorem Append_index_full `{Codec} (dir : string) (base : Z) (c : Config)
    (r : api_Record) (s : segment.t) (w : World) (p : list byte) :
  attached dir base c s w →
  len (index.mmap (segment.index s)) < index.size (segment.index s) + 12 →
  Marshal (set_Offset (segment.nextOffset s) r) = Ok p →
  len (content w (store_path dir base)) + (8 + len p) < 2 ^ 63 →
  ∃ s' w',
    segment.Append (r, (s, w))
    = (Err EOF, (set_Offset (segment.nextOffset s) r, (s', w')))
    ∧ content w' (store_path dir base)
      = content w (store_path dir base) ++ enc.PutUint64 (len p) ++ p
    ∧ store.size (segment.store s')
      = store.size (segment.store s) + 8 + len p
    ∧ segment.index s' = segment.index s
    ∧ segment.nextOffset s' = segment.nextOffset s
    ∧ (index.size (segment.index s) < MaxIndexBytes (Segment c) →
       store.size (segment.store s') < MaxStoreBytes (Segment c) →
       segment.IsMaxed s' = false).
Proof.
  intros Hatt Hfull Hp Hroom.
  destruct Hatt as [Hq Hbase Hcfg Hsn Hin Hso Hio Hfds (b & Hfb & Hsz & Hb63)
    (ib & Hfi & Hil) [Hcap Hcap0] (n & Hn & Hisz & Hn12 & Hnext)].
  pose proof (int64_range (MaxIndexBytes (Segment c))) as Hr.
  assert (Hc : content w (store_path dir base) = b)
    by (unfold content; rewrite Hfb; reflexivity).
  rewrite Hc in *. rewrite <- Hsn in Hfb.
  rewrite (Append_quiet r s w b Hq Hso Hfb Hsz) by lia.
  cbv zeta. rewrite Hp.
  destruct (Z.leb_spec (2 ^ 63) (len b + (8 + len p))); [lia|].
  destruct (Z.ltb_spec (len (index.mmap (segment.index s)))
              (index.size (segment.index s) + 12)); [|lia].
  eexists _, _. split; [reflexivity|]. proj_simpl.
  split.
  { unfold content, set_files. cbn [files].
    rewrite Hsn, lookup_insert_eq. reflexivity. }
  split; [lia|]. split; [reflexivity|]. split; [reflexivity|].
  intros Hi Hs. unfold segment.IsMaxed. proj_simpl. rewrite Hcfg.
  destruct (Z.leb_spec (MaxStoreBytes (Segment c)) (len b + 8 + len p));
    [lia|].
  destruct (Z.leb_spec (MaxIndexBytes (Segment c))
              (index.size (segment.index s))); [lia|].
  reflexivity.
Qed.

Lemma Append_index_full_witness :
  ∃ s' w',
    @segment.Append fixed_codec (mkRecord [x6a] 0, odd_segment)
    = (Err EOF, (mkRecord [x6a] 9, (s', w')))
    ∧ len (content w' (store_path "/log" 7))
      = len (content (snd odd_segment) (store_path "/log" 7)) + 17
    ∧ segment.IsMaxed (fst odd_segment) = false
    ∧ segment.IsMaxed s' = false.
Proof.
  assert (Hb : is_uint64 7) by (unfold is_uint64; lia).
  assert (Hfresh : fresh "/log" 7 empty_world) by (split; reflexivity).
  assert (Hnew : segment.newSegment "/log" 7 odd_config empty_world
                 = (Ok (fst odd_start), snd odd_start))
    by (vm_compute; reflexivity).
  destruct (newSegment_fresh "/log" 7 odd_config empty_world _ _ Hb eq_refl
              Hfresh Hnew) as (Hatt0 & _).
  assert (Hrun : @run_appends fixed_codec (take 2 demo_records)
                   (fst odd_start, snd odd_start)
                 = (fst (@run_appends fixed_codec (take 2 demo_records)
                           odd_start),
                    (fst odd_segment, snd odd_segment)))
    by (vm_compute; reflexivity).
  destruct (@run_appends_keeps_read fixed_codec "/log" 7 odd_config 0
              (mkRecord [] 0, None) (take 2 demo_records) _ _ _ _ _
              Hatt0 Hrun) as [Hatt _].
  destruct (@Append_index_full fixed_codec "/log" 7 odd_config
              (mkRecord [x6a] 0) (fst odd_segment) (snd odd_segment)
              (enc.PutUint64 9 ++ [x6a]) Hatt)
    as (s' & w' & E & Hc & _ & _ & _ & Hmax).
  - vm_compute. reflexivity.
  - vm_compute. reflexivity.
  - vm_compute. reflexivity.
  - exists s', w'. split; [exact E|].
    split.
    { rewrite Hc, !len_app. vm_compute. reflexivity. }
    split; [vm_compute; reflexivity|].
    apply Hmax.
    + vm_compute. reflexivity.
    + vm_compute in E. injection E as <- _. vm_compute. reflexivity.
Defined.

(** X18.  With a configured index length that is a multiple of twelve,
    [IsMaxed] guards the index: on a segment that agrees with the machine
    and is not maxed, the mapped region has room for one more entry, and
    an [Append] of a record that serializes succeeds unless the store's
    file would reach [2^63] bytes. *)
Theorem IsMaxed_false_room `{Codec} (dir : string) (base : Z) (c : Config)
    (r : api_Record) (s : segment.t) (w : World) :
  attached dir base c s w →
  is_uint64 (MaxIndexBytes (Segment c)) →
  (12 | MaxIndexBytes (Segment c)) →
  segment.IsMaxed s = false →
  index.size (segment.index s) + 12 <= len (index.mmap (segment.index s))
  ∧ ∀ p, Marshal (set_Offset (segment.nextOffset s) r) = Ok p →
         len (content w (store_path dir base)) + (8 + len p) < 2 ^ 63 →
         ∃ s' w',
           segment.Append (r, (s, w))
           = (Ok (segment.nextOffset s),
              (set_Offset (segment.nextOffset s) r, (s', w')))
           ∧ index.size (segment.index s')
             = index.size (segment.index s) + 12.
Proof.
  intros Hatt Hu [q Hq12] Hmax.
  destruct Hatt as [Hq Hbase Hcfg Hsn Hin Hso Hio Hfds (b & Hfb & Hsz & Hb63)
    (ib & Hfi & Hil) [Hcap Hcap0] (n & Hn & Hisz & Hn12 & Hnext)].
  pose proof (int64_range (MaxIndexBytes (Segment c))) as Hr.
  assert (Hi64 : int64 (MaxIndexBytes (Segment c))
                 = MaxIndexBytes (Segment c)).
  { apply int64_nonneg; [exact Hu|lia]. }
  unfold segment.IsMaxed in Hmax. rewrite Hcfg in Hmax.
  apply orb_false_iff in Hmax. destruct Hmax as [_ Hmax].
  apply Z.leb_gt in Hmax.
  assert (Hroom : index.size (segment.index s) + 12
                  <= len (index.mmap (segment.index s))) by lia.
  split; [exact Hroom|]. intros p Hp Hlen.
  assert (Hc : content w (store_path dir base) = b)
    by (unfold content; rewrite Hfb; reflexivity).
  rewrite Hc in Hlen. rewrite <- Hsn in Hfb.
  rewrite (Append_quiet r s w b Hq Hso Hfb Hsz) by lia.
  cbv zeta. rewrite Hp.
  destruct (Z.leb_spec (2 ^ 63) (len b + (8 + len p))); [lia|].
  destruct (Z.ltb_spec (len (index.mmap (segment.index s)))
              (index.size (segment.index s) + 12)); [lia|].
  eexists _, _. split; [reflexivity|]. reflexivity.
Qed.

Lemma IsMaxed_false_room_witness :
  index.size (segment.index (fst (demo_segment 7))) + 12
  <= len (index.mmap (segment.index (fst (demo_segment 7)))).
Proof.
  assert (Hb : is_uint64 7) by (unfold is_uint64; lia).
  assert (Hfresh : fresh "/log" 7 empty_world) by (split; reflexivity).
  assert (Hnew : segment.newSegment "/log" 7 demo_config empty_world
                 = (Ok (fst (demo_segment 7)), snd (demo_segment 7)))
    by (vm_compute; reflexivity).
  destruct (newSegment_fresh "/log" 7 demo_config empty_world _ _ Hb eq_refl
              Hfresh Hnew) as (Hatt0 & _).
  apply (@IsMaxed_false_room fixed_codec "/log" 7 demo_config
           (mkRecord [x68] 0) (fst (demo_segment 7)) (snd (demo_segment 7))
           Hatt0).
  - unfold is_uint64. simpl. lia.
  - exists 2. reflexivity.
  - vm_compute. reflexivity.
Defined.

(** X19.  [IsMaxed] is not undone by [Append]: on a segment that agrees
    with the machine, a maxed segment is maxed after every [Append],
    whether the call succeeded or failed. *)
Theorem IsMaxed_Append_stays `{Codec} (dir : string) (base : Z) (c : Config)
    (r : api_Record) (s : segment.t) (w : World) o r' s' w' :
  attached dir base c s w →
  segment.Append (r, (s, w)) = (o, (r', (s', w'))) →
  segment.IsMaxed s = true → segment.IsMaxed s' = true.
Proof.
  intros Hatt E Hmax.
  pose proof (Append_attached dir base c r s w _ _ _ _ Hatt E) as Hatt'.
  destruct (Append_shape dir base c r s w _ _ _ _ Hatt E) as (x & Hx & Hix).
  assert (Hisz : index.size (segment.index s)
                 <= index.size (segment.index s')).
  { destruct Hix as [->|(-> & _)]; [lia|].
    unfold written. proj_simpl. lia. }
  destruct Hatt as [_ _ Hcfg _ _ _ _ _ (b & Hfb & Hsz & _) _ _ _].
  destruct Hatt' as [_ _ Hcfg' _ _ _ _ _ (b' & Hfb' & Hsz' & _) _ _ _].
  unfold content in Hx. rewrite Hfb, Hfb' in Hx. simpl in Hx.
  assert (Hssz : store.size (segment.store s)
                 <= store.size (segment.store s')).
  { rewrite Hsz, Hsz', Hx, len_app. pose proof (len_nonneg x). lia. }
  unfold segment.IsMaxed in *. rewrite Hcfg in Hmax. rewrite Hcfg'.
  apply orb_true_iff in Hmax. apply orb_true_iff.
  destruct Hmax as [Hm|Hm]; apply Z.leb_le in Hm; [left|right];
    apply Z.leb_le; lia.
Qed.

Lemma IsMaxed_Append_stays_witness :
  ∃ s' w',
    snd (snd (@segment.Append fixed_codec
                (mkRecord [x6a] 0, snd (@run_appends fixed_codec
                                          (take 2 demo_records)
                                          (demo_segment 7)))))
    = (s', w')
    ∧ segment.IsMaxed s' = true.
Proof.
  assert (Hb : is_uint64 7) by (unfold is_uint64; lia).
  assert (Hfresh : fresh "/log" 7 empty_world) by (split; reflexivity).
  assert (Hnew : segment.newSegment "/log" 7 demo_config empty_world
                 = (Ok (fst (demo_segment 7)), snd (demo_segment 7)))
    by (vm_compute; reflexivity).
  destruct (newSegment_fresh "/log" 7 demo_config empty_world _ _ Hb eq_refl
              Hfresh Hnew) as (Hatt0 & _).
  destruct (@run_appends fixed_codec (take 2 demo_records) (demo_segment 7))
    as [outs [s1 w1]] eqn:Hrun.
  destruct (@run_appends_keeps_read fixed_codec "/log" 7 demo_config 0
              (mkRecord [] 0, None) (take 2 demo_records)
              (fst (demo_segment 7)) (snd (demo_segment 7)) outs s1 w1
              Hatt0 Hrun) as [Hatt _].
  destruct (@segment.Append fixed_codec (mkRecord [x6a] 0, (s1, w1)))
    as [o [r' [s' w']]] eqn:E.
  exists s', w'. split; [cbn [snd]; rewrite E; reflexivity|].
  apply (@IsMaxed_Append_stays fixed_codec "/log" 7 demo_config
           (mkRecord [x6a] 0) s1 w1 o r' s' w' Hatt E).
  vm_compute in Hrun. injection Hrun as _ <- _. vm_compute. reflexivity.
Defined.

(** ** The files of different segments *)

Lemma string_length_app (a b : string) :
  String.length (a +:+ b) = (String.length a + String.length b)%nat.
Proof. induction a as [|ch a IH]; simpl; [reflexivity|]. rewrite IH. reflexivity. Qed.

Lemma append_inj_r (a b s t : string) :
  (a +:+ s = b +:+ t)%string → String.length s = String.length t →
  a = b ∧ s = t.
Proof.
  revert b. induction a as [|ch a IH]; intros [|ch' b] E Hl.
  - auto.
  - exfalso. apply (f_equal String.length) in E.
    rewrite !string_length_app in E. simpl in E. lia.
  - exfalso. apply (f_equal String.length) in E.
    rewrite !string_length_app in E. simpl in E. lia.
  - change (String ch (a +:+ s) = String ch' (b +:+ t)) in E.
    injection E as -> E. destruct (IH b E Hl) as [-> ->]. auto.
Qed.

Lemma to_int_nonnil (n : Z) :
  Z.to_int n ≠ Decimal.Pos Decimal.Nil ∧ Z.to_int n ≠ Decimal.Neg Decimal.Nil.
Proof.
  destruct n as [|p|p]; simpl; split; try discriminate;
    intros E; injection E as E;
    exact (DecimalPos.Unsigned.to_uint_nonnil p E).
Qed.

Lemma string_of_int_inj (n n' : Z) :
  NilZero.string_of_int (Z.to_int n) = NilZero.string_of_int (Z.to_int n') →
  n = n'.
Proof.
  intros E. apply DecimalZ.to_int_inj.
  destruct (to_int_nonnil n) as [H1 H2].
  destruct (to_int_nonnil n') as [H1' H2'].
  pose proof (NilZero.isi _ H1 H2) as Ea.
  pose proof (NilZero.isi _ H1' H2') as Eb.
  rewrite E in Ea. rewrite Ea in Eb. injection Eb as Eb. exact Eb.
Qed.

Lemma Sprintf_d_s_inj (n n' : Z) (s t : string) :
  Sprintf_d_s n s = Sprintf_d_s n' t → String.length s = String.length t →
  n = n' ∧ s = t.
Proof.
  unfold Sprintf_d_s. intros E Hl.
  destruct (append_inj_r _ _ _ _ E Hl) as [En Es].
  split; [apply string_of_int_inj; exact En|exact Es].
Qed.

(** X20.  The names that [newSegment] gives the two files determine the
    base offset: under one directory, segments with different base
    offsets have different store files and different index files, and no
    store file is the index file of any segment. *)
Theorem segment_paths_distinct (dir : string) (base base' : Z) :
  (store_path dir base = store_path dir base' → base = base')
  ∧ (index_path dir base = index_path dir base' → base = base')
  ∧ store_path dir base ≠ index_path dir base'.
Proof.
  unfold store_path, index_path, path_Join.
  split; [|split]; intros E; repeat apply append_inj_l in E;
    apply Sprintf_d_s_inj in E; try reflexivity.
  - apply E.
  - apply E.
  - destruct E as [_ E]. discriminate.
Qed.


